(** * stringify-structured: a shallow embedding of [src/index.ts]

    The development follows the source file top to bottom:

    - [JsString]: the host string operations the library calls
      ([length], [includes], [trim], [split], [replace], [join], [>]);
    - the data model (values, nodes, contexts, results);
    - the four node kinds [text], [block], [inline], [list] with their
      render methods, written over the [render] callback of the context
      exactly as the source does;
    - the default formatter and the [stringify] driver with its
      [alreadyVisited] set;
    - the properties.

    Strings are Rocq [string]s: a character stands for one UTF-16 code
    unit, restricted to the code units below 256.  Among these the host's
    white space is TAB, LF, VT, FF, CR, SPACE and NBSP, and its line
    terminators are LF and CR.  The render method of [text], which looks
    at white space and line terminators, is embedded a second time over
    strings of arbitrary code units ([Utf16]), and the two embeddings are
    shown to agree on the strings they share.

    The embedding covers the library's own code: the four node kinds and
    the default formatter.  A node of the user's own and the [formatter]
    option run code of the user and are left out. *)

From Stdlib Require Import String Ascii List ZArith Lia Permutation Sorted DecimalString.
From stdpp Require Import gmap strings list fin_maps sorting.

(** String concatenation is written [+:+]; it unfolds on a constructor. *)
#[global] Arguments String.append !s1 s2 : simpl nomatch.

(** ** Host string operations *)

Module JsString.

Definition NUL : ascii := "000"%char.
Definition BS : ascii := "008"%char.
Definition TAB : ascii := "009"%char.
Definition LF : ascii := "010"%char.
Definition VT : ascii := "011"%char.
Definition FF : ascii := "012"%char.
Definition CR : ascii := "013"%char.
Definition SP : ascii := " "%char.
Definition NBSP : ascii := "160"%char.
Definition BACKSLASH : ascii := "\"%char.
Definition QUOTE : ascii := "'"%char.
Definition DOLLAR : ascii := "$"%char.
Definition AMPERSAND : ascii := "&"%char.
Definition BACKTICK : ascii := "`"%char.

(** The one-character string ['\n']. *)
Definition newline : string := String LF "".

(** [s.includes(c)] for a one-character needle. *)
Fixpoint includes (c : ascii) (s : string) : bool :=
  match s with
  | "" => false
  | String d r => Ascii.eqb d c || includes c r
  end.

(** White space as [trim] and the regular expression class [\s] see it. *)
Definition isWhiteSpace (c : ascii) : bool :=
  Ascii.eqb c TAB || Ascii.eqb c LF || Ascii.eqb c VT || Ascii.eqb c FF
  || Ascii.eqb c CR || Ascii.eqb c SP || Ascii.eqb c NBSP.

(** What [^] looks at under the [m] flag. *)
Definition isLineTerminator (c : ascii) : bool :=
  Ascii.eqb c LF || Ascii.eqb c CR.

Fixpoint trimStart (s : string) : string :=
  match s with
  | "" => ""
  | String c r => if isWhiteSpace c then trimStart r else s
  end.

Fixpoint trimEnd (s : string) : string :=
  match s with
  | "" => ""
  | String c r =>
      match trimEnd r with
      | "" => if isWhiteSpace c then "" else String c ""
      | r' => String c r'
      end
  end.

Definition trim (s : string) : string := trimEnd (trimStart s).

(** [' '.repeat(n)], also [new Array(n + 1).join(' ')]. *)
Fixpoint spaces (n : nat) : string :=
  match n with
  | 0 => ""
  | S k => String SP (spaces k)
  end.

(** [ss.join(sep)]. *)
Definition join (sep : string) (ss : list string) : string := String.concat sep ss.

(** [s.slice(n)]. *)
Fixpoint dropChars (n : nat) (s : string) : string :=
  match n, s with
  | 0, _ => s
  | S k, String _ r => dropChars k r
  | S _, "" => ""
  end.

(** [s.slice(0, n)]. *)
Fixpoint takeChars (n : nat) (s : string) : string :=
  match n, s with
  | 0, _ => ""
  | S k, String c r => String c (takeChars k r)
  | S _, "" => ""
  end.

(** [s.split(/\r?\n/g)]: the separator is LF, or CR immediately followed
    by LF; a CR not followed by LF stays in its line.  The result always
    has at least one element. *)
Fixpoint splitLines (s : string) : list string :=
  match s with
  | "" => [""]
  | String c r =>
      if Ascii.eqb c LF then "" :: splitLines r
      else
        match r with
        | String d r' =>
            if Ascii.eqb c CR && Ascii.eqb d LF then "" :: splitLines r'
            else
              match splitLines r with
              | l :: ls => String c l :: ls
              | [] => [String c ""]
              end
        | "" => [String c ""]
        end
  end.

(** [/^\s*$/.test(l)]: no [m] flag, so the whole string is white space. *)
Fixpoint isBlank (l : string) : bool :=
  match l with
  | "" => true
  | String c r => isWhiteSpace c && isBlank r
  end.

(** [l.match(/^ */)[0].length]: the number of leading SPACE characters. *)
Fixpoint indentOfLine (l : string) : nat :=
  match l with
  | String c r => if Ascii.eqb c SP then S (indentOfLine r) else 0
  | "" => 0
  end.

(** [Math.min.apply(Math, ns)]: [None] stands for the [Infinity] that the
    empty argument list yields. *)
Fixpoint mathMin (ns : list nat) : option nat :=
  match ns with
  | [] => None
  | n :: r => match mathMin r with None => Some n | Some m => Some (Nat.min n m) end
  end.

(** Does [s] begin with [k] SPACE characters: the pattern [' '.repeat(k)]
    matched at the front of [s]. *)
Fixpoint startsWithSpaces (k : nat) (s : string) : bool :=
  match k with
  | 0 => true
  | S k' =>
      match s with
      | String c r => Ascii.eqb c SP && startsWithSpaces k' r
      | "" => false
      end
  end.

(** GetSubstitution for a pattern without capture groups: in the
    replacement template [$$] is a dollar sign, [$&] the matched text,
    [$`] the part of the subject before the match and [$'] the part
    after it; any other [$] stands for itself. *)
Fixpoint getSubstitution (matched str : string) (position : nat) (template : string) : string :=
  match template with
  | "" => ""
  | String c t =>
      if Ascii.eqb c DOLLAR then
        match t with
        | String d t' =>
            if Ascii.eqb d DOLLAR then String DOLLAR (getSubstitution matched str position t')
            else if Ascii.eqb d AMPERSAND then matched +:+ getSubstitution matched str position t'
            else if Ascii.eqb d BACKTICK then takeChars position str +:+ getSubstitution matched str position t'
            else if Ascii.eqb d QUOTE then
              dropChars (position + String.length matched) str +:+ getSubstitution matched str position t'
            else String DOLLAR (getSubstitution matched str position t)
        | "" => String DOLLAR ""
        end
      else String c (getSubstitution matched str position t)
  end.

(** The scan of [str.replace(new RegExp('^' + ' '.repeat(k), 'gm'), template)].
    [pos] is the index of the first character of [rest] in [str];
    [lineStart] tells whether [^] holds there (index 0, or just after a
    line terminator); [skip] counts the characters of the last match that
    are still to be consumed.  After an empty match the scan moves on by
    one character. *)
Fixpoint replaceLoop (k : nat) (template str : string) (pos : nat)
    (lineStart : bool) (skip : nat) (rest : string) : string :=
  match rest with
  | "" =>
      if lineStart && Nat.eqb k 0 then getSubstitution "" str pos template else ""
  | String c rest' =>
      match skip with
      | S skip' => replaceLoop k template str (S pos) false skip' rest'
      | 0 =>
          if lineStart && startsWithSpaces k rest then
            getSubstitution (spaces k) str pos template +:+
            match k with
            | 0 => String c (replaceLoop k template str (S pos) (isLineTerminator c) 0 rest')
            | S k' => replaceLoop k template str (S pos) false k' rest'
            end
          else String c (replaceLoop k template str (S pos) (isLineTerminator c) 0 rest')
      end
  end.

Definition replaceIndent (k : nat) (template line : string) : string :=
  replaceLoop k template line 0 true 0 line.

(** [a > b] on strings: lexicographic on code units, a proper prefix
    being smaller. *)
Definition gtb (a b : string) : bool :=
  match String.compare a b with Gt => true | _ => false end.

(** [sum(ns)]. *)
Definition sum (ns : list nat) : nat := fold_left (fun a n => a + n) ns 0.

#[global] Arguments sum : simpl never.

End JsString.

Import JsString.

(** ** Escaping and keys *)

(** The table [escapeSubstitutes], entry for entry. *)
Definition escapeSubstitutes : list (ascii * string) :=
  [ (NUL, "\0"); (BS, "\b"); (FF, "\f"); (LF, "\n"); (CR, "\r");
    (TAB, "\t"); (VT, "\v"); (BACKSLASH, "\\"); (QUOTE, "\t") ].

(** [escapeSubstitutes[c]]; a missing key reads [undefined], which
    [replace] turns into text. *)
Fixpoint lookupSubstitute (table : list (ascii * string)) (c : ascii) : string :=
  match table with
  | [] => "undefined"
  | (k, v) :: r => if Ascii.eqb k c then v else lookupSubstitute r c
  end.

(** The alternation [/\0|\x08|\f|\n|\r|\t|\v|\\|\'/]. *)
Definition matchesEscapePattern (c : ascii) : bool :=
  Ascii.eqb c NUL || Ascii.eqb c BS || Ascii.eqb c FF || Ascii.eqb c LF
  || Ascii.eqb c CR || Ascii.eqb c TAB || Ascii.eqb c VT
  || Ascii.eqb c BACKSLASH || Ascii.eqb c QUOTE.

(** [s.replace(pattern, c => table[c])]: the replacement is a function,
    so its result is inserted as it is. *)
Fixpoint escapeCharsWith (table : list (ascii * string)) (s : string) : string :=
  match s with
  | "" => ""
  | String c r =>
      (if matchesEscapePattern c then lookupSubstitute table c else String c "")
      +:+ escapeCharsWith table r
  end.

Definition stringifyStringLiteral (s : string) : string :=
  "'" +:+ escapeCharsWith escapeSubstitutes s +:+ "'".

(** [/^[a-zA-Z_]+[a-zA-Z0-9_]*$/.test(name)]. *)
Definition isNameStart (c : ascii) : bool :=
  let n := nat_of_ascii c in
  (Nat.leb 65 n && Nat.leb n 90) || (Nat.leb 97 n && Nat.leb n 122) || Nat.eqb n 95.

Definition isNameChar (c : ascii) : bool :=
  let n := nat_of_ascii c in
  isNameStart c || (Nat.leb 48 n && Nat.leb n 57).

Fixpoint allNameChars (s : string) : bool :=
  match s with
  | "" => true
  | String c r => isNameChar c && allNameChars r
  end.

Definition isNameString (name : string) : bool :=
  match name with
  | "" => false
  | String c r => isNameStart c && allNameChars r
  end.

(** ** Data model *)

(** Object identities. *)
Definition addr := positive.

(** Primitive values.  A number or bigint is an integer here, of a size
    the host prints in plain decimal notation. *)
Inductive prim :=
| PUndefined
| PNull
| PBool (b : bool)
| PNumber (n : Z)
| PBigInt (n : Z)
| PString (s : string)
| PSymbol (description : string).

(** The four built-in node kinds, over the type [V] of the values they
    hold.  A node keeps what its constructor closed over: the literal
    fragments and the interpolated values, or the joiner, the items and
    the [sort] option. *)
Inductive node (V : Type) :=
| NText (strings : list string) (interpolations : list V)
| NBlock (strings : list string) (interpolations : list V)
| NInline (strings : list string) (interpolations : list V)
| NList (joiner : string) (items : list V) (sort : bool).

Arguments NText {V} strings interpolations.
Arguments NBlock {V} strings interpolations.
Arguments NInline {V} strings interpolations.
Arguments NList {V} joiner items sort.

(** A value is a primitive, a reference to an object of the heap, or
    [VNode n]: a node object that is referenced from this one place only
    (a node written inline in a template, or one the formatter has just
    made).  Such an object cannot be above itself on a render path, so
    [alreadyVisited.has] is false for it and its [add]/[delete] pair is
    invisible to every other object; the embedding renders it without
    touching the set. *)
#[warnings="-register-all"]
Inductive value :=
| VPrim (p : prim)
| VRef (a : addr)
| VNode (n : node value).

(** Heap objects.  [OPlain] is any object that is not an array, a [Set],
    a [Map], a function or a node; it and [OFunction] carry what
    [Object.entries] lists: the enumerable own string-keyed properties,
    in the host's order. *)
Inductive obj :=
| OArray (items : list value)
| OSet (items : list value)
| OMap (entries : list (value * value))
| OPlain (entries : list (string * value))
| OFunction (entries : list (string * value))
| ONode (n : node value).

(** The heap: the objects, and for each object that is not a node the
    text the host's own [toString] gives for it.  That conversion is code
    of the host (or of the user), taken here as a fixed text per object. *)
Record Heap := {
  objects : gmap addr obj;
  hostToString : addr -> string
}.

(** [wrapWidth] is a number.  It is only ever compared with a string
    length, so a finite width is kept as an integer (its floor; any
    negative integer for minus infinity). *)
Inductive width :=
| Finite (z : Z)
| Infinity
| NaN.

(** [n > w] for a length [n]. *)
Definition exceeds (n : nat) (w : width) : bool :=
  match w with
  | Finite z => (z <? Z.of_nat n)%Z
  | Infinity => false
  | NaN => false
  end.

(** [RenderParams] without its [render] field: the callback is passed
    beside the record, since every built-in node hands it on unchanged. *)
Record RenderParams := {
  wrapWidth : width;
  indent : string;
  indentIncrement : string
}.

Record RenderResult := {
  isMultiline : bool;
  content : string
}.

(** ** Exceptions, fuel and the visited set *)

Inductive error :=
| JsError (message : string)
| JsTypeError (message : string)
| NoSuchObject (a : addr).

(** What a call does: return, throw, or (in the embedding only) still be
    running when the fuel is spent. *)
Inductive outcome (A : Type) :=
| Ok (a : A)
| Throw (e : error)
| OutOfFuel.

Arguments Ok {A} a.
Arguments Throw {A} e.
Arguments OutOfFuel {A}.

Definition bindO {A B} (o : outcome A) (f : A -> outcome B) : outcome B :=
  match o with
  | Ok a => f a
  | Throw e => Throw e
  | OutOfFuel => OutOfFuel
  end.

Fixpoint mapO {A B} (f : A -> outcome B) (l : list A) : outcome (list B) :=
  match l with
  | [] => Ok []
  | x :: r => bindO (f x) (fun y => bindO (mapO f r) (fun ys => Ok (y :: ys)))
  end.

(** Code that runs inside one [stringify] call reads and writes that
    call's [alreadyVisited] set. *)
Definition M (A : Type) : Type := gset addr -> outcome A * gset addr.

Definition ret {A} (a : A) : M A := fun s => (Ok a, s).

Definition lift {A} (o : outcome A) : M A := fun s => (o, s).

Definition bindM {A B} (m : M A) (f : A -> M B) : M B :=
  fun s =>
    match m s with
    | (Ok a, s') => f a s'
    | (Throw e, s') => (Throw e, s')
    | (OutOfFuel, s') => (OutOfFuel, s')
    end.

Notation "'let*' x ':=' m 'in' k" := (bindM m (fun x => k))
  (at level 10, x name, m at level 100, k at level 200).

(** [xs.map(f)] for an effectful [f]: left to right, the first failure
    ends it. *)
Fixpoint mapM {A B} (f : A -> M B) (l : list A) : M (list B) :=
  match l with
  | [] => ret []
  | x :: r => let* y := f x in let* ys := mapM f r in ret (y :: ys)
  end.

(** The [render] callback of a context. *)
Definition Render : Type := value -> RenderParams -> M RenderResult.

(** ** interpolate *)

Fixpoint interpolateLoop (s : string) (strings interpolations : list string) : outcome string :=
  match strings, interpolations with
  | [], [] => Ok s
  | str :: strings', i :: interpolations' =>
      interpolateLoop (s +:+ i +:+ str) strings' interpolations'
  | _, _ =>
      Throw (JsError "A tagged template expects exactly one more string than interpolation value")
  end.

Definition interpolate (strings interpolations : list string) : outcome string :=
  match strings with
  | [] => Throw (JsError "Expected at least one interpolated string")
  | s :: strings' => interpolateLoop s strings' interpolations
  end.

(** ** The node kinds *)

Definition countMismatch : error :=
  JsError "Expected a tagged template to be invoked with exactly one more string than interpolation".

(** [text]: no check when the node is made. *)
Definition text (strings : list string) (interpolations : list value) : outcome (node value) :=
  Ok (NText strings interpolations).

Definition block (strings : list string) (interpolations : list value) : outcome (node value) :=
  if negb (Nat.eqb (length strings) (length interpolations + 1)) then Throw countMismatch
  else Ok (NBlock strings interpolations).

Definition inline (strings : list string) (interpolations : list value) : outcome (node value) :=
  if negb (Nat.eqb (length strings) (length interpolations + 1)) then Throw countMismatch
  else Ok (NInline strings interpolations).

(** [list] of the source; the name is taken by the type of lists. *)
Definition list_ (joiner : string) (items : list value) (sort : bool) : outcome (node value) :=
  Ok (NList joiner items sort).

(** The render method of [text].  [toStr] is the coercion ['' + x]. *)
Definition text_render (toStr : value -> outcome string)
    (strings : list string) (interpolations : list value)
    (params : RenderParams) : outcome RenderResult :=
  bindO (mapO toStr interpolations) (fun coerced =>
  bindO (interpolate strings coerced) (fun text =>
  let lines := splitLines text in
  if Nat.eqb (length lines) 1 then
    Ok {| isMultiline := false; content := text |}
  else
    let firstLine := hd "" lines in
    let restLines := tl lines in
    let nonBlankLines := List.filter (fun l => negb (isBlank l)) restLines in
    let minIndentSize := mathMin (map indentOfLine nonBlankLines) in
    let minIndent := match minIndentSize with Some n => n | None => 0 end in
    let reIndentedLines :=
      firstLine :: map (fun l => replaceIndent minIndent (indent params) l) restLines in
    Ok {| isMultiline := true; content := join newline reIndentedLines |})).

(** The fragments of a block that breaks: trimmed, the first one as it
    is, an empty one dropped, every other one on a fresh line. *)
Definition brokenFragment (indent : string) (i : nat) (s : string) : string :=
  let s := trim s in
  if Nat.eqb i 0 then s
  else if String.eqb s "" then s
  else newline +:+ indent +:+ s.

Definition block_render (render : Render)
    (strings : list string) (interpolations : list value)
    (params : RenderParams) : M RenderResult :=
  let childIndent := indent params +:+ indentIncrement params in
  let* renderedInterpolations :=
    mapM (fun x => render x {| wrapWidth := wrapWidth params;
                               indent := childIndent;
                               indentIncrement := indentIncrement params |})
         interpolations in
  let singleLineLength :=
    sum (map String.length strings)
    + sum (map (fun s => String.length (content s)) renderedInterpolations) in
  let multiline :=
    existsb isMultiline renderedInterpolations
    || exceeds (String.length (indent params) + singleLineLength) (wrapWidth params)
    || existsb (includes LF) strings in
  let* c :=
    lift (if multiline then
               interpolate
                 (imap (brokenFragment (indent params)) strings)
                 (map (fun x => newline +:+ childIndent +:+ trim (content x))
                      renderedInterpolations)
             else interpolate strings (map content renderedInterpolations)) in
  ret {| isMultiline := multiline; content := c |}.

Definition inline_render (render : Render)
    (strings : list string) (interpolations : list value)
    (params : RenderParams) : M RenderResult :=
  let* renderedInterpolations :=
    mapM (fun x => render x params) interpolations in
  let singleLineLength :=
    sum (map String.length strings)
    + sum (map (fun s => String.length (content s)) renderedInterpolations) in
  let multiline :=
    existsb isMultiline renderedInterpolations
    || exceeds (String.length (indent params) + singleLineLength) (wrapWidth params)
    || existsb (includes LF) strings in
  let* c :=
    lift (interpolate strings (map content renderedInterpolations)) in
  ret {| isMultiline := multiline; content := c |}.

(** [renderedItems.sort((a, b) => a.content > b.content ? 1 : a.content === b.content ? 0 : -1)].
    The host's sort is stable, and for this comparator (a total preorder)
    a stable sort has one possible result, which insertion from the right
    computes: an item goes in front of the first item the comparator does
    not put before it. *)
Definition compareContent (a b : RenderResult) : Z :=
  if gtb (content a) (content b) then 1%Z
  else if String.eqb (content a) (content b) then 0%Z
  else (-1)%Z.

Fixpoint insertRendered (x : RenderResult) (l : list RenderResult) : list RenderResult :=
  match l with
  | [] => [x]
  | y :: r => if (0 <? compareContent x y)%Z then y :: insertRendered x r else x :: l
  end.

Fixpoint sortRendered (l : list RenderResult) : list RenderResult :=
  match l with
  | [] => []
  | x :: r => insertRendered x (sortRendered r)
  end.

Definition list_render (render : Render)
    (joiner : string) (items : list value) (sort : bool)
    (params : RenderParams) : M RenderResult :=
  let* rendered :=
    mapM (fun x => render x params) items in
  let renderedItems := if sort then sortRendered rendered else rendered in
  let singleLineLength :=
    sum (map (fun x => String.length (content x)) renderedItems)
    + String.length joiner * Nat.max (length renderedItems - 1) 0 in
  let multiline :=
    existsb isMultiline renderedItems
    || exceeds (String.length (indent params) + singleLineLength) (wrapWidth params)
    || includes LF joiner in
  let c :=
    if multiline then
      join (trimEnd joiner +:+ newline +:+ indent params) (map content renderedItems)
    else join joiner (map content renderedItems) in
  ret {| isMultiline := multiline; content := c |}.

(** [node[stringifySymbol](params)]. *)
Definition node_render (render : Render) (toStr : value -> outcome string)
    (n : node value) (params : RenderParams) : M RenderResult :=
  match n with
  | NText strings interpolations => lift (text_render toStr strings interpolations params)
  | NBlock strings interpolations => block_render render strings interpolations params
  | NInline strings interpolations => inline_render render strings interpolations params
  | NList joiner items sort => list_render render joiner items sort params
  end.

(** ** Keys and the default formatter *)

(** The textual form of a number or bigint. *)
Definition decimal (n : Z) : string := NilZero.string_of_int (Z.to_int n).

(** [stringifyKey]: the switch on [typeof value].  Only a function object
    has type ['function']; every other object, nodes included, has type
    ['object']. *)
Definition stringifyKey (h : Heap) (v : value) : string :=
  match v with
  | VPrim PUndefined => "[undefined]"
  | VPrim (PBool b) => "[" +:+ (if b then "true" else "false") +:+ "]"
  | VPrim (PSymbol d) => "[" +:+ ("Symbol(" +:+ d +:+ ")") +:+ "]"
  | VPrim (PNumber n) => "[" +:+ decimal n +:+ "]"
  | VPrim (PBigInt n) => "[" +:+ decimal n +:+ "]"
  | VPrim (PString s) => if isNameString s then s else stringifyStringLiteral s
  | VPrim PNull => "null"
  | VRef a =>
      match objects h !! a with
      | Some (OFunction _) => "[<function>]"
      | _ => "[<object>]"
      end
  | VNode _ => "[<object>]"
  end.

(** [objectLike]: a block around a sorted list of [key: value] inlines. *)
Definition objectLike (h : Heap) (keyValuePairs : list (value * value)) : node value :=
  NBlock ["{ "; " }"]
    [VNode (NList ", "
       (map (fun kv =>
               VNode (NInline [""; ": "; ""]
                        [VNode (NText [""; ""] [VPrim (PString (stringifyKey h (fst kv)))]);
                         snd kv]))
            keyValuePairs)
       true)].

(** [Object.entries(value)] as key/value pairs. *)
Definition objectEntries (entries : list (string * value)) : list (value * value) :=
  map (fun kv => (VPrim (PString (fst kv)), snd kv)) entries.

(** [defaultFormatter] on a primitive. *)
Definition defaultFormatterPrim (p : prim) : node value :=
  match p with
  | PUndefined => NText ["undefined"] []
  | PBool b => NText [""; ""] [VPrim (PString (if b then "true" else "false"))]
  | PSymbol _ => NText [""; ""] [VPrim p]
  | PNumber _ => NText [""; ""] [VPrim p]
  | PBigInt _ => NText [""; ""] [VPrim p]
  | PString s => NText [""; ""] [VPrim (PString (stringifyStringLiteral s))]
  | PNull => NText ["null"] []
  end.

(** [isStringifiable(value) ? value : formatter(value)] for a heap
    object, with the default formatter: the cases ['function'] and
    ['object'] share one branch. *)
Definition stringifiableOf (h : Heap) (o : obj) : node value :=
  match o with
  | ONode n => n
  | OArray items => NBlock ["["; "]"] [VNode (NList ", " items false)]
  | OSet items => NBlock ["Set ["; "]"] [VNode (NList ", " items true)]
  | OMap entries => NInline ["Map "; ""] [VNode (objectLike h entries)]
  | OPlain entries => objectLike h (objectEntries entries)
  | OFunction entries => objectLike h (objectEntries entries)
  end.

(** ** The driver *)

Inductive indentOpt :=
| IndentString (s : string)
| IndentSize (n : nat).

Record StringifyOpts := {
  opt_wrapWidth : option width;
  opt_indentIncrement : option indentOpt;
  opt_baseIndent : option indentOpt
}.

(** A call without options. *)
Definition noOpts : StringifyOpts :=
  {| opt_wrapWidth := None; opt_indentIncrement := None; opt_baseIndent := None |}.

Definition spaceWithLength (n : nat) : string := join " " (repeat "" (n + 1)).

Definition indentOf (o : option indentOpt) (default : nat) : string :=
  match o with
  | Some (IndentString s) => s
  | Some (IndentSize n) => spaceWithLength n
  | None => spaceWithLength default
  end.

Definition paramsOf (opts : StringifyOpts) : RenderParams :=
  {| wrapWidth := match opt_wrapWidth opts with Some w => w | None => Finite 120 end;
     indent := indentOf (opt_baseIndent opts) 0;
     indentIncrement := indentOf (opt_indentIncrement opts) 2 |}.

(** The body of [stringify] around its inner function [render]: a fresh
    [alreadyVisited] set, one call, the [content] of the result. *)
Definition stringifyWith (render : Render) (v : value) (opts : StringifyOpts) : outcome string :=
  match render v (paramsOf opts) ∅ with
  | (Ok rendered, _) => Ok (content rendered)
  | (Throw e, _) => Throw e
  | (OutOfFuel, _) => OutOfFuel
  end.

(** ['' + p] for a primitive. *)
Definition primToString (p : prim) : outcome string :=
  match p with
  | PUndefined => Ok "undefined"
  | PNull => Ok "null"
  | PBool b => Ok (if b then "true" else "false")
  | PNumber n => Ok (decimal n)
  | PBigInt n => Ok (decimal n)
  | PString s => Ok s
  | PSymbol _ => Throw (JsTypeError "Cannot convert a Symbol value to a string")
  end.

(** ['' + x]: a node answers with its own [toString], which is
    [opts => stringify(result, opts)] called without options, a new
    [stringify] call with a new visited set; any other object answers
    with the host's text. *)
Definition toStringWith (h : Heap) (render : Render) (v : value) : outcome string :=
  match v with
  | VPrim p => primToString p
  | VNode _ => stringifyWith render v noOpts
  | VRef a =>
      match objects h !! a with
      | Some (ONode _) => stringifyWith render v noOpts
      | Some _ => Ok (hostToString h a)
      | None => Throw (NoSuchObject a)
      end
  end.

(** The sentinel [text`<circular>`]. *)
Definition circular : node value := NText ["<circular>"] [].

(** The inner function [render] of [stringify].  Each level of calls
    takes one unit of fuel. *)
Fixpoint render (h : Heap) (fuel : nat) (v : value) (params : RenderParams) : M RenderResult :=
  match fuel with
  | 0 => lift OutOfFuel
  | S fuel' =>
      let method n := node_render (render h fuel') (toStringWith h (render h fuel')) n params in
      match v with
      | VPrim p => method (defaultFormatterPrim p)
      | VNode n => method n
      | VRef a => fun alreadyVisited =>
          if decide (a ∈ alreadyVisited) then method circular alreadyVisited
          else
            match objects h !! a with
            | None => (Throw (NoSuchObject a), alreadyVisited)
            | Some o =>
                let '(r, visited') := method (stringifiableOf h o) ({[a]} ∪ alreadyVisited) in
                (r, visited' ∖ {[a]})
            end
      end
  end.

Definition stringify (h : Heap) (fuel : nat) (v : value) (opts : StringifyOpts) : outcome string :=
  stringifyWith (render h fuel) v opts.

(** ** Vocabulary of the properties *)

(** A string contains a line break when LF occurs in it. *)
Definition hasLineBreak (s : string) : Prop :=
  exists a b : string, s = a +:+ String LF b.

(** The context a block renders its children in. *)
Definition childParams (params : RenderParams) : RenderParams :=
  {| wrapWidth := wrapWidth params;
     indent := indent params +:+ indentIncrement params;
     indentIncrement := indentIncrement params |}.

(** A length is wider than the wrap width: never for an infinite width,
    and never for NaN, with which every comparison is false. *)
Definition widerThan (n : nat) (w : width) : Prop :=
  match w with
  | Finite z => (z < Z.of_nat n)%Z
  | Infinity => False
  | NaN => False
  end.

(** A length is within the wrap width. *)
Definition fits (n : nat) (w : width) : Prop :=
  match w with
  | Finite z => (Z.of_nat n <= z)%Z
  | Infinity => True
  | NaN => False
  end.

(** The invariant of a render result. *)
Definition dichotomy (r : RenderResult) : Prop :=
  isMultiline r = false -> ~ hasLineBreak (content r).

(** A callback whose results all satisfy the invariant. *)
Definition respectsDichotomy (render : Render) : Prop :=
  forall v params s r s', render v params s = (Ok r, s') -> dichotomy r.

(** A callback that leaves the visited set as it found it, however it
    ends. *)
Definition restores (render : Render) : Prop :=
  forall v params s, snd (render v params s) = s.

(** The order of [>] on strings, as a relation: [a] is not greater than
    [b]. *)
Definition strLe (a b : string) : Prop := gtb a b = false.

(** The order the list sort puts rendered items in. *)
Definition contentLe (a b : RenderResult) : Prop := strLe (content a) (content b).

(** The rendered items whose content is [c], in their order in [l]. *)
Definition withContent (c : string) (l : list RenderResult) : list RenderResult :=
  List.filter (fun r => String.eqb (content r) c) l.

(** What [list] returns once its items are rendered. *)
Definition listResult (joiner : string) (sort : bool) (params : RenderParams)
    (rendered : list RenderResult) : RenderResult :=
  let renderedItems := if sort then sortRendered rendered else rendered in
  let singleLineLength :=
    sum (map (fun x => String.length (content x)) renderedItems)
    + String.length joiner * Nat.max (length renderedItems - 1) 0 in
  let multiline :=
    existsb isMultiline renderedItems
    || exceeds (String.length (indent params) + singleLineLength) (wrapWidth params)
    || includes LF joiner in
  {| isMultiline := multiline;
     content :=
       if multiline then
         join (trimEnd joiner +:+ newline +:+ indent params) (map content renderedItems)
       else join joiner (map content renderedItems) |}.

(** The result of a call that returned, and an arbitrary result otherwise. *)
Definition resultOf (o : outcome RenderResult * gset addr) : RenderResult :=
  match fst o with
  | Ok r => r
  | _ => {| isMultiline := false; content := "" |}
  end.

(** The escape table in the words of the specification: NUL, backspace,
    form feed, newline, carriage return, tab, vertical tab and backslash
    as in [escapeSubstitutes], and the single quote as an escaped quote. *)
Definition escapeSubstitutesSpec : list (ascii * string) :=
  [ (NUL, "\0"); (BS, "\b"); (FF, "\f"); (LF, "\n"); (CR, "\r");
    (TAB, "\t"); (VT, "\v"); (BACKSLASH, "\\"); (QUOTE, "\'") ].

Definition stringifyStringLiteralSpec (s : string) : string :=
  "'" +:+ escapeCharsWith escapeSubstitutesSpec s +:+ "'".

(** Entries between braces, as [objectLike] lays them out on one line. *)
Definition bracedForm (entries : list string) : string :=
  "{ " +:+ join ", " entries +:+ " }".

(** The node [objectLike] makes for one key/value pair. *)
Definition entryNode (h : Heap) (kv : value * value) : value :=
  VNode (NInline [""; ": "; ""]
           [VNode (NText [""; ""] [VPrim (PString (stringifyKey h (fst kv)))]); snd kv]).

(** The text of a string key. *)
Definition keyText (k : string) : string :=
  if isNameString k then k else stringifyStringLiteral k.

(** The result of the sentinel. *)
Definition circularResult : RenderResult :=
  {| isMultiline := false; content := "<circular>" |}.

(** Re-indentation of one remaining line of a text, given the minimum
    indent [m]: a line with at least [m] leading spaces loses [m] of them
    and gets the indent in front; any other line stays as it is. *)
Definition reindent (m : nat) (indent line : string) : string :=
  if Nat.leb m (indentOfLine line) then indent +:+ dropChars m line else line.

(** Re-indentation in the words of the specification: strip [m] leading
    spaces, except from a blank line shorter than [m], and put the indent
    in front of every line. *)
Definition reindentAsStated (m : nat) (indent line : string) : string :=
  indent +:+ (if isBlank line && Nat.ltb (String.length line) m then line
              else dropChars m line).

(** A line without LF and CR has no place but its start where [^] holds. *)
Definition plainLine (l : string) : Prop :=
  includes LF l = false /\ includes CR l = false.

Definition isPrim (v : value) : bool :=
  match v with
  | VPrim _ => true
  | _ => false
  end.

(** The values a node hands to the [render] callback. *)
Definition renderedChildren (n : node value) : list value :=
  match n with
  | NText _ _ => []
  | NBlock _ interpolations => interpolations
  | NInline _ interpolations => interpolations
  | NList _ items _ => items
  end.

(** Every Text node written inside the value interpolates primitives
    only. *)
Fixpoint textPlain (v : value) : bool :=
  match v with
  | VPrim _ => true
  | VRef _ => true
  | VNode n =>
      match n with
      | NText _ interpolations => forallb isPrim interpolations
      | NBlock _ interpolations => forallb textPlain interpolations
      | NInline _ interpolations => forallb textPlain interpolations
      | NList _ items _ => forallb textPlain items
      end
  end.

(** How deep nodes are written inside a value. *)
Fixpoint vdepth (v : value) : nat :=
  match v with
  | VPrim _ => 0
  | VRef _ => 0
  | VNode n =>
      S (match n with
         | NText _ interpolations => list_max (map vdepth interpolations)
         | NBlock _ interpolations => list_max (map vdepth interpolations)
         | NInline _ interpolations => list_max (map vdepth interpolations)
         | NList _ items _ => list_max (map vdepth items)
         end)
  end.

(** The nodes the objects of the heap render through. *)
Definition heapNodes (h : Heap) : list (node value) :=
  map (fun ao => stringifiableOf h (snd ao)) (map_to_list (objects h)).

Definition heapTextPlain (h : Heap) : bool :=
  forallb (fun n => textPlain (VNode n)) (heapNodes h).

Definition heapDepth (h : Heap) : nat :=
  list_max (map (fun n => vdepth (VNode n)) (heapNodes h)).

(** Fuel that is enough for [v]: a path of the recursion holds each
    object of the heap at most once. *)
Definition fuelBound (h : Heap) (v : value) : nat :=
  S (vdepth v + heapDepth h * size (dom (objects h))).

(** A call that has ended: it returned or threw. *)
Definition ended {A} (o : outcome A) : Prop := o <> OutOfFuel.

(** [g] agrees with [f] wherever [f] ends. *)
Definition extends (f g : Render) : Prop :=
  forall v params s o s', f v params s = (o, s') -> ended o -> g v params s = (o, s').

(** The heap of [const arr = []; const l = list(', ', arr);
    arr.push(text`${l}`)]: object 1 is the list [l], whose one item is
    object 2, the text node that interpolates [l]. *)
Definition cyclicThroughText : Heap :=
  {| objects := {[1%positive := ONode (NList ", " [VRef 2%positive] false);
                  2%positive := ONode (NText [""; ""] [VRef 1%positive])]};
     hostToString := fun _ => "" |}.

(** The heap of [const arr = ['b', ['c']]; arr[1].push(arr);
    arr.unshift(arr)]: object 1 is [arr], object 2 the inner array. *)
Definition circularArray : Heap :=
  {| objects := {[1%positive := OArray [VRef 1%positive; VPrim (PString "b"); VRef 2%positive];
                  2%positive := OArray [VPrim (PString "c"); VRef 1%positive]]};
     hostToString := fun _ => "" |}.

(** ** Vocabulary of the further properties *)

(** Fragments and interpolated texts in template order: a fragment, a
    text, a fragment, and so on. *)
Fixpoint weave (strings interpolations : list string) : string :=
  match strings with
  | [] => ""
  | s :: strings' =>
      match interpolations with
      | [] => s
      | i :: interpolations' => s +:+ i +:+ weave strings' interpolations'
      end
  end.

(** A carriage return immediately followed by a line feed occurs in the
    string. *)
Fixpoint hasCrLf (s : string) : bool :=
  match s with
  | "" => false
  | String c r =>
      match r with
      | String d _ => (Ascii.eqb c CR && Ascii.eqb d LF) || hasCrLf r
      | "" => false
      end
  end.

(** The text of a primitive that is not a symbol, as the default
    formatter and the coercion of [text] produce it together. *)
Definition primText (p : prim) : string :=
  match p with
  | PUndefined => "undefined"
  | PNull => "null"
  | PBool b => if b then "true" else "false"
  | PNumber n => decimal n
  | PBigInt n => decimal n
  | PString s => stringifyStringLiteral s
  | PSymbol _ => ""
  end.

Definition isSymbol (v : value) : bool :=
  match v with
  | VPrim (PSymbol _) => true
  | _ => false
  end.

(** The control characters of the escape pattern. *)
Definition isEscapedControl (c : ascii) : bool :=
  Ascii.eqb c NUL || Ascii.eqb c BS || Ascii.eqb c FF || Ascii.eqb c LF
  || Ascii.eqb c CR || Ascii.eqb c TAB || Ascii.eqb c VT.

(** A reader of escaped text, the inverse of the escape table away from
    the single quote; it serves to show that escaping loses nothing. *)
Definition unescapeChar (d : ascii) : ascii :=
  if Ascii.eqb d "0"%char then NUL
  else if Ascii.eqb d "b"%char then BS
  else if Ascii.eqb d "f"%char then FF
  else if Ascii.eqb d "n"%char then LF
  else if Ascii.eqb d "r"%char then CR
  else if Ascii.eqb d "t"%char then TAB
  else if Ascii.eqb d "v"%char then VT
  else d.

Fixpoint unescapeChars (s : string) : string :=
  match s with
  | "" => ""
  | String c r =>
      if Ascii.eqb c BACKSLASH then
        match r with
        | String d r' => String (unescapeChar d) (unescapeChars r')
        | "" => String c ""
        end
      else String c (unescapeChars r)
  end.

(** [p'] leaves at least as much room as [p]: a wrap width that is not
    smaller, an indent and an indent increment that are not longer. *)
Definition widthLe (w w' : width) : Prop :=
  match w' with
  | Infinity => True
  | NaN => True
  | Finite z' =>
      match w with
      | Finite z => (z <= z')%Z
      | Infinity => False
      | NaN => False
      end
  end.

Definition roomier (p p' : RenderParams) : Prop :=
  widthLe (wrapWidth p) (wrapWidth p')
  /\ String.length (indent p') <= String.length (indent p)
  /\ String.length (indentIncrement p') <= String.length (indentIncrement p).

(** A callback for which more room never changes a single-line result. *)
Definition keepsSingleLine (render : Render) : Prop :=
  forall v p p' s r s',
    roomier p p' -> render v p s = (Ok r, s') -> isMultiline r = false ->
    render v p' s = (Ok r, s').

(** The length of a list's items on one line: the contents and a joiner
    between each two of them. *)
Definition joinedLength (joiner : string) (rendered : list RenderResult) : nat :=
  sum (map (fun x => String.length (content x)) rendered)
  + String.length joiner * Nat.max (length rendered - 1) 0.

(** A heap without objects, for values that are written out in full. *)
Definition emptyHeap : Heap := {| objects := ∅; hostToString := fun _ => "" |}.

(** The context of a call without options. *)
Definition defaultParams : RenderParams := paramsOf noOpts.

(** A heap with one collection of each kind: object 1 is the array
    [[3, 1, 2]], object 2 is [new Set([3, 1, 2])] and object 3 is
    [new Map([['b', 1], [7, 2]])]. *)
Definition collections : Heap :=
  {| objects :=
       {[1%positive := OArray [VPrim (PNumber 3); VPrim (PNumber 1); VPrim (PNumber 2)];
         2%positive := OSet [VPrim (PNumber 3); VPrim (PNumber 1); VPrim (PNumber 2)];
         3%positive := OMap [(VPrim (PString "b"), VPrim (PNumber 1));
                             (VPrim (PNumber 7), VPrim (PNumber 2))]]};
     hostToString := fun _ => "" |}.

(** The context of a call with a wrap width and no other option. *)
Definition atWidth (w : Z) : RenderParams :=
  {| wrapWidth := Finite w; indent := ""; indentIncrement := "  " |}.

(** A primitive other than a symbol. *)
Definition plainPrim (v : value) : bool :=
  match v with
  | VPrim (PSymbol _) => false
  | VPrim _ => true
  | _ => false
  end.

(** A value whose rendering has nothing to throw on: no symbol, no
    address without an object, every template written inside it with one
    more fragment than interpolations, and every Text interpolating
    primitives other than symbols. *)
Fixpoint wellFormed (h : Heap) (v : value) : bool :=
  match v with
  | VPrim _ => plainPrim v
  | VRef a => match objects h !! a with Some _ => true | None => false end
  | VNode n =>
      match n with
      | NText strings interpolations =>
          Nat.eqb (length strings) (length interpolations + 1)
          && forallb plainPrim interpolations
      | NBlock strings interpolations =>
          Nat.eqb (length strings) (length interpolations + 1)
          && forallb (wellFormed h) interpolations
      | NInline strings interpolations =>
          Nat.eqb (length strings) (length interpolations + 1)
          && forallb (wellFormed h) interpolations
      | NList _ items _ => forallb (wellFormed h) items
      end
  end.

(** Every object of the heap renders through a well-formed node. *)
Definition heapWellFormed (h : Heap) : bool :=
  forallb (fun n => wellFormed h (VNode n)) (heapNodes h).

(** A call that did not throw. *)
Definition noThrow {A} (o : outcome A) : Prop :=
  match o with
  | Throw _ => False
  | _ => True
  end.

(** A wrap width nothing is wider than: [Infinity], and NaN, with which
    every comparison is false. *)
Definition unbounded (w : width) : bool :=
  match w with
  | Finite _ => false
  | Infinity => true
  | NaN => true
  end.

Definition lineFree (s : string) : bool := negb (includes LF s).

(** A primitive, other than a symbol, whose text holds no line break. *)
Definition primLineFree (v : value) : bool :=
  match v with
  | VPrim (PSymbol _) => false
  | VPrim (PString s) => lineFree s
  | VPrim _ => true
  | _ => false
  end.

(** A well-formed value without a line break in any fragment, joiner or
    text interpolated in a Text. *)
Fixpoint breakFree (h : Heap) (v : value) : bool :=
  match v with
  | VPrim _ => plainPrim v
  | VRef a => match objects h !! a with Some _ => true | None => false end
  | VNode n =>
      match n with
      | NText strings interpolations =>
          Nat.eqb (length strings) (length interpolations + 1)
          && forallb lineFree strings
          && forallb primLineFree interpolations
      | NBlock strings interpolations =>
          Nat.eqb (length strings) (length interpolations + 1)
          && forallb lineFree strings
          && forallb (breakFree h) interpolations
      | NInline strings interpolations =>
          Nat.eqb (length strings) (length interpolations + 1)
          && forallb lineFree strings
          && forallb (breakFree h) interpolations
      | NList joiner items _ => lineFree joiner && forallb (breakFree h) items
      end
  end.

Definition heapBreakFree (h : Heap) : bool :=
  forallb (fun n => breakFree h (VNode n)) (heapNodes h).

(** A result on one line. *)
Definition oneLine (r : RenderResult) : Prop :=
  isMultiline r = false /\ includes LF (content r) = false.

(** [Number.isSafeInteger]: an integer the host holds exactly as a
    Number; it prints such a Number in plain decimal notation, while
    from 1e21 on it prints an exponent, which [decimal] does not. *)
Definition isSafeInteger (n : Z) : bool := (Z.abs n <? 2 ^ 53)%Z.

(** A primitive whose text the embedding has: any primitive but a Number
    that is not a safe integer. *)
Definition printsPlain (p : prim) : bool :=
  match p with
  | PNumber n => isSafeInteger n
  | _ => true
  end.

(** The fragments of a block that breaks, in the words of the
    specification: every fragment is trimmed; the first one is placed as
    it is; a later one that is empty after trimming is dropped; every
    other one follows a line break and the indent. *)
Definition brokenFragments (indent : string) (strings : list string) : list string :=
  match strings with
  | [] => []
  | first :: later =>
      trim first
      :: map (fun f => if String.eqb (trim f) "" then ""
                       else newline +:+ indent +:+ trim f) later
  end.

(** The text of one entry of an object: the key text, a colon and a
    space, and the content of the rendered value. *)
Definition entryText (kv : string * value) (rv : RenderResult) : string :=
  keyText (fst kv) +:+ ": " +:+ content rv.

(** The result of one entry in context [p], given the result of its
    value: its text, multiline when the value is or the text passes the
    wrap width behind the indent. *)
Definition entryResult (p : RenderParams) (kv : string * value) (rv : RenderResult)
    : RenderResult :=
  {| isMultiline :=
       isMultiline rv
       || exceeds (String.length (indent p) + String.length (entryText kv rv)) (wrapWidth p);
     content := entryText kv rv |}.

(** The heap of [function f() {}; f.b = 1; f.self = f]. *)
Definition functionWithProperties : Heap :=
  {| objects := {[1%positive := OFunction [("b", VPrim (PNumber 1));
                                           ("self", VRef 1%positive)]]};
     hostToString := fun _ => "" |}.

(** The heap of [{ a: 1, '#b': 2, c: 3 }], the object of the test
    ['object']. *)
Definition testObject : Heap :=
  {| objects := {[1%positive := OPlain [("a", VPrim (PNumber 1));
                                        ("#b", VPrim (PNumber 2));
                                        ("c", VPrim (PNumber 3))]]};
     hostToString := fun _ => "" |}.

(** ** The render method of [text] over all of UTF-16

    The embedding above keeps to the code units below 256.  The render
    method of [text] is the one place where code units beyond them
    matter: the class [\s] and the anchor [^] under the [m] flag know
    white space and line terminators there.  [Utf16] embeds that method
    once more, over strings of arbitrary code units; [widen] takes a
    string of the embedding above to such a string. *)

Module Utf16.

(** A string of the host: a sequence of UTF-16 code units. *)
Definition ustring : Type := list N.

Definition TAB : N := 9.
Definition LF : N := 10.
Definition VT : N := 11.
Definition FF : N := 12.
Definition CR : N := 13.
Definition SP : N := 32.
Definition DOLLAR : N := 36.
Definition AMPERSAND : N := 38.
Definition QUOTE : N := 39.
Definition BACKTICK : N := 96.
Definition NBSP : N := 160.
(** U+2028 LINE SEPARATOR and U+2029 PARAGRAPH SEPARATOR. *)
Definition LS : N := 8232.
Definition PS : N := 8233.

(** [s.includes(c)] for a one-unit needle. *)
Fixpoint includes (c : N) (s : ustring) : bool :=
  match s with
  | [] => false
  | d :: r => N.eqb d c || includes c r
  end.

(** White space as the class [\s] sees it: TAB, VT, FF, SPACE, NBSP,
    U+FEFF, the space separators U+1680, U+2000 to U+200A, U+202F,
    U+205F and U+3000, and the four line terminators. *)
Definition isWhiteSpace (c : N) : bool :=
  N.eqb c TAB || N.eqb c LF || N.eqb c VT || N.eqb c FF || N.eqb c CR
  || N.eqb c SP || N.eqb c NBSP || N.eqb c 5760
  || (N.leb 8192 c && N.leb c 8202)
  || N.eqb c LS || N.eqb c PS || N.eqb c 8239 || N.eqb c 8287
  || N.eqb c 12288 || N.eqb c 65279.

(** What [^] looks at under the [m] flag: LF, CR, U+2028 and U+2029. *)
Definition isLineTerminator (c : N) : bool :=
  N.eqb c LF || N.eqb c CR || N.eqb c LS || N.eqb c PS.

(** [' '.repeat(n)]. *)
Definition spaces (n : nat) : ustring := repeat SP n.

(** [ss.join(sep)]. *)
Fixpoint join (sep : ustring) (ss : list ustring) : ustring :=
  match ss with
  | [] => []
  | [x] => x
  | x :: r => x ++ sep ++ join sep r
  end.

(** [s.split(/\r?\n/g)]. *)
Fixpoint splitLines (s : ustring) : list ustring :=
  match s with
  | [] => [[]]
  | c :: r =>
      if N.eqb c LF then [] :: splitLines r
      else
        match r with
        | d :: r' =>
            if N.eqb c CR && N.eqb d LF then [] :: splitLines r'
            else
              match splitLines r with
              | l :: ls => (c :: l) :: ls
              | [] => [[c]]
              end
        | [] => [[c]]
        end
  end.

(** [/^\s*$/.test(l)]. *)
Fixpoint isBlank (l : ustring) : bool :=
  match l with
  | [] => true
  | c :: r => isWhiteSpace c && isBlank r
  end.

(** [l.match(/^ */)[0].length]. *)
Fixpoint indentOfLine (l : ustring) : nat :=
  match l with
  | c :: r => if N.eqb c SP then S (indentOfLine r) else 0
  | [] => 0
  end.

Fixpoint startsWithSpaces (k : nat) (s : ustring) : bool :=
  match k with
  | 0 => true
  | S k' =>
      match s with
      | c :: r => N.eqb c SP && startsWithSpaces k' r
      | [] => false
      end
  end.

(** GetSubstitution for a pattern without capture groups. *)
Fixpoint getSubstitution (matched str : ustring) (position : nat) (template : ustring)
    : ustring :=
  match template with
  | [] => []
  | c :: t =>
      if N.eqb c DOLLAR then
        match t with
        | d :: t' =>
            if N.eqb d DOLLAR then DOLLAR :: getSubstitution matched str position t'
            else if N.eqb d AMPERSAND then matched ++ getSubstitution matched str position t'
            else if N.eqb d BACKTICK then
              firstn position str ++ getSubstitution matched str position t'
            else if N.eqb d QUOTE then
              skipn (position + length matched) str ++ getSubstitution matched str position t'
            else DOLLAR :: getSubstitution matched str position t
        | [] => [DOLLAR]
        end
      else c :: getSubstitution matched str position t
  end.

(** The scan of [str.replace(new RegExp('^' + ' '.repeat(k), 'gm'), template)],
    with the arguments of [JsString.replaceLoop]. *)
Fixpoint replaceLoop (k : nat) (template str : ustring) (pos : nat)
    (lineStart : bool) (skip : nat) (rest : ustring) : ustring :=
  match rest with
  | [] =>
      if lineStart && Nat.eqb k 0 then getSubstitution [] str pos template else []
  | c :: rest' =>
      match skip with
      | S skip' => replaceLoop k template str (S pos) false skip' rest'
      | 0 =>
          if lineStart && startsWithSpaces k rest then
            getSubstitution (spaces k) str pos template ++
            match k with
            | 0 => c :: replaceLoop k template str (S pos) (isLineTerminator c) 0 rest'
            | S k' => replaceLoop k template str (S pos) false k' rest'
            end
          else c :: replaceLoop k template str (S pos) (isLineTerminator c) 0 rest'
      end
  end.

Definition replaceIndent (k : nat) (template line : ustring) : ustring :=
  replaceLoop k template line 0 true 0 line.

Fixpoint interpolateLoop (s : ustring) (strings interpolations : list ustring)
    : outcome ustring :=
  match strings, interpolations with
  | [], [] => Ok s
  | str :: strings', i :: interpolations' =>
      interpolateLoop (s ++ i ++ str) strings' interpolations'
  | _, _ =>
      Throw (JsError "A tagged template expects exactly one more string than interpolation value")
  end.

Definition interpolate (strings interpolations : list ustring) : outcome ustring :=
  match strings with
  | [] => Throw (JsError "Expected at least one interpolated string")
  | s :: strings' => interpolateLoop s strings' interpolations
  end.

Record RenderResult := {
  isMultiline : bool;
  content : ustring
}.

(** The render method of [text], from the interpolated values already
    coerced to strings; of the context it reads the indent only. *)
Definition text_render (strings coerced : list ustring) (indent : ustring)
    : outcome RenderResult :=
  bindO (interpolate strings coerced) (fun text =>
  let lines := splitLines text in
  if Nat.eqb (length lines) 1 then
    Ok {| isMultiline := false; content := text |}
  else
    let firstLine := hd [] lines in
    let restLines := tl lines in
    let nonBlankLines := List.filter (fun l => negb (isBlank l)) restLines in
    let minIndentSize := mathMin (map indentOfLine nonBlankLines) in
    let minIndent := match minIndentSize with Some n => n | None => 0 end in
    let reIndentedLines :=
      firstLine :: map (fun l => replaceIndent minIndent indent l) restLines in
    Ok {| isMultiline := true; content := join [LF] reIndentedLines |}).

(** Re-indentation of one remaining line, given the minimum indent [m]:
    a line with at least [m] leading spaces loses [m] of them and gets
    the indent in front; any other line stays as it is. *)
Definition reindent (m : nat) (indent line : ustring) : ustring :=
  if Nat.leb m (indentOfLine line) then indent ++ skipn m line else line.

(** A remaining line that holds no line terminator: LF is gone with the
    split, so no carriage return, U+2028 or U+2029. *)
Definition plainLine (l : ustring) : Prop :=
  includes CR l = false /\ includes LS l = false /\ includes PS l = false.

(** A string of code units below 256 as a string of the host. *)
Fixpoint widen (s : string) : ustring :=
  match s with
  | EmptyString => []
  | String c r => N_of_ascii c :: widen r
  end.

End Utf16.

(** A result of the embedding above as a result over UTF-16. *)
Definition widenResult (r : RenderResult) : Utf16.RenderResult :=
  {| Utf16.isMultiline := isMultiline r; Utf16.content := Utf16.widen (content r) |}.

(** A wrap flag that is false: none of its three disjuncts holds. *)
Ltac flag_false H Hkids Hwidth Hbreak :=
  symmetry in H;
  apply orb_false_iff in H as [H Hbreak];
  apply orb_false_iff in H as [Hkids Hwidth].

(** * Properties *)

(** ** Strings *)

Section StringFacts.

Lemma length_append (s t : string) :
  String.length (s +:+ t) = String.length s + String.length t.
Proof. induction s as [|c s IH]; simpl; [reflexivity | now rewrite IH]. Qed.

Lemma append_empty_r (s : string) : s +:+ "" = s.
Proof. induction s as [|c s IH]; simpl; [reflexivity | now rewrite IH]. Qed.

Lemma append_assoc (s t u : string) : (s +:+ t) +:+ u = s +:+ (t +:+ u).
Proof. induction s as [|c s IH]; simpl; [reflexivity | now rewrite IH]. Qed.

Lemma includes_append (c : ascii) (s t : string) :
  includes c (s +:+ t) = includes c s || includes c t.
Proof.
  induction s as [|d s IH]; simpl; [reflexivity |].
  rewrite IH. now rewrite orb_assoc.
Qed.

Lemma sum_from (ns : list nat) (a : nat) :
  fold_left (fun a n => a + n) ns a = a + fold_left (fun a n => a + n) ns 0.
Proof.
  revert a. induction ns as [|n ns IH]; intros a; simpl; [lia |].
  rewrite (IH (a + n)), (IH n). lia.
Qed.

Lemma sum_cons (n : nat) (ns : list nat) : sum (n :: ns) = n + sum ns.
Proof. unfold sum. simpl. apply sum_from. Qed.

Lemma sum_nil : sum [] = 0.
Proof. reflexivity. Qed.

Lemma sum_Permutation (l1 l2 : list nat) : Permutation l1 l2 -> sum l1 = sum l2.
Proof.
  induction 1 as [| x l l' _ IH | x y l | l l' l'' _ IH1 _ IH2].
  - reflexivity.
  - rewrite !sum_cons. lia.
  - rewrite !sum_cons. lia.
  - congruence.
Qed.

Lemma includes_spec (c : ascii) (s : string) :
  includes c s = true <-> exists a b : string, s = a +:+ String c b.
Proof.
  induction s as [|d s IH]; simpl.
  - split; [discriminate |]. intros [[|x a] [b H]]; discriminate.
  - rewrite orb_true_iff, IH, Ascii.eqb_eq. split.
    + intros [-> | [a [b ->]]].
      * now exists "", s.
      * now exists (String d a), b.
    + intros [[|x a] [b H]]; simpl in H; inversion H; subst.
      * now left.
      * right. now exists a, b.
Qed.

Lemma hasLineBreak_includes (s : string) : hasLineBreak s <-> includes LF s = true.
Proof. symmetry. apply includes_spec. Qed.

Lemma no_hasLineBreak_includes (s : string) : ~ hasLineBreak s <-> includes LF s = false.
Proof.
  rewrite hasLineBreak_includes. destruct (includes LF s); split; intros; congruence.
Qed.

Lemma splitLines_nonempty (s : string) : splitLines s <> [].
Proof.
  induction s as [|c r IH]; simpl; [discriminate |].
  destruct (Ascii.eqb c LF); [discriminate |].
  destruct r as [|d r']; [discriminate |].
  destruct (Ascii.eqb c CR && Ascii.eqb d LF); [discriminate |].
  destruct (splitLines (String d r')); discriminate.
Qed.

Lemma splitLines_step (c : ascii) (r : string) :
  splitLines (String c r)
  = if Ascii.eqb c LF then "" :: splitLines r
    else match r with
         | String d r' =>
             if Ascii.eqb c CR && Ascii.eqb d LF then "" :: splitLines r'
             else match splitLines r with
                  | l :: ls => String c l :: ls
                  | [] => [String c ""]
                  end
         | "" => [String c ""]
         end.
Proof. destruct r; reflexivity. Qed.

Lemma splitLines_single (s : string) :
  length (splitLines s) = 1 -> includes LF s = false.
Proof.
  induction s as [|c r IH]; [reflexivity |].
  intros H. cbn [includes]. rewrite splitLines_step in H.
  destruct (Ascii.eqb c LF) eqn:Ec.
  - pose proof (splitLines_nonempty r). destruct (splitLines r); [congruence | discriminate].
  - cbn [orb]. destruct r as [|d r']; [reflexivity |].
    destruct (Ascii.eqb c CR && Ascii.eqb d LF).
    + pose proof (splitLines_nonempty r'). destruct (splitLines r'); [congruence | discriminate].
    + apply IH. pose proof (splitLines_nonempty (String d r')) as Hne.
      destruct (splitLines (String d r')); [congruence | exact H].
Qed.

Lemma includes_join (c : ascii) (sep : string) (ss : list string) :
  includes c sep = false ->
  existsb (includes c) ss = false ->
  includes c (join sep ss) = false.
Proof.
  intros Hsep. unfold join. induction ss as [|s ss IH]; [reflexivity |].
  cbn [existsb]. rewrite orb_false_iff. intros [Hs Hss].
  destruct ss as [|t ss]; [exact Hs |].
  change (includes c (s +:+ sep +:+ String.concat sep (t :: ss)) = false).
  rewrite !includes_append, Hs, Hsep, (IH Hss). reflexivity.
Qed.

Lemma length_join (sep : string) (ss : list string) :
  String.length (join sep ss)
  = sum (map String.length ss) + String.length sep * Nat.max (length ss - 1) 0.
Proof.
  unfold join. induction ss as [|s ss IH]; [simpl; lia |].
  destruct ss as [|t ss].
  - cbn [map length String.concat]. rewrite sum_cons. change (sum []) with 0. lia.
  - change (String.concat sep (s :: t :: ss)) with (s +:+ sep +:+ String.concat sep (t :: ss)).
    rewrite !length_append, IH. cbn [map length]. rewrite !sum_cons. simpl. lia.
Qed.

End StringFacts.

(** ** interpolate *)

Section InterpolateFacts.

Lemma interpolateLoop_ok (s : string) (strings interpolations : list string) (t : string) :
  interpolateLoop s strings interpolations = Ok t ->
  length strings = length interpolations
  /\ String.length t
     = String.length s + sum (map String.length strings) + sum (map String.length interpolations)
  /\ (forall c, includes c t
                = includes c s || existsb (includes c) strings
                  || existsb (includes c) interpolations).
Proof.
  revert s interpolations.
  induction strings as [|str strings IH]; intros s [|i interpolations] H; simpl in H;
    try discriminate.
  - inversion H; subst. repeat split; [simpl; rewrite sum_nil; lia |].
    intros c. simpl. now rewrite !orb_false_r.
  - apply IH in H as (Hlen & Hsize & Hinc). repeat split.
    + simpl. now rewrite Hlen.
    + rewrite Hsize, !length_append. cbn [map]. rewrite !sum_cons. lia.
    + intros c. rewrite Hinc, !includes_append. cbn [existsb].
      destruct (includes c s), (includes c i), (includes c str),
        (existsb (includes c) strings), (existsb (includes c) interpolations); reflexivity.
Qed.

Lemma interpolate_ok (strings interpolations : list string) (t : string) :
  interpolate strings interpolations = Ok t ->
  length strings = length interpolations + 1
  /\ String.length t = sum (map String.length strings) + sum (map String.length interpolations)
  /\ (forall c, includes c t
                = existsb (includes c) strings || existsb (includes c) interpolations).
Proof.
  destruct strings as [|s strings]; [discriminate |]. simpl.
  intros H. apply interpolateLoop_ok in H as (Hlen & Hsize & Hinc). repeat split.
  - simpl. lia.
  - cbn [map]. rewrite sum_cons. lia.
  - intros c. rewrite Hinc. reflexivity.
Qed.

(** [interpolate] throws exactly on a count mismatch. *)
Lemma interpolateLoop_total (s : string) (strings interpolations : list string) :
  length strings = length interpolations ->
  exists t, interpolateLoop s strings interpolations = Ok t.
Proof.
  revert s interpolations.
  induction strings as [|str strings IH]; intros s [|i interpolations] H; simpl in H;
    try discriminate.
  - now exists s.
  - simpl. apply IH. lia.
Qed.

Lemma interpolateLoop_mismatch (s : string) (strings interpolations : list string) :
  length strings <> length interpolations ->
  exists e, interpolateLoop s strings interpolations = Throw e.
Proof.
  revert s interpolations.
  induction strings as [|str strings IH]; intros s [|i interpolations] H; simpl in *;
    try congruence; eauto.
Qed.

Lemma interpolate_mismatch (strings interpolations : list string) :
  length strings <> length interpolations + 1 ->
  exists e, interpolate strings interpolations = Throw e.
Proof.
  destruct strings as [|s strings]; simpl; intros H; [eauto |].
  apply interpolateLoop_mismatch. lia.
Qed.

End InterpolateFacts.

(** ** The monad and [mapM] *)

Section MonadFacts.

Context {A B : Type}.

Lemma bindM_ok (m : M A) (f : A -> M B) (s : gset addr) (b : B) (s' : gset addr) :
  (let* x := m in f x) s = (Ok b, s') ->
  exists a s1, m s = (Ok a, s1) /\ f a s1 = (Ok b, s').
Proof.
  unfold bindM. destruct (m s) as [[a | e |] s1]; intros H; try discriminate.
  now exists a, s1.
Qed.

Lemma mapM_cons_ok (f : A -> M B) (x : A) (l : list A) (s : gset addr)
    (rs : list B) (s' : gset addr) :
  mapM f (x :: l) s = (Ok rs, s') ->
  exists y ys s1, f x s = (Ok y, s1) /\ mapM f l s1 = (Ok ys, s') /\ rs = y :: ys.
Proof.
  cbn [mapM]. unfold bindM, ret.
  destruct (f x s) as [[y | e |] s1]; try discriminate.
  destruct (mapM f l s1) as [[ys | e |] s2] eqn:E; try discriminate.
  intros H; inversion H; subst. exists y, ys, s1. auto.
Qed.

(** Whatever holds of every result of [f] holds of every element that
    [mapM f] returns. *)
Lemma mapM_Forall (P : B -> Prop) (f : A -> M B) (l : list A) (s : gset addr)
    (rs : list B) (s' : gset addr) :
  (forall x s r s', f x s = (Ok r, s') -> P r) ->
  mapM f l s = (Ok rs, s') -> Forall P rs.
Proof.
  intros Hf. revert s rs. induction l as [|x l IH]; intros s rs H.
  - inversion H; subst. constructor.
  - apply mapM_cons_ok in H as (y & ys & s1 & Hy & Hys & ->).
    constructor; [eapply Hf; eassumption | eapply IH; eassumption].
Qed.

Lemma mapM_length (f : A -> M B) (l : list A) (s : gset addr)
    (rs : list B) (s' : gset addr) :
  mapM f l s = (Ok rs, s') -> length rs = length l.
Proof.
  revert s rs. induction l as [|x l IH]; intros s rs H.
  - now inversion H.
  - apply mapM_cons_ok in H as (y & ys & s1 & Hy & Hys & ->).
    simpl. f_equal. eapply IH; eassumption.
Qed.

(** If [f] leaves the visited set as it found it, so does [mapM f]. *)
Lemma mapM_restores (f : A -> M B) (l : list A) (s : gset addr) :
  (forall x, In x l -> snd (f x s) = s) -> snd (mapM f l s) = s.
Proof.
  induction l as [|x l IH]; intros Hf; [reflexivity |].
  cbn [mapM]. unfold bindM, ret.
  pose proof (Hf x (or_introl eq_refl)) as Hx.
  destruct (f x s) as [[y | e |] s1]; simpl in Hx; subst s1; try reflexivity.
  assert (snd (mapM f l s) = s) as Hl by (apply IH; intros; apply Hf; now right).
  destruct (mapM f l s) as [[ys | e |] s2]; simpl in Hl; now subst s2.
Qed.

(** With such an [f], [mapM f] is [map] of the results. *)
Lemma mapM_map (g : A -> B) (f : A -> M B) (l : list A) (s : gset addr) :
  (forall x, In x l -> f x s = (Ok (g x), s)) -> mapM f l s = (Ok (map g l), s).
Proof.
  induction l as [|x l IH]; intros Hf; [reflexivity |].
  cbn [mapM map]. unfold bindM, ret.
  rewrite (Hf x (or_introl eq_refl)), IH; [reflexivity |].
  intros; apply Hf; now right.
Qed.

End MonadFacts.

(** ** What each render method returns *)

Section RenderMethods.

Variable render : Render.

Lemma block_render_ok strings interpolations params s r s' :
  block_render render strings interpolations params s = (Ok r, s') ->
  exists rendered,
    mapM (fun x => render x (childParams params)) interpolations s = (Ok rendered, s')
    /\ isMultiline r
       = existsb isMultiline rendered
         || exceeds (String.length (indent params)
                     + (sum (map String.length strings)
                        + sum (map (fun c => String.length (content c)) rendered)))
                    (wrapWidth params)
         || existsb (includes LF) strings
    /\ (if isMultiline r
        then interpolate (imap (brokenFragment (indent params)) strings)
               (map (fun x => newline +:+ indent (childParams params) +:+ trim (content x))
                    rendered)
        else interpolate strings (map content rendered)) = Ok (content r).
Proof.
  unfold block_render. intros H.
  apply bindM_ok in H as (rendered & s1 & Hr & H).
  apply bindM_ok in H as (c & s2 & Hc & H).
  unfold lift in Hc. unfold ret in H. inversion H; subst; clear H.
  exists rendered. cbn [isMultiline content].
  injection Hc as Hi Hs. subst s'.
  split; [exact Hr |]. split; [reflexivity | exact Hi].
Qed.

Lemma inline_render_ok strings interpolations params s r s' :
  inline_render render strings interpolations params s = (Ok r, s') ->
  exists rendered,
    mapM (fun x => render x params) interpolations s = (Ok rendered, s')
    /\ isMultiline r
       = existsb isMultiline rendered
         || exceeds (String.length (indent params)
                     + (sum (map String.length strings)
                        + sum (map (fun c => String.length (content c)) rendered)))
                    (wrapWidth params)
         || existsb (includes LF) strings
    /\ interpolate strings (map content rendered) = Ok (content r).
Proof.
  unfold inline_render. intros H.
  apply bindM_ok in H as (rendered & s1 & Hr & H).
  apply bindM_ok in H as (c & s2 & Hc & H).
  unfold lift in Hc. unfold ret in H. inversion H; subst; clear H.
  exists rendered. cbn [isMultiline content].
  injection Hc as Hi Hs. subst s'.
  split; [exact Hr |]. split; [reflexivity | exact Hi].
Qed.

Lemma list_render_ok joiner items sort params s r s' :
  list_render render joiner items sort params s = (Ok r, s') ->
  exists rendered,
    mapM (fun x => render x params) items s = (Ok rendered, s')
    /\ let renderedItems := if sort then sortRendered rendered else rendered in
       isMultiline r
       = existsb isMultiline renderedItems
         || exceeds (String.length (indent params)
                     + (sum (map (fun x => String.length (content x)) renderedItems)
                        + String.length joiner * Nat.max (length renderedItems - 1) 0))
                    (wrapWidth params)
         || includes LF joiner
       /\ content r
          = join (if isMultiline r then trimEnd joiner +:+ newline +:+ indent params
                  else joiner)
                 (map content renderedItems).
Proof.
  unfold list_render. intros H.
  apply bindM_ok in H as (rendered & s1 & Hr & H).
  unfold ret in H. inversion H; subst; clear H.
  exists rendered. cbn [isMultiline content]. split; [exact Hr |].
  split; [reflexivity |].
  now destruct (existsb _ _ || _ || _).
Qed.

End RenderMethods.

(** ** Wrap flags *)

Lemma exceeds_widerThan (n : nat) (w : width) : exceeds n w = true <-> widerThan n w.
Proof.
  destruct w as [z | |]; simpl; [apply Z.ltb_lt | |]; split; intros H;
    solve [discriminate | contradiction].
Qed.

Lemma not_exceeds_fits (n : nat) (w : width) : w <> NaN -> exceeds n w = false -> fits n w.
Proof.
  destruct w as [z | |]; simpl; intros Hw H; [| exact I | congruence].
  apply Z.ltb_ge in H. exact H.
Qed.

Lemma existsb_isMultiline (rs : list RenderResult) :
  existsb isMultiline rs = true <-> exists c, In c rs /\ isMultiline c = true.
Proof. apply existsb_exists. Qed.

Lemma existsb_hasLineBreak (ss : list string) :
  existsb (includes LF) ss = true <-> exists s, In s ss /\ hasLineBreak s.
Proof.
  rewrite existsb_exists. split; intros [s [Hin H]]; exists s; split; auto;
    now apply hasLineBreak_includes.
Qed.

(** ** The visited set is restored *)

Section Restoring.

Variable render : Render.
Hypothesis render_restores : restores render.

Lemma lift_bind_restores {A B} (m : M A) (k : A -> M B) (s : gset addr) :
  snd (m s) = s -> (forall a, snd (k a s) = s) -> snd ((let* x := m in k x) s) = s.
Proof.
  unfold bindM. intros Hm Hk.
  destruct (m s) as [[a | e |] s1]; simpl in Hm; subst s1; auto.
Qed.

Lemma node_render_restores toStr n params s :
  snd (node_render render toStr n params s) = s.
Proof.
  destruct n as [ss vs | ss vs | ss vs | j vs srt]; cbn [node_render].
  - reflexivity.
  - unfold block_render. apply lift_bind_restores.
    + apply mapM_restores. intros x _. apply render_restores.
    + intros a. apply lift_bind_restores; [reflexivity | reflexivity].
  - unfold inline_render. apply lift_bind_restores.
    + apply mapM_restores. intros x _. apply render_restores.
    + intros a. apply lift_bind_restores; [reflexivity | reflexivity].
  - unfold list_render. apply lift_bind_restores.
    + apply mapM_restores. intros x _. apply render_restores.
    + reflexivity.
Qed.

End Restoring.

(** [add] then [delete] of an identity that was not in the set. *)
Lemma add_delete_fresh (a : addr) (s : gset addr) : a ∉ s -> ({[a]} ∪ s) ∖ {[a]} = s.
Proof.
  intros Ha. apply set_eq. intros x.
  rewrite elem_of_difference, elem_of_union, elem_of_singleton.
  split; [tauto |]. intros Hx. split; [now right |]. intros ->. contradiction.
Qed.

Lemma render_restores (h : Heap) (fuel : nat) : restores (render h fuel).
Proof.
  induction fuel as [|fuel IH]; intros v params s; [reflexivity |].
  cbn [render]. destruct v as [p | a | n].
  - now apply node_render_restores.
  - destruct (decide (a ∈ s)) as [Hin | Hout].
    + now apply node_render_restores.
    + destruct (objects h !! a) as [o |]; [| reflexivity].
      pose proof (node_render_restores (render h fuel) IH
                    (toStringWith h (render h fuel)) (stringifiableOf h o) params
                    ({[a]} ∪ s)) as Hs.
      destruct (node_render _ _ _ _ _) as [r s1]. simpl in *. subst s1.
      now apply add_delete_fresh.
  - now apply node_render_restores.
Qed.

(** ** Single-line results hold no line break *)

Section Dichotomy.

Variable render : Render.
Hypothesis render_respects : respectsDichotomy render.

Lemma rendered_single_line (rs : list RenderResult) :
  Forall dichotomy rs -> existsb isMultiline rs = false ->
  existsb (includes LF) (map content rs) = false.
Proof.
  induction 1 as [|r rs Hr _ IH]; [reflexivity |].
  cbn [existsb map]. rewrite orb_false_iff. intros [Hm Hrest].
  rewrite (IH Hrest), orb_false_r. apply no_hasLineBreak_includes. exact (Hr Hm).
Qed.

Lemma text_render_dichotomy toStr strings interpolations params r :
  text_render toStr strings interpolations params = Ok r -> dichotomy r.
Proof.
  unfold text_render, bindO.
  destruct (mapO toStr interpolations) as [coerced | |]; try discriminate.
  destruct (interpolate strings coerced) as [t | |]; try discriminate.
  destruct (Nat.eqb (length (splitLines t)) 1) eqn:E; intros H; inversion H; subst; clear H.
  - intros _. apply no_hasLineBreak_includes. apply splitLines_single.
    now apply Nat.eqb_eq.
  - intros Hm. discriminate Hm.
Qed.

Lemma block_render_dichotomy strings interpolations params s r s' :
  block_render render strings interpolations params s = (Ok r, s') -> dichotomy r.
Proof.
  intros H Hm. apply block_render_ok in H as (rendered & Hr & Hflag & Hc).
  rewrite Hm in Hflag, Hc. flag_false Hflag Hkids Hwidth Hfrag.
  apply interpolate_ok in Hc as (_ & _ & Hinc).
  apply no_hasLineBreak_includes. rewrite Hinc, Hfrag. cbn [orb].
  apply rendered_single_line; [| exact Hkids].
  eapply mapM_Forall; [| exact Hr]. intros x s0 r0 s0'. apply render_respects.
Qed.

Lemma inline_render_dichotomy strings interpolations params s r s' :
  inline_render render strings interpolations params s = (Ok r, s') -> dichotomy r.
Proof.
  intros H Hm. apply inline_render_ok in H as (rendered & Hr & Hflag & Hc).
  rewrite Hm in Hflag. flag_false Hflag Hkids Hwidth Hfrag.
  apply interpolate_ok in Hc as (_ & _ & Hinc).
  apply no_hasLineBreak_includes. rewrite Hinc, Hfrag. cbn [orb].
  apply rendered_single_line; [| exact Hkids].
  eapply mapM_Forall; [| exact Hr]. intros x s0 r0 s0'. apply render_respects.
Qed.

End Dichotomy.

(** ** The sort of a list *)

Section Sorting.

Lemma ascii_compare_refl (c : ascii) : Ascii.compare c c = Eq.
Proof. apply N.compare_refl. Qed.

Lemma string_compare_refl (s : string) : String.compare s s = Eq.
Proof.
  induction s as [|c s IH]; [reflexivity |]. simpl. now rewrite ascii_compare_refl.
Qed.

Lemma strLe_refl (a : string) : strLe a a.
Proof. unfold strLe, gtb. now rewrite string_compare_refl. Qed.

Lemma strLe_trans (a b c : string) : strLe a b -> strLe b c -> strLe a c.
Proof.
  unfold strLe, gtb. revert b c.
  induction a as [|x a IH]; intros [|y b] [|z c]; simpl; try congruence.
  unfold Ascii.compare.
  destruct (N.compare_spec (N_of_ascii x) (N_of_ascii y)) as [Hxy | Hxy | Hxy];
    destruct (N.compare_spec (N_of_ascii y) (N_of_ascii z)) as [Hyz | Hyz | Hyz];
    try congruence.
  - rewrite Hxy, Hyz, N.compare_refl. apply IH.
  - intros _ _. rewrite Hxy. apply N.compare_lt_iff in Hyz. now rewrite Hyz.
  - intros _ _. rewrite <- Hyz. apply N.compare_lt_iff in Hxy. now rewrite Hxy.
  - intros _ _. assert (N_of_ascii x < N_of_ascii z)%N as H by lia.
    apply N.compare_lt_iff in H. now rewrite H.
Qed.

Lemma strLe_total (a b : string) : gtb a b = true -> strLe b a.
Proof.
  unfold strLe, gtb. rewrite (String.compare_antisym b a).
  destruct (String.compare a b); simpl; congruence.
Qed.

Lemma strLe_antisym (a b : string) : strLe a b -> strLe b a -> a = b.
Proof.
  unfold strLe, gtb. rewrite (String.compare_antisym b a).
  destruct (String.compare a b) eqn:E; simpl; try congruence.
  intros _ _. now apply String.compare_eq_iff.
Qed.

#[local] Instance strLe_AntiSymm : AntiSymm eq strLe.
Proof. intros a b. apply strLe_antisym. Qed.

Lemma gtb_irrefl_eqb (a b : string) : gtb a b = true -> String.eqb a b = false.
Proof.
  intros H. apply String.eqb_neq. intros ->.
  pose proof (strLe_refl b) as Hr. unfold strLe in Hr. congruence.
Qed.

(** The comparator is positive exactly when the first content is the
    greater. *)
Lemma compareContent_pos (x y : RenderResult) :
  (0 <? compareContent x y)%Z = gtb (content x) (content y).
Proof.
  unfold compareContent. destruct (gtb (content x) (content y)); [reflexivity |].
  now destruct (String.eqb (content x) (content y)).
Qed.

Lemma insertRendered_perm (x : RenderResult) (l : list RenderResult) :
  Permutation (insertRendered x l) (x :: l).
Proof.
  induction l as [|y l IH]; [reflexivity |]. cbn [insertRendered].
  destruct (0 <? compareContent x y)%Z; [| reflexivity].
  rewrite IH. apply perm_swap.
Qed.

Lemma sortRendered_perm (l : list RenderResult) : Permutation (sortRendered l) l.
Proof.
  induction l as [|x l IH]; [reflexivity |]. cbn [sortRendered].
  rewrite insertRendered_perm. now constructor.
Qed.

Lemma insertRendered_sorted (x : RenderResult) (l : list RenderResult) :
  StronglySorted contentLe l -> StronglySorted contentLe (insertRendered x l).
Proof.
  induction 1 as [|y l Hl IH Hy]; cbn [insertRendered].
  - repeat constructor.
  - rewrite compareContent_pos. destruct (gtb (content x) (content y)) eqn:E.
    + constructor; [exact IH |].
      eapply Permutation_Forall; [symmetry; apply insertRendered_perm |].
      constructor; [now apply strLe_total | exact Hy].
    + constructor; [now constructor |].
      constructor; [exact E |].
      eapply Forall_impl; [exact Hy |]. intros z Hz.
      eapply strLe_trans; [exact E | exact Hz].
Qed.

Lemma sortRendered_sorted (l : list RenderResult) : StronglySorted contentLe (sortRendered l).
Proof.
  induction l as [|x l IH]; [constructor |]. now apply insertRendered_sorted.
Qed.

Lemma insertRendered_stable (c : string) (x : RenderResult) (l : list RenderResult) :
  withContent c (insertRendered x l) = withContent c (x :: l).
Proof.
  unfold withContent. induction l as [|y l IH]; [reflexivity |].
  cbn [insertRendered]. rewrite compareContent_pos.
  destruct (gtb (content x) (content y)) eqn:E; [| reflexivity].
  cbn [List.filter] in *. rewrite IH.
  destruct (String.eqb (content x) c) eqn:Ex; [| reflexivity].
  apply String.eqb_eq in Ex. subst c.
  apply gtb_irrefl_eqb in E. rewrite String.eqb_sym in E. now rewrite E.
Qed.

Lemma sortRendered_stable (c : string) (l : list RenderResult) :
  withContent c (sortRendered l) = withContent c l.
Proof.
  induction l as [|x l IH]; [reflexivity |]. cbn [sortRendered].
  rewrite insertRendered_stable. unfold withContent in *. cbn [List.filter].
  now rewrite IH.
Qed.

Lemma sorted_contents (l : list RenderResult) :
  StronglySorted contentLe l -> StronglySorted strLe (map content l).
Proof.
  induction 1 as [|x l _ IH Hx]; cbn [map]; constructor; [exact IH |].
  apply List.Forall_forall. intros z Hz. apply List.in_map_iff in Hz as [y [<- Hy]].
  rewrite List.Forall_forall in Hx. now apply Hx.
Qed.

(** The sorted contents depend on the items up to their order only. *)
Lemma sortRendered_contents (l1 l2 : list RenderResult) :
  Permutation l1 l2 -> map content (sortRendered l1) = map content (sortRendered l2).
Proof.
  intros Hperm. apply (StronglySorted_unique strLe).
  - apply sorted_contents, sortRendered_sorted.
  - apply sorted_contents, sortRendered_sorted.
  - apply Permutation_map. now rewrite !sortRendered_perm.
Qed.

Lemma existsb_Permutation {A} (p : A -> bool) (l1 l2 : list A) :
  Permutation l1 l2 -> existsb p l1 = existsb p l2.
Proof.
  induction 1 as [| x l l' _ IH | x y l | l l' l'' _ IH1 _ IH2]; cbn [existsb].
  - reflexivity.
  - now rewrite IH.
  - now destruct (p x), (p y).
  - congruence.
Qed.

End Sorting.

Section DichotomyOfNodes.

Variable render : Render.
Hypothesis render_respects : respectsDichotomy render.

Lemma list_render_dichotomy joiner items sort params s r s' :
  list_render render joiner items sort params s = (Ok r, s') -> dichotomy r.
Proof.
  intros H Hm. apply list_render_ok in H as (rendered & Hr & Hflag & Hc).
  rewrite Hm in Hflag, Hc. flag_false Hflag Hitems Hwidth Hjoiner.
  apply no_hasLineBreak_includes. rewrite Hc.
  apply includes_join; [exact Hjoiner |].
  apply rendered_single_line; [| exact Hitems].
  assert (Forall dichotomy rendered) as Hall.
  { eapply mapM_Forall; [| exact Hr]. intros x s0 r0 s0'. apply render_respects. }
  destruct sort; [| exact Hall].
  eapply Permutation_Forall; [symmetry; apply sortRendered_perm | exact Hall].
Qed.

(** Every built-in node kind keeps the invariant, whatever the context,
    as long as the context's [render] does. *)
Lemma node_render_dichotomy toStr n params s r s' :
  node_render render toStr n params s = (Ok r, s') -> dichotomy r.
Proof.
  destruct n as [ss vs | ss vs | ss vs | j vs srt]; cbn [node_render].
  - unfold lift. intros H. injection H as H _. eapply text_render_dichotomy; eassumption.
  - now apply block_render_dichotomy.
  - now apply inline_render_dichotomy.
  - now apply list_render_dichotomy.
Qed.

End DichotomyOfNodes.

Lemma render_respectsDichotomy (h : Heap) (fuel : nat) : respectsDichotomy (render h fuel).
Proof.
  induction fuel as [|fuel IH]; intros v params s r s' H; [discriminate |].
  cbn [render] in H. destruct v as [p | a | n].
  - eapply node_render_dichotomy; eassumption.
  - destruct (decide (a ∈ s)).
    + eapply node_render_dichotomy; eassumption.
    + destruct (objects h !! a) as [o |]; [| discriminate].
      destruct (node_render _ _ _ _ _) as [r1 s1] eqn:E.
      injection H as -> _. eapply node_render_dichotomy; eassumption.
  - eapply node_render_dichotomy; eassumption.
Qed.

(** C4.  Whatever value the driver renders (a Text, Block, Inline or
    List node, or a value the default formatter turns into such nodes),
    in whatever context and from whatever visited set: a result that is
    not multiline has no line break in its content. *)
Theorem single_line_has_no_line_break (h : Heap) (fuel : nat) (v : value)
    (params : RenderParams) (s : gset addr) (r : RenderResult) (s' : gset addr) :
  render h fuel v params s = (Ok r, s') ->
  isMultiline r = false ->
  ~ hasLineBreak (content r).
Proof. intros H. exact (render_respectsDichotomy h fuel v params s r s' H). Qed.

(** The invariant at work on [inline`a ${text`foo`} c`]. *)
Lemma single_line_has_no_line_break_witness :
  ~ hasLineBreak "a foo c".
Proof.
  apply (single_line_has_no_line_break
           {| objects := ∅; hostToString := fun _ => "" |} 3
           (VNode (NInline ["a "; " c"] [VNode (NText ["foo"] [])]))
           {| wrapWidth := Finite 120; indent := ""; indentIncrement := "  " |}
           ∅ {| isMultiline := false; content := "a foo c" |} ∅).
  - vm_compute. reflexivity.
  - reflexivity.
Defined.

(** ** Width *)

Lemma length_contents (rs : list RenderResult) :
  map String.length (map content rs) = map (fun c => String.length (content c)) rs.
Proof. now rewrite map_map. Qed.

(** C3, as the code has it.  A Block, Inline or List node whose result is
    not multiline fits the wrap width: the length of the indent plus the
    length of the content is at most the width (the width being a number
    other than NaN).  A Text node is left out: it never looks at the
    width. *)
Theorem single_line_fits_width (render : Render) (toStr : value -> outcome string)
    (n : node value) (params : RenderParams)
    (s : gset addr) (r : RenderResult) (s' : gset addr) :
  (forall strings interpolations, n <> NText strings interpolations) ->
  wrapWidth params <> NaN ->
  node_render render toStr n params s = (Ok r, s') ->
  isMultiline r = false ->
  fits (String.length (indent params) + String.length (content r)) (wrapWidth params).
Proof.
  intros Hkind Hnan H Hm. apply not_exceeds_fits; [exact Hnan |].
  destruct n as [ss vs | ss vs | ss vs | j vs srt]; cbn [node_render] in H.
  - now destruct (Hkind ss vs).
  - apply block_render_ok in H as (rendered & _ & Hflag & Hc).
    rewrite Hm in Hflag, Hc. flag_false Hflag Hkids Hw Hfrag.
    apply interpolate_ok in Hc as (_ & Hlen & _).
    now rewrite Hlen, length_contents.
  - apply inline_render_ok in H as (rendered & _ & Hflag & Hc).
    rewrite Hm in Hflag. flag_false Hflag Hkids Hw Hfrag.
    apply interpolate_ok in Hc as (_ & Hlen & _).
    now rewrite Hlen, length_contents.
  - apply list_render_ok in H as (rendered & _ & Hflag & Hc).
    rewrite Hm in Hflag, Hc. flag_false Hflag Hkids Hw Hfrag.
    now rewrite Hc, length_join, length_contents, length_map.
Qed.

(** [list(', ', [1, 2, 3])] at width 7: single line, seven characters. *)
Lemma single_line_fits_width_witness :
  fits (String.length "" + String.length "1, 2, 3") (Finite 7).
Proof.
  apply (single_line_fits_width
           (render {| objects := ∅; hostToString := fun _ => "" |} 2)
           (toStringWith {| objects := ∅; hostToString := fun _ => "" |}
              (render {| objects := ∅; hostToString := fun _ => "" |} 2))
           (NList ", " [VPrim (PNumber 1); VPrim (PNumber 2); VPrim (PNumber 3)] false)
           {| wrapWidth := Finite 7; indent := ""; indentIncrement := "  " |}
           ∅ {| isMultiline := false; content := "1, 2, 3" |} ∅).
  - intros strings interpolations. discriminate.
  - discriminate.
  - vm_compute. reflexivity.
  - reflexivity.
Defined.

(** C3 as stated fails on a Text node: [text`foo`] rendered at wrap width
    0 with an empty indent is single-line, and its three characters do
    not fit. *)
Lemma text_exceeds_width :
  exists r : RenderResult,
    render {| objects := ∅; hostToString := fun _ => "" |} 1
      (VNode (NText ["foo"] []))
      {| wrapWidth := Finite 0; indent := ""; indentIncrement := "  " |} ∅
    = (Ok r, ∅)
    /\ isMultiline r = false
    /\ ~ fits (String.length "" + String.length (content r)) (Finite 0).
Proof.
  exists {| isMultiline := false; content := "foo" |}.
  split; [vm_compute; reflexivity |]. split; [reflexivity |].
  simpl. lia.
Qed.

(** ** Sorted lists *)

Lemma list_render_unfold (render : Render) joiner items sort params :
  list_render render joiner items sort params
  = (let* rendered := mapM (fun x => render x params) items in
     ret (listResult joiner sort params rendered)).
Proof. reflexivity. Qed.

Lemma listResult_Permutation joiner params (rs rs' : list RenderResult) :
  Permutation rs rs' -> listResult joiner true params rs = listResult joiner true params rs'.
Proof.
  intros Hperm. unfold listResult.
  assert (Permutation (sortRendered rs) (sortRendered rs')) as Hsorted
    by now rewrite !sortRendered_perm.
  rewrite (sortRendered_contents rs rs' Hperm).
  rewrite (existsb_Permutation isMultiline _ _ Hsorted).
  rewrite (Permutation_length Hsorted).
  rewrite (sum_Permutation _ _
             (Permutation_map (fun x => String.length (content x)) Hsorted)).
  reflexivity.
Qed.

(** When the callback restores the visited set, the items of a list are
    rendered independently of each other. *)
Lemma mapM_independent (f : value -> M RenderResult) (l : list value) (s : gset addr)
    (rs : list RenderResult) (s' : gset addr) :
  (forall x s0, snd (f x s0) = s0) ->
  mapM f l s = (Ok rs, s') ->
  s' = s /\ rs = map (fun x => resultOf (f x s)) l
  /\ forall x, In x l -> f x s = (Ok (resultOf (f x s)), s).
Proof.
  intros Hf. revert rs. induction l as [|x l IH]; intros rs H.
  - inversion H; subst. repeat split. intros x [].
  - apply mapM_cons_ok in H as (y & ys & s1 & Hy & Hys & ->).
    pose proof (Hf x s) as Hs. rewrite Hy in Hs. simpl in Hs. subst s1.
    destruct (IH ys Hys) as (-> & -> & Hall). repeat split.
    + cbn [map]. unfold resultOf at 1. now rewrite Hy.
    + intros z [<- | Hz]; [| now apply Hall].
      unfold resultOf. now rewrite Hy.
Qed.

(** C6.  A list made with [sort] renders its items in order, sorts the
    results by their content, and joins the contents.  The sorted
    sequence is a rearrangement of the rendered items, ascending in the
    code-unit order of the contents, and items of equal content keep
    their original relative order.  Consequently a rearrangement of the
    items renders to the same result. *)
Theorem sorted_list_is_deterministic (h : Heap) (fuel : nat) (joiner : string)
    (items : list value) (params : RenderParams)
    (s : gset addr) (r : RenderResult) (s' : gset addr) :
  render h (S fuel) (VNode (NList joiner items true)) params s = (Ok r, s') ->
  (exists rendered : list RenderResult,
     mapM (fun x => render h fuel x params) items s = (Ok rendered, s')
     /\ let sorted := sortRendered rendered in
        Permutation sorted rendered
        /\ StronglySorted contentLe sorted
        /\ (forall c, withContent c sorted = withContent c rendered)
        /\ content r
           = join (if isMultiline r then trimEnd joiner +:+ newline +:+ indent params
                   else joiner)
                  (map content sorted))
  /\ (forall items', Permutation items items' ->
        render h (S fuel) (VNode (NList joiner items' true)) params s = (Ok r, s')).
Proof.
  cbn [render node_render]. intros H. split.
  - apply list_render_ok in H as (rendered & Hr & _ & Hc).
    exists rendered. split; [exact Hr |]. cbv zeta.
    split; [apply sortRendered_perm |]. split; [apply sortRendered_sorted |].
    split; [intros c; apply sortRendered_stable | exact Hc].
  - intros items' Hperm. rewrite list_render_unfold in *.
    apply bindM_ok in H as (rendered & s1 & Hr & Hret).
    unfold ret in Hret. injection Hret as <- <-.
    apply mapM_independent in Hr as (-> & -> & Hall);
      [| intros x s0; apply render_restores].
    unfold bindM.
    rewrite (mapM_map (fun x => resultOf (render h fuel x params s))).
    + unfold ret.
      now rewrite (listResult_Permutation joiner params _ _
                     (Permutation_map (fun x => resultOf (render h fuel x params s)) Hperm)).
    + intros x Hx. apply Hall. eapply Permutation_in; [symmetry; exact Hperm | exact Hx].
Qed.

(** Three items given as 'b', 'a', 'c' and as 'c', 'b', 'a'. *)
Lemma sorted_list_is_deterministic_witness :
  render {| objects := ∅; hostToString := fun _ => "" |} 3
    (VNode (NList ", " [VPrim (PString "c"); VPrim (PString "b"); VPrim (PString "a")] true))
    {| wrapWidth := Finite 120; indent := ""; indentIncrement := "  " |} ∅
  = (Ok {| isMultiline := false; content := "'a', 'b', 'c'" |}, ∅).
Proof.
  apply (proj2 (sorted_list_is_deterministic
                  {| objects := ∅; hostToString := fun _ => "" |} 2 ", "
                  [VPrim (PString "b"); VPrim (PString "a"); VPrim (PString "c")]
                  {| wrapWidth := Finite 120; indent := ""; indentIncrement := "  " |}
                  ∅ {| isMultiline := false; content := "'a', 'b', 'c'" |} ∅
                  ltac:(vm_compute; reflexivity))).
  apply perm_trans with [VPrim (PString "b"); VPrim (PString "c"); VPrim (PString "a")].
  - apply perm_skip, perm_swap.
  - apply perm_trans with [VPrim (PString "c"); VPrim (PString "b"); VPrim (PString "a")].
    + apply perm_swap.
    + apply Permutation_refl.
Defined.

(** ** String literals *)

Lemma escapeCharsWith_without_quote (s : string) :
  includes QUOTE s = false ->
  escapeCharsWith escapeSubstitutes s = escapeCharsWith escapeSubstitutesSpec s.
Proof.
  induction s as [|c s IH]; [reflexivity |]. cbn [includes escapeCharsWith].
  rewrite orb_false_iff. intros [Hc Hs]. rewrite (IH Hs). f_equal.
  destruct (matchesEscapePattern c); [| reflexivity].
  unfold escapeSubstitutes, escapeSubstitutesSpec. cbn [lookupSubstitute].
  rewrite (Ascii.eqb_sym QUOTE c), Hc. reflexivity.
Qed.

(** Away from the single quote the code and the specification agree. *)
Lemma stringifyStringLiteral_without_quote (s : string) :
  includes QUOTE s = false -> stringifyStringLiteral s = stringifyStringLiteralSpec s.
Proof.
  intros H. unfold stringifyStringLiteral, stringifyStringLiteralSpec.
  now rewrite (escapeCharsWith_without_quote s H).
Qed.

(** C8.  On the string [it's] the code writes backslash-t for the single
    quote, where the specification asks for an escaped quote: the table
    entry for the quote repeats the replacement of the tab. *)
Theorem stringifyStringLiteral_single_quote :
  stringifyStringLiteral "it's" = "'it\ts'"
  /\ stringifyStringLiteralSpec "it's" = "'it\'s'"
  /\ stringifyStringLiteral "it's" <> stringifyStringLiteralSpec "it's"
  /\ lookupSubstitute escapeSubstitutes QUOTE = lookupSubstitute escapeSubstitutes TAB.
Proof. repeat split. discriminate. Qed.

(** ** Construction *)

Lemma block_count_mismatch (strings : list string) (interpolations : list value) :
  length strings <> length interpolations + 1 ->
  block strings interpolations = Throw countMismatch.
Proof.
  intros H. unfold block.
  destruct (Nat.eqb_spec (length strings) (length interpolations + 1)); [contradiction | reflexivity].
Qed.

Lemma inline_count_mismatch (strings : list string) (interpolations : list value) :
  length strings <> length interpolations + 1 ->
  inline strings interpolations = Throw countMismatch.
Proof.
  intros H. unfold inline.
  destruct (Nat.eqb_spec (length strings) (length interpolations + 1)); [contradiction | reflexivity].
Qed.

Lemma mapO_length {A B} (f : A -> outcome B) (l : list A) (rs : list B) :
  mapO f l = Ok rs -> length rs = length l.
Proof.
  revert rs. induction l as [|x l IH]; intros rs H; cbn [mapO] in H.
  - now inversion H.
  - unfold bindO in H. destruct (f x); try discriminate.
    destruct (mapO f l); try discriminate. inversion H; subst. simpl. f_equal. now apply IH.
Qed.

(** A text node with mismatched counts never renders to a result: when
    its coercions succeed, [interpolate] throws. *)
Lemma text_count_mismatch_at_render toStr (strings : list string)
    (interpolations : list value) (params : RenderParams) (r : RenderResult) :
  length strings <> length interpolations + 1 ->
  text_render toStr strings interpolations params <> Ok r.
Proof.
  intros Hlen. unfold text_render, bindO.
  destruct (mapO toStr interpolations) as [coerced | |] eqn:E; try discriminate.
  apply mapO_length in E.
  destruct (interpolate_mismatch strings coerced) as [e He]; [congruence |].
  rewrite He. discriminate.
Qed.

(** C9.  With two fragments and no interpolated value, [block] and
    [inline] throw when the node is made; [text] returns a node, and the
    mismatch is reported only when that node is rendered. *)
Theorem text_count_mismatch_is_deferred :
  block ["a"; "b"] [] = Throw countMismatch
  /\ inline ["a"; "b"] [] = Throw countMismatch
  /\ text ["a"; "b"] [] = Ok (NText ["a"; "b"] [])
  /\ stringify {| objects := ∅; hostToString := fun _ => "" |} 1
       (VNode (NText ["a"; "b"] [])) noOpts
     = Throw (JsError "A tagged template expects exactly one more string than interpolation value").
Proof. repeat split. Qed.

(** ** One step of the driver *)

Section DriverSteps.

Variable h : Heap.

Lemma splitLines_one (s : string) : includes LF s = false -> length (splitLines s) = 1.
Proof.
  induction s as [|c r IH]; [reflexivity |]. intros Hs.
  cbn [includes] in Hs. apply orb_false_iff in Hs as [Hc Hr].
  rewrite splitLines_step, Hc. destruct r as [|d r']; [reflexivity |].
  pose proof (IH Hr) as Hlen.
  cbn [includes] in Hr. apply orb_false_iff in Hr as [Hd Hr'].
  rewrite Hd, andb_false_r.
  destruct (splitLines (String d r')) as [|l ls]; [discriminate | exact Hlen].
Qed.

(** A text without a line break is its own single-line result. *)
Lemma text_render_single toStr strings interpolations params coerced (t : string) :
  mapO toStr interpolations = Ok coerced ->
  interpolate strings coerced = Ok t ->
  includes LF t = false ->
  text_render toStr strings interpolations params
  = Ok {| isMultiline := false; content := t |}.
Proof.
  intros Hco Ht Hs. unfold text_render. rewrite Hco. cbn [bindO]. rewrite Ht. cbn [bindO].
  now rewrite (splitLines_one t Hs).
Qed.

Lemma text_render_no_interpolation toStr (s : string) (params : RenderParams) :
  includes LF s = false ->
  text_render toStr [s] [] params = Ok {| isMultiline := false; content := s |}.
Proof. intros Hs. now apply (text_render_single toStr [s] [] params [] s). Qed.

(** A value already on the path renders as the sentinel. *)
Lemma render_visited fuel a params (s : gset addr) :
  a ∈ s -> render h (S fuel) (VRef a) params s = (Ok circularResult, s).
Proof.
  intros Ha. cbn [render]. rewrite decide_True by exact Ha.
  cbn [node_render circular]. unfold lift.
  now rewrite text_render_no_interpolation.
Qed.

(** A value not on the path is put on it, rendered by its own method, and
    taken off again. *)
Lemma render_fresh fuel a o params (s : gset addr) :
  objects h !! a = Some o -> a ∉ s ->
  render h (S fuel) (VRef a) params s
  = (fst (node_render (render h fuel) (toStringWith h (render h fuel))
            (stringifiableOf h o) params ({[a]} ∪ s)), s).
Proof.
  intros Ho Ha. cbn [render]. rewrite decide_False by exact Ha. rewrite Ho.
  pose proof (node_render_restores (render h fuel) (render_restores h fuel)
                (toStringWith h (render h fuel)) (stringifiableOf h o) params
                ({[a]} ∪ s)) as Hs.
  destruct (node_render _ _ _ _ _) as [r s1]. simpl in *. subst s1.
  now rewrite add_delete_fresh.
Qed.

Lemma render_node fuel n params :
  render h (S fuel) (VNode n) params
  = node_render (render h fuel) (toStringWith h (render h fuel)) n params.
Proof. reflexivity. Qed.

End DriverSteps.

(** ** Objects rendered by [objectLike] *)

Section KeyText.

Lemma lookupSubstitute_no_line_break (c : ascii) :
  includes LF (lookupSubstitute escapeSubstitutes c) = false.
Proof.
  unfold escapeSubstitutes. cbn [lookupSubstitute].
  repeat match goal with
         | |- context [if ?b then _ else _] => destruct b; [reflexivity |]
         end.
  reflexivity.
Qed.

Lemma matchesEscapePattern_LF (c : ascii) :
  matchesEscapePattern c = false -> Ascii.eqb c LF = false.
Proof.
  unfold matchesEscapePattern. rewrite !orb_false_iff. tauto.
Qed.

Lemma escapeCharsWith_no_line_break (s : string) :
  includes LF (escapeCharsWith escapeSubstitutes s) = false.
Proof.
  induction s as [|c s IH]; [reflexivity |]. cbn [escapeCharsWith].
  rewrite includes_append, IH, orb_false_r.
  destruct (matchesEscapePattern c) eqn:E; [apply lookupSubstitute_no_line_break |].
  cbn [includes]. now rewrite (matchesEscapePattern_LF c E).
Qed.

Lemma stringifyStringLiteral_no_line_break (s : string) :
  includes LF (stringifyStringLiteral s) = false.
Proof.
  unfold stringifyStringLiteral.
  now rewrite !includes_append, escapeCharsWith_no_line_break.
Qed.

Lemma isNameChar_not_LF (c : ascii) : isNameChar c = true -> Ascii.eqb c LF = false.
Proof.
  intros H. destruct (Ascii.eqb_spec c LF) as [-> |]; [discriminate H | reflexivity].
Qed.

Lemma allNameChars_no_line_break (s : string) :
  allNameChars s = true -> includes LF s = false.
Proof.
  induction s as [|c s IH]; [reflexivity |]. cbn [allNameChars includes].
  rewrite andb_true_iff. intros [Hc Hs]. now rewrite (isNameChar_not_LF c Hc), IH.
Qed.

Lemma keyText_no_line_break (k : string) : includes LF (keyText k) = false.
Proof.
  unfold keyText. destruct (isNameString k) eqn:E; [| apply stringifyStringLiteral_no_line_break].
  destruct k as [|c k]; [reflexivity |]. cbn [isNameString] in E.
  apply andb_true_iff in E as [Hc Hk]. cbn [includes].
  rewrite (allNameChars_no_line_break k Hk), orb_false_r.
  apply isNameChar_not_LF. unfold isNameChar. now rewrite Hc.
Qed.

End KeyText.

Lemma mapM_Forall2 (f : value -> M RenderResult) (l : list value) (s : gset addr)
    (rs : list RenderResult) (s' : gset addr) :
  (forall x s0, snd (f x s0) = s0) ->
  mapM f l s = (Ok rs, s') ->
  Forall2 (fun x r => f x s = (Ok r, s)) l rs.
Proof.
  intros Hf H. apply mapM_independent in H as (_ & -> & Hall); [| exact Hf].
  induction l as [|x l IH]; cbn [map]; constructor.
  - apply Hall. now left.
  - apply IH. intros z Hz. apply Hall. now right.
Qed.

(** The entry [key: value] of a string key: the key text, a colon and a
    space, and the content of the rendered value. *)
Lemma entry_render (h : Heap) (fuel : nat) (k : string) (v : value)
    (params : RenderParams) (s : gset addr) (e : RenderResult) :
  render h (S (S fuel)) (entryNode h (VPrim (PString k), v)) params s = (Ok e, s) ->
  exists rv, render h (S fuel) v params s = (Ok rv, s)
             /\ content e = keyText k +:+ ": " +:+ content rv.
Proof.
  unfold entryNode. rewrite render_node. cbn [node_render fst snd stringifyKey].
  fold (keyText k). intros H.
  apply inline_render_ok in H as (rendered & Hr & _ & Hc).
  apply mapM_cons_ok in Hr as (rk & rest & s1 & Hk & Hrest & ->).
  apply mapM_cons_ok in Hrest as (rv & rest' & s2 & Hv & Hnil & ->).
  cbn [mapM] in Hnil. unfold ret in Hnil. injection Hnil as Hrest Hs2. subst rest' s2.
  rewrite render_node in Hk. cbn [node_render] in Hk. unfold lift in Hk.
  rewrite (text_render_single _ [""; ""] [VPrim (PString (keyText k))] params
             [keyText k] (keyText k)) in Hk;
    [| reflexivity | cbn [interpolate interpolateLoop]; now rewrite append_empty_r
     | apply keyText_no_line_break].
  injection Hk as Hrk Hs1. subst rk s1.
  exists rv. split; [exact Hv |].
  cbn [map content interpolate interpolateLoop] in Hc. injection Hc as Hc.
  rewrite <- Hc. change ("" +:+ keyText k +:+ ": ") with (keyText k +:+ ": ").
  now rewrite append_empty_r, append_assoc.
Qed.

Lemma Forall2_map_left {A B C} (f : A -> B) (P : B -> C -> Prop) (l : list A) (k : list C) :
  Forall2 P (map f l) k -> Forall2 (fun x y => P (f x) y) l k.
Proof.
  revert k. induction l as [|x l IH]; intros k H; inversion H; subst; constructor; auto.
Qed.

(** An object the formatter hands to [objectLike], rendered on one line:
    the entries between braces, each the key text, a colon and the
    rendered value, in the order the sort puts them in. *)
Lemma objectLike_single_line (h : Heap) (fuel : nat) (a : addr) (o : obj)
    (entries : list (string * value)) (params : RenderParams)
    (s : gset addr) (r : RenderResult) (s' : gset addr) :
  objects h !! a = Some o ->
  stringifiableOf h o = objectLike h (objectEntries entries) ->
  a ∉ s ->
  render h (S (S (S (S fuel)))) (VRef a) params s = (Ok r, s') ->
  isMultiline r = false ->
  exists rendered : list RenderResult,
    Forall2 (fun kv e =>
               exists rv,
                 render h (S fuel) (snd kv) (childParams params) ({[a]} ∪ s)
                 = (Ok rv, {[a]} ∪ s)
                 /\ content e = keyText (fst kv) +:+ ": " +:+ content rv)
            entries rendered
    /\ let sorted := sortRendered rendered in
       Permutation sorted rendered
       /\ StronglySorted contentLe sorted
       /\ (forall c, withContent c sorted = withContent c rendered)
       /\ content r = bracedForm (map content sorted).
Proof.
  intros Ho Hnode Ha H Hm.
  rewrite (render_fresh h _ a _ params s Ho Ha) in H. rewrite Hnode in H.
  cbn [objectLike node_render] in H.
  fold (entryNode h) in H.
  destruct (block_render _ _ _ _ _) as [out s1] eqn:E. simpl in H.
  injection H as -> _.
  apply block_render_ok in E as (rendered1 & Hr1 & Hflag & Hc).
  rewrite Hm in Hflag, Hc. flag_false Hflag Hkids Hwidth Hfrag.
  apply mapM_cons_ok in Hr1 as (rl & rest & s2 & Hl & Hnil & ->).
  cbn [mapM] in Hnil. unfold ret in Hnil. injection Hnil as Hrest Hs2. subst rest s2.
  cbn [existsb] in Hkids. rewrite orb_false_r in Hkids.
  rewrite render_node in Hl. cbn [node_render] in Hl.
  apply list_render_ok in Hl as (rendered & Hr & _ & Hcl). rewrite Hkids in Hcl.
  exists rendered. split.
  - apply mapM_Forall2 in Hr; [| intros x s0; apply render_restores].
    unfold objectEntries in Hr. rewrite map_map in Hr.
    apply Forall2_map_left in Hr.
    eapply Forall2_impl; [exact Hr |]. intros [k v] e He. cbn [fst snd] in *.
    now apply entry_render.
  - cbv zeta. split; [apply sortRendered_perm |]. split; [apply sortRendered_sorted |].
    split; [intros c; apply sortRendered_stable |].
    cbn [map content interpolate interpolateLoop] in Hc. injection Hc as Hc.
    rewrite <- Hc, Hcl. unfold bracedForm. reflexivity.
Qed.

(** ** Re-indentation of a multi-line text *)

Section Reindent.

Lemma getSubstitution_plain (matched str : string) (position : nat) (template : string) :
  includes DOLLAR template = false ->
  getSubstitution matched str position template = template.
Proof.
  induction template as [|c t IH]; [reflexivity |]. cbn [includes getSubstitution].
  rewrite orb_false_iff. intros [Hc Ht]. rewrite Hc. now rewrite (IH Ht).
Qed.

Lemma plainLine_cons (c : ascii) (l : string) :
  plainLine (String c l) -> isLineTerminator c = false /\ plainLine l.
Proof.
  unfold plainLine, isLineTerminator. cbn [includes]. rewrite !orb_false_iff.
  intros [[H1 H2] [H3 H4]]. auto.
Qed.

Lemma replaceLoop_inside (k : nat) (template str : string) (pos skip : nat) (rest : string) :
  plainLine rest ->
  replaceLoop k template str pos false skip rest = dropChars skip rest.
Proof.
  revert pos skip. induction rest as [|c r IH]; intros pos skip Hp.
  - now destruct skip.
  - apply plainLine_cons in Hp as [Hc Hr]. cbn [replaceLoop]. destruct skip as [|skip'].
    + cbn [andb dropChars]. rewrite Hc. now rewrite (IH (S pos) 0 Hr).
    + cbn [dropChars]. now apply IH.
Qed.

Lemma startsWithSpaces_indentOfLine (k : nat) (l : string) :
  startsWithSpaces k l = Nat.leb k (indentOfLine l).
Proof.
  revert l. induction k as [|k IH]; intros l; [reflexivity |].
  destruct l as [|c r]; [reflexivity |]. cbn [startsWithSpaces indentOfLine].
  destruct (Ascii.eqb c SP); [apply IH | reflexivity].
Qed.

(** On such a line, and with an indent that holds no dollar sign, the
    replacement acts at the start of the line only. *)
Lemma replaceIndent_plain (k : nat) (indent line : string) :
  includes DOLLAR indent = false ->
  plainLine line ->
  replaceIndent k indent line = reindent k indent line.
Proof.
  intros Hd Hp. unfold replaceIndent, reindent.
  rewrite <- startsWithSpaces_indentOfLine.
  destruct line as [|c r].
  - cbn [replaceLoop andb]. destruct k as [|k]; cbn [Nat.eqb startsWithSpaces].
    + rewrite getSubstitution_plain by exact Hd. now rewrite append_empty_r.
    + reflexivity.
  - apply plainLine_cons in Hp as [Hc Hr]. cbn [replaceLoop andb].
    destruct (startsWithSpaces k (String c r)) eqn:E.
    + rewrite getSubstitution_plain by exact Hd. destruct k as [|k].
      * now rewrite Hc, replaceLoop_inside.
      * now rewrite replaceLoop_inside.
    + now rewrite Hc, replaceLoop_inside.
Qed.

Lemma splitLines_no_LF (s : string) :
  Forall (fun l => includes LF l = false) (splitLines s).
Proof.
  induction s as [|c r IH]; [repeat constructor |].
  rewrite splitLines_step. destruct (Ascii.eqb c LF) eqn:Ec; [now constructor |].
  destruct r as [|d r'].
  - constructor; [| constructor]. cbn [includes]. now rewrite Ec.
  - destruct (Ascii.eqb c CR && Ascii.eqb d LF) eqn:E.
    + apply andb_true_iff in E as [_ Ed]. rewrite splitLines_step, Ed in IH.
      constructor; [reflexivity |]. now inversion IH.
    + destruct (splitLines (String d r')) as [|l ls].
      * constructor; [| constructor]. cbn [includes]. now rewrite Ec.
      * inversion IH as [| ? ? Hl Hls]; subst.
        constructor; [| exact Hls]. cbn [includes]. now rewrite Ec.
Qed.

Lemma mathMin_le (ns : list nat) (m n : nat) : mathMin ns = Some m -> In n ns -> m <= n.
Proof.
  revert m. induction ns as [|x ns IH]; intros m; [discriminate |].
  cbn [mathMin]. destruct (mathMin ns) as [m' |] eqn:E.
  - intros H [-> | Hn]; inversion H; subst; [lia |].
    specialize (IH m' eq_refl Hn). lia.
  - intros H [-> | Hn]; inversion H; subst; [lia |].
    destruct ns; [contradiction | cbn [mathMin] in E; destruct (mathMin ns); discriminate].
Qed.

Lemma mathMin_In (ns : list nat) (m : nat) : mathMin ns = Some m -> In m ns.
Proof.
  revert m. induction ns as [|x ns IH]; intros m; [discriminate |].
  cbn [mathMin]. destruct (mathMin ns) as [m' |] eqn:E; intros H; inversion H; subst.
  - destruct (Nat.min_spec x m') as [[_ ->] | [_ ->]]; [now left | right; now apply IH].
  - now left.
Qed.

Lemma mathMin_None (ns : list nat) : mathMin ns = None -> ns = [].
Proof.
  destruct ns as [|x ns]; [reflexivity |]. cbn [mathMin]. now destruct (mathMin ns).
Qed.

End Reindent.

(** C5 as stated fails on the text [a], an empty line, and [b] behind
    two spaces: the empty line is shorter than the minimum indent of
    two, and the code leaves it empty, where the statement has the
    indent put in front of every remaining line. *)
Lemma text_blank_line_gets_no_indent :
  stringify {| objects := ∅; hostToString := fun _ => "" |} 1
    (VNode (NText ["a" +:+ newline +:+ newline +:+ "  b"] []))
    {| opt_wrapWidth := None; opt_indentIncrement := None;
       opt_baseIndent := Some (IndentString "    ") |}
  = Ok ("a" +:+ newline +:+ newline +:+ "    b")
  /\ join newline ("a" :: map (reindentAsStated 2 "    ") [""; "  b"])
     = "a" +:+ newline +:+ "    " +:+ newline +:+ "    b"
  /\ "a" +:+ newline +:+ newline +:+ "    b"
     <> join newline ("a" :: map (reindentAsStated 2 "    ") [""; "  b"]).
Proof. split; [vm_compute; reflexivity |]. split; [reflexivity | discriminate]. Qed.

(** Why the indent must hold no dollar sign: [replace] reads the indent
    as a replacement template, in which [$&] is the matched text. *)
Example replaceIndent_reads_template : replaceIndent 2 "$&--" "  x" = "  --x".
Proof. reflexivity. Qed.

(** Why the lines must hold no carriage return: under the [m] flag [^]
    also holds after a carriage return inside a line. *)
Example replaceIndent_after_carriage_return :
  replaceIndent 1 "--" (" x" +:+ String CR " y") = "--x" +:+ String CR "--y".
Proof. reflexivity. Qed.

(** ** Termination *)

Section NotOutOfFuel.

Lemma interpolateLoop_ended (s : string) (strings interpolations : list string) :
  ended (interpolateLoop s strings interpolations).
Proof.
  revert s interpolations.
  induction strings as [|str strings IH]; intros s [|i interpolations]; simpl;
    try discriminate. apply IH.
Qed.

Lemma interpolate_ended (strings interpolations : list string) :
  ended (interpolate strings interpolations).
Proof. destruct strings; [discriminate | apply interpolateLoop_ended]. Qed.

Lemma mapO_ended {A B} (f : A -> outcome B) (l : list A) :
  (forall x, In x l -> ended (f x)) -> ended (mapO f l).
Proof.
  induction l as [|x l IH]; intros Hf; [discriminate |]. cbn [mapO]. unfold bindO.
  pose proof (Hf x (or_introl eq_refl)) as Hx.
  destruct (f x) as [y | e |]; [| discriminate | now destruct Hx].
  assert (ended (mapO f l)) as Hl by (apply IH; intros; apply Hf; now right).
  destruct (mapO f l); [discriminate | discriminate | now destruct Hl].
Qed.

Lemma text_render_ended toStr strings interpolations params :
  (forall x, In x interpolations -> ended (toStr x)) ->
  ended (text_render toStr strings interpolations params).
Proof.
  intros Hf. unfold text_render, bindO.
  pose proof (mapO_ended toStr interpolations Hf) as Hco.
  destruct (mapO toStr interpolations) as [coerced | e |]; [| discriminate | now destruct Hco].
  pose proof (interpolate_ended strings coerced) as Hi.
  destruct (interpolate strings coerced); [| discriminate | now destruct Hi].
  destruct (Nat.eqb _ _); discriminate.
Qed.

Lemma mapM_ended {A B} (f : A -> M B) (l : list A) (s : gset addr) :
  (forall x, In x l -> snd (f x s) = s) ->
  (forall x, In x l -> ended (fst (f x s))) ->
  ended (fst (mapM f l s)).
Proof.
  induction l as [|x l IH]; intros Hs Hf; [discriminate |]. cbn [mapM]. unfold bindM, ret.
  pose proof (Hf x (or_introl eq_refl)) as Hx.
  pose proof (Hs x (or_introl eq_refl)) as Hsx.
  destruct (f x s) as [[y | e |] s1]; simpl in Hx, Hsx; subst;
    [| discriminate | now destruct Hx].
  assert (ended (fst (mapM f l s))) as Hl.
  { apply IH; intros; [apply Hs | apply Hf]; now right. }
  destruct (mapM f l s) as [[ys | e |] s2]; simpl in *; [discriminate | discriminate | exact Hl].
Qed.

Variable render : Render.
Hypothesis render_restores : restores render.

(** A render method ends when the calls it makes end. *)
Lemma node_render_ended toStr n params s :
  (forall c, In c (renderedChildren n) -> forall p, ended (fst (render c p s))) ->
  (forall strings vs, n = NText strings vs -> forall x, In x vs -> ended (toStr x)) ->
  ended (fst (node_render render toStr n params s)).
Proof.
  intros Hkids Htext.
  destruct n as [ss vs | ss vs | ss vs | j vs srt]; cbn [node_render renderedChildren] in *.
  - unfold lift. cbn [fst]. apply text_render_ended. now apply (Htext ss vs).
  - unfold block_render, bindM.
    pose proof (mapM_ended (fun x => render x (childParams params)) vs s
                  (fun x _ => render_restores x _ s) (fun x Hx => Hkids x Hx _)) as Hm.
    unfold childParams in Hm.
    destruct (mapM _ vs s) as [[rendered | e |] s1]; [| discriminate | now destruct Hm].
    unfold lift, ret.
    destruct (existsb _ _ || _ || _);
      match goal with
      | |- context [interpolate ?a ?b] =>
          pose proof (interpolate_ended a b) as Hi; destruct (interpolate a b)
      end; try discriminate; now destruct Hi.
  - unfold inline_render, bindM.
    pose proof (mapM_ended (fun x => render x params) vs s
                  (fun x _ => render_restores x _ s) (fun x Hx => Hkids x Hx _)) as Hm.
    destruct (mapM _ vs s) as [[rendered | e |] s1]; [| discriminate | now destruct Hm].
    unfold lift, ret. pose proof (interpolate_ended ss (map content rendered)) as Hi.
    destruct (interpolate ss (map content rendered)); try discriminate. now destruct Hi.
  - unfold list_render, bindM.
    pose proof (mapM_ended (fun x => render x params) vs s
                  (fun x _ => render_restores x _ s) (fun x Hx => Hkids x Hx _)) as Hm.
    destruct (mapM _ vs s) as [[rendered | e |] s1]; [| discriminate | now destruct Hm].
    discriminate.
Qed.

End NotOutOfFuel.

Section Termination.

Variable h : Heap.

Lemma list_max_In (f : value -> nat) (c : value) (l : list value) :
  In c l -> f c <= list_max (map f l).
Proof.
  intros Hc. pose proof (proj1 (list_max_le (map f l) (list_max (map f l))) (Nat.le_refl _)) as H.
  rewrite List.Forall_forall in H. apply H. now apply in_map.
Qed.

Lemma vdepth_child (n : node value) (c : value) :
  In c (renderedChildren n) -> vdepth c < vdepth (VNode n).
Proof.
  destruct n as [ss vs | ss vs | ss vs | j vs srt]; cbn [renderedChildren vdepth]; intros Hc;
    [contradiction | | |]; apply Nat.lt_succ_r; now apply list_max_In.
Qed.

Lemma textPlain_child (n : node value) (c : value) :
  textPlain (VNode n) = true -> In c (renderedChildren n) -> textPlain c = true.
Proof.
  destruct n as [ss vs | ss vs | ss vs | j vs srt]; cbn [renderedChildren textPlain];
    intros H Hc; [contradiction | | |]; rewrite forallb_forall in H; now apply H.
Qed.

Lemma toStringWith_prim_ended (render : Render) (x : value) :
  isPrim x = true -> ended (toStringWith h render x).
Proof.
  destruct x as [p | a | n]; try discriminate. intros _. destruct p; discriminate.
Qed.

Lemma textPlain_text_ended (render : Render) (n : node value) :
  textPlain (VNode n) = true ->
  forall strings vs, n = NText strings vs ->
  forall x, In x vs -> ended (toStringWith h render x).
Proof.
  intros H strings vs -> x Hx. cbn [textPlain] in H. rewrite forallb_forall in H.
  apply toStringWith_prim_ended. now apply H.
Qed.

Lemma defaultFormatterPrim_textPlain (p : prim) :
  textPlain (VNode (defaultFormatterPrim p)) = true.
Proof. now destruct p. Qed.

Lemma heapNodes_lookup (a : addr) (o : obj) :
  objects h !! a = Some o -> In (stringifiableOf h o) (heapNodes h).
Proof.
  intros Ho. unfold heapNodes.
  apply (in_map (fun ao => stringifiableOf h (snd ao)) _ (a, o)).
  apply list_elem_of_In. now apply elem_of_map_to_list.
Qed.

Lemma heapDepth_lookup (a : addr) (o : obj) :
  objects h !! a = Some o -> vdepth (VNode (stringifiableOf h o)) <= heapDepth h.
Proof.
  intros Ho. unfold heapDepth.
  pose proof (proj1 (list_max_le _ _) (Nat.le_refl
                (list_max (map (fun n => vdepth (VNode n)) (heapNodes h))))) as H.
  rewrite List.Forall_forall in H. apply H.
  apply (in_map (fun n => vdepth (VNode n))). now apply (heapNodes_lookup a).
Qed.

Lemma heapTextPlain_lookup (a : addr) (o : obj) :
  heapTextPlain h = true -> objects h !! a = Some o ->
  textPlain (VNode (stringifiableOf h o)) = true.
Proof.
  unfold heapTextPlain. rewrite forallb_forall. intros H Ho.
  apply H. now apply (heapNodes_lookup a).
Qed.

(** Entering an object leaves fewer objects to enter. *)
Lemma unvisited_shrinks (a : addr) (o : obj) (s : gset addr) :
  objects h !! a = Some o -> a ∉ s ->
  size (dom (objects h) ∖ ({[a]} ∪ s)) < size (dom (objects h) ∖ s).
Proof.
  intros Ho Ha. apply subset_size. split.
  - intros x. rewrite !elem_of_difference, elem_of_union. tauto.
  - intros Hsub. assert (a ∈ dom (objects h) ∖ s) as Hin.
    { apply elem_of_difference. split; [| exact Ha]. apply elem_of_dom. now exists o. }
    apply Hsub in Hin. apply elem_of_difference in Hin as [_ Hn].
    apply Hn, elem_of_union. left. now apply elem_of_singleton.
Qed.

Hypothesis heap_plain : heapTextPlain h = true.

(** Fuel above the depth of the value plus the depth of the heap for
    every object not yet on the path is enough. *)
Lemma render_ended (fuel : nat) (v : value) (params : RenderParams) (s : gset addr) :
  textPlain v = true ->
  vdepth v + heapDepth h * size (dom (objects h) ∖ s) < fuel ->
  ended (fst (render h fuel v params s)).
Proof.
  revert v params s. induction fuel as [|fuel IH]; intros v params s Hv Hfuel; [lia |].
  assert (forall n s0,
             textPlain (VNode n) = true ->
             (forall c, In c (renderedChildren n) ->
                        vdepth c + heapDepth h * size (dom (objects h) ∖ s0) < fuel) ->
             ended (fst (node_render (render h fuel) (toStringWith h (render h fuel))
                           n params s0))) as Hnode.
  { intros n s0 Hn Hkids. apply node_render_ended.
    - apply render_restores.
    - intros c Hc p. apply IH; [now apply (textPlain_child n) | now apply Hkids].
    - now apply textPlain_text_ended. }
  cbn [render]. destruct v as [p | a | n].
  - apply Hnode; [apply defaultFormatterPrim_textPlain |].
    intros c Hc. now destruct p.
  - destruct (decide (a ∈ s)) as [Hin | Hout].
    + apply Hnode; [reflexivity | intros c []].
    + destruct (objects h !! a) as [o |] eqn:Ho; [| discriminate].
      pose proof (Hnode (stringifiableOf h o) ({[a]} ∪ s)
                    (heapTextPlain_lookup a o heap_plain Ho)) as Hn.
      destruct (node_render _ _ _ _ _) as [r s1]. cbn [fst] in *. apply Hn.
      intros c Hc. pose proof (vdepth_child _ c Hc) as Hd.
      pose proof (heapDepth_lookup a o Ho) as Hk.
      pose proof (unvisited_shrinks a o s Ho Hout) as Hsz.
      cbn [vdepth] in Hfuel. nia.
  - apply Hnode; [exact Hv |].
    intros c Hc. pose proof (vdepth_child n c Hc) as Hd. lia.
Qed.

End Termination.

(** ** More fuel changes nothing *)

Section MoreFuel.

Lemma bindM_extends {A B} (m m' : M A) (k : A -> M B) (s : gset addr)
    (o : outcome B) (s' : gset addr) :
  (forall oa s1, m s = (oa, s1) -> ended oa -> m' s = (oa, s1)) ->
  (let* x := m in k x) s = (o, s') -> ended o -> (let* x := m' in k x) s = (o, s').
Proof.
  unfold bindM. intros Hm H Ho.
  destruct (m s) as [[a | e |] s1] eqn:E.
  - rewrite (Hm _ _ eq_refl); [exact H | discriminate].
  - rewrite (Hm _ _ eq_refl); [exact H | discriminate].
  - injection H as <- _. now destruct Ho.
Qed.

Lemma mapM_extends {A B} (f g : A -> M B) (l : list A) (s : gset addr)
    (o : outcome (list B)) (s' : gset addr) :
  (forall x s0 ox s1, f x s0 = (ox, s1) -> ended ox -> g x s0 = (ox, s1)) ->
  mapM f l s = (o, s') -> ended o -> mapM g l s = (o, s').
Proof.
  intros Hfg. revert s o s'. induction l as [|x l IH]; intros s o s' H Ho; [exact H |].
  cbn [mapM] in *. eapply bindM_extends; [| | exact Ho].
  - intros oa s1. apply Hfg.
  - unfold bindM in *. destruct (f x s) as [[y | e |] s1]; try exact H.
    destruct (mapM f l s1) as [[ys | e |] s2] eqn:E.
    + rewrite (IH _ _ _ E); [exact H | discriminate].
    + rewrite (IH _ _ _ E); [exact H | discriminate].
    + injection H as <- _. now destruct Ho.
Qed.

Lemma mapO_extends {A B} (f g : A -> outcome B) (l : list A) (o : outcome (list B)) :
  (forall x ox, f x = ox -> ended ox -> g x = ox) ->
  mapO f l = o -> ended o -> mapO g l = o.
Proof.
  intros Hfg. revert o. induction l as [|x l IH]; intros o H Ho; [exact H |].
  cbn [mapO] in *. unfold bindO in *.
  destruct (f x) as [y | e |] eqn:E.
  - rewrite (Hfg x _ E); [| discriminate].
    destruct (mapO f l) as [ys | e |] eqn:El.
    + rewrite (IH _ eq_refl); [exact H | discriminate].
    + rewrite (IH _ eq_refl); [exact H | discriminate].
    + subst o. now destruct Ho.
  - rewrite (Hfg x _ E); [exact H | discriminate].
  - subst o. now destruct Ho.
Qed.

Variable h : Heap.

Lemma stringifyWith_extends (f g : Render) (v : value) (opts : StringifyOpts)
    (o : outcome string) :
  extends f g -> stringifyWith f v opts = o -> ended o -> stringifyWith g v opts = o.
Proof.
  unfold stringifyWith. intros Hfg H Ho.
  destruct (f v (paramsOf opts) ∅) as [[r | e |] s1] eqn:E.
  - now rewrite (Hfg _ _ _ _ _ E).
  - now rewrite (Hfg _ _ _ _ _ E).
  - subst o. now destruct Ho.
Qed.

Lemma toStringWith_extends (f g : Render) (x : value) (o : outcome string) :
  extends f g -> toStringWith h f x = o -> ended o -> toStringWith h g x = o.
Proof.
  intros Hfg. destruct x as [p | a | n]; cbn [toStringWith].
  - auto.
  - destruct (objects h !! a) as [[] |]; auto; now apply stringifyWith_extends.
  - now apply stringifyWith_extends.
Qed.

Lemma node_render_extends (f g : Render) (n : node value) (params : RenderParams)
    (s : gset addr) (o : outcome RenderResult) (s' : gset addr) :
  extends f g ->
  node_render f (toStringWith h f) n params s = (o, s') -> ended o ->
  node_render g (toStringWith h g) n params s = (o, s').
Proof.
  intros Hfg. destruct n as [ss vs | ss vs | ss vs | j vs srt]; cbn [node_render].
  - unfold lift, text_render. intros H Ho. injection H as H <-. f_equal.
    unfold bindO in *.
    destruct (mapO (toStringWith h f) vs) as [coerced | e |] eqn:E.
    + rewrite (mapO_extends _ (toStringWith h g) _ _
                 (fun x ox => toStringWith_extends f g x ox Hfg) E); [exact H | discriminate].
    + rewrite (mapO_extends _ (toStringWith h g) _ _
                 (fun x ox => toStringWith_extends f g x ox Hfg) E); [exact H | discriminate].
    + subst o. now destruct Ho.
  - unfold block_render. intros H Ho. eapply bindM_extends; [| exact H | exact Ho].
    intros oa s1. apply mapM_extends. intros x s0 ox s2. apply Hfg.
  - unfold inline_render. intros H Ho. eapply bindM_extends; [| exact H | exact Ho].
    intros oa s1. apply mapM_extends. intros x s0 ox s2. apply Hfg.
  - unfold list_render. intros H Ho. eapply bindM_extends; [| exact H | exact Ho].
    intros oa s1. apply mapM_extends. intros x s0 ox s2. apply Hfg.
Qed.

Lemma render_step (fuel : nat) (v : value) (params : RenderParams) (s : gset addr) :
  render h (S fuel) v params s
  = let method n := node_render (render h fuel) (toStringWith h (render h fuel)) n params in
    match v with
    | VPrim p => method (defaultFormatterPrim p) s
    | VNode n => method n s
    | VRef a =>
        if decide (a ∈ s) then method circular s
        else
          match objects h !! a with
          | None => (Throw (NoSuchObject a), s)
          | Some o =>
              let '(r, visited') := method (stringifiableOf h o) ({[a]} ∪ s) in
              (r, visited' ∖ {[a]})
          end
    end.
Proof. destruct v; reflexivity. Qed.

Lemma render_more_fuel (fuel : nat) : extends (render h fuel) (render h (S fuel)).
Proof.
  induction fuel as [|fuel IH]; intros v params s o s' H Ho.
  - injection H as <- _. now destruct Ho.
  - rewrite render_step in H. rewrite (render_step (S fuel)). cbv zeta in *.
    destruct v as [p | a | n].
    + exact (node_render_extends _ _ _ _ _ _ _ IH H Ho).
    + destruct (decide (a ∈ s)); [exact (node_render_extends _ _ _ _ _ _ _ IH H Ho) |].
      destruct (objects h !! a) as [ob |]; [| exact H].
      destruct (node_render (render h fuel) _ _ _ _) as [r s1] eqn:E.
      injection H as -> <-.
      now rewrite (node_render_extends _ _ _ _ _ _ _ IH E Ho).
    + exact (node_render_extends _ _ _ _ _ _ _ IH H Ho).
Qed.

Lemma render_fuel_le (fuel fuel' : nat) :
  fuel <= fuel' -> extends (render h fuel) (render h fuel').
Proof.
  induction 1 as [|fuel' _ IH]; intros v params s o s' H Ho; [exact H |].
  apply render_more_fuel; [| exact Ho]. now apply IH.
Qed.

Lemma stringify_fuel_le (fuel fuel' : nat) (v : value) (opts : StringifyOpts) :
  fuel <= fuel' -> ended (stringify h fuel v opts) ->
  stringify h fuel' v opts = stringify h fuel v opts.
Proof.
  intros Hle Ho. unfold stringify in *.
  apply (stringifyWith_extends (render h fuel)); [now apply render_fuel_le | reflexivity | exact Ho].
Qed.

End MoreFuel.

(** ** Cycles *)

Lemma cyclicThroughText_out_of_fuel (fuel : nat) (params : RenderParams) :
  fst (render cyclicThroughText fuel (VRef 1%positive) params ∅) = OutOfFuel.
Proof.
  revert params. induction fuel as [fuel IH] using lt_wf_ind. intros params.
  destruct fuel as [|f1]; [reflexivity |].
  rewrite (render_fresh cyclicThroughText f1 1%positive
             (ONode (NList ", " [VRef 2%positive] false)) params ∅ eq_refl)
    by apply not_elem_of_empty.
  cbn [fst stringifiableOf node_render]. unfold list_render, bindM. cbn [mapM]. unfold bindM.
  destruct f1 as [|f2]; [reflexivity |].
  rewrite (render_fresh cyclicThroughText f2 2%positive
             (ONode (NText [""; ""] [VRef 1%positive])) params ({[1%positive]} ∪ ∅) eq_refl).
  - cbn [fst stringifiableOf node_render]. unfold lift, text_render. cbn [mapO]. unfold bindO.
    cbn [toStringWith].
    change (objects cyclicThroughText !! 1%positive)
      with (Some (ONode (NList ", " [VRef 2%positive] false))).
    cbv iota. unfold stringifyWith.
    pose proof (IH f2 ltac:(lia) (paramsOf noOpts)) as H.
    destruct (render cyclicThroughText f2 (VRef 1%positive) (paramsOf noOpts) ∅)
      as [[r | e |] s1]; simpl in H; try discriminate. reflexivity.
  - rewrite elem_of_union, elem_of_singleton. intros [H | H]; [discriminate |].
    now apply not_elem_of_empty in H.
Qed.

(** Where the cycle detection works.  On a value graph whose Text nodes
    interpolate primitives only, cyclic or not, [stringify] ends: with
    the fuel of [fuelBound] it returns or throws, and more fuel gives the
    same outcome.  An object met while it is on the render path renders
    as the sentinel.  An object that is not on the path is on it exactly
    while its own node renders.  Every call of [render], however it
    ends, leaves the visited set as it found it, so a value that occurs
    twice side by side renders in full both times, with the same
    result. *)
Lemma cycles_end_in_sentinel (h : Heap) (v : value) (opts : StringifyOpts) :
  heapTextPlain h = true ->
  textPlain v = true ->
  (ended (stringify h (fuelBound h v) v opts)
   /\ forall fuel, fuelBound h v <= fuel ->
        stringify h fuel v opts = stringify h (fuelBound h v) v opts)
  /\ (forall fuel a params (s : gset addr),
        a ∈ s -> render h (S fuel) (VRef a) params s = (Ok circularResult, s))
  /\ (forall fuel a o params (s : gset addr),
        objects h !! a = Some o -> a ∉ s ->
        render h (S fuel) (VRef a) params s
        = (fst (node_render (render h fuel) (toStringWith h (render h fuel))
                  (stringifiableOf h o) params ({[a]} ∪ s)), s))
  /\ (forall fuel x params (s : gset addr), snd (render h fuel x params s) = s)
  /\ (forall fuel x params (s : gset addr) r s',
        render h fuel x params s = (Ok r, s') ->
        mapM (fun y => render h fuel y params) [x; x] s = (Ok [r; r], s)).
Proof.
  intros Hheap Hv.
  assert (ended (stringify h (fuelBound h v) v opts)) as Hend.
  { unfold stringify, stringifyWith.
    pose proof (render_ended h Hheap (fuelBound h v) v (paramsOf opts) ∅ Hv) as H.
    rewrite difference_empty_L in H. specialize (H ltac:(unfold fuelBound; lia)).
    destruct (render h (fuelBound h v) v (paramsOf opts) ∅) as [[r | e |] s1];
      [discriminate | discriminate | now destruct H]. }
  split; [split; [exact Hend |] |].
  - intros fuel Hfuel. now apply stringify_fuel_le.
  - split; [intros fuel a params s; apply render_visited |].
    split; [intros fuel a o params s; apply render_fresh |].
    split; [intros fuel x params s; apply render_restores |].
    intros fuel x params s r s' H.
    pose proof (render_restores h fuel x params s) as Hs. rewrite H in Hs. simpl in Hs.
    subst s'. cbn [mapM]. unfold bindM, ret. now rewrite H, H.
Qed.

(** The circular array of the test suite. *)
Lemma cycles_end_in_sentinel_witness :
  ended (stringify circularArray (fuelBound circularArray (VRef 1%positive))
           (VRef 1%positive) noOpts).
Proof.
  apply (cycles_end_in_sentinel circularArray (VRef 1%positive) noOpts).
  - vm_compute. reflexivity.
  - reflexivity.
Defined.

(** A node shared by three items of a list is no cycle:
    [list(', ', [block1, block1, block1])] of the test suite. *)
Example shared_node_renders_in_full :
  stringify {| objects := {[1%positive := ONode (NText ["foo"] []);
                            2%positive := ONode (NBlock ["{ "; " }"] [VRef 1%positive])]};
               hostToString := fun _ => "" |}
    4 (VNode (NList ", " [VRef 2%positive; VRef 2%positive; VRef 2%positive] false)) noOpts
  = Ok "{ foo }, { foo }, { foo }".
Proof. vm_compute. reflexivity. Qed.

Example circularArray_renders :
  fuelBound circularArray (VRef 1%positive) = 5
  /\ stringify circularArray 5 (VRef 1%positive) noOpts
     = Ok "[<circular>, 'b', ['c', <circular>]]".
Proof. split; vm_compute; reflexivity. Qed.

(** C2.  The cycle detection misses a cycle that runs through a Text.
    On the graph of [const arr = []; const l = list(', ', arr);
    arr.push(text`${l}`)] the call [stringify(l)] neither returns nor
    throws, with any options and with any amount of fuel: the text node
    coerces the list to a string, the list answers through [toString]
    with a new [stringify] call, and that call starts from an empty
    visited set, so the list, which is on the render path, is not found
    in it, no sentinel is written and the recursion goes on (in the host,
    until the call stack overflows).  A cycle that runs through Block
    and List nodes only is detected: the array that holds itself, and is
    held by its inner array, renders with the sentinel in both places. *)
Theorem cycle_through_text_is_not_detected :
  (forall (fuel : nat) (opts : StringifyOpts),
      stringify cyclicThroughText fuel (VRef 1%positive) opts = OutOfFuel)
  /\ (forall fuel : nat,
        stringify circularArray (fuelBound circularArray (VRef 1%positive) + fuel)
          (VRef 1%positive) noOpts
        = Ok "[<circular>, 'b', ['c', <circular>]]").
Proof.
  split.
  - intros fuel opts. unfold stringify, stringifyWith.
    pose proof (cyclicThroughText_out_of_fuel fuel (paramsOf opts)) as Hf.
    destruct (render cyclicThroughText fuel (VRef 1%positive) (paramsOf opts) ∅)
      as [[r | e |] s1]; simpl in Hf; try discriminate. reflexivity.
  - intros fuel.
    assert (stringify circularArray (fuelBound circularArray (VRef 1%positive))
              (VRef 1%positive) noOpts
            = Ok "[<circular>, 'b', ['c', <circular>]]") as Hs
      by (vm_compute; reflexivity).
    rewrite <- Hs. apply stringify_fuel_le; [lia |]. now rewrite Hs.
Qed.

(** * Further properties *)

(** ** interpolate, closed form *)

Section Weave.

Lemma weave_head (a b : string) (strings interpolations : list string) :
  weave ((a +:+ b) :: strings) interpolations = a +:+ weave (b :: strings) interpolations.
Proof.
  destruct interpolations as [|i interpolations]; cbn [weave]; [reflexivity |].
  now rewrite append_assoc.
Qed.

Lemma interpolateLoop_weave (s : string) (strings interpolations : list string) :
  length strings = length interpolations ->
  interpolateLoop s strings interpolations = Ok (weave (s :: strings) interpolations).
Proof.
  revert s interpolations.
  induction strings as [|str strings IH]; intros s [|i interpolations] H;
    try discriminate; [reflexivity |].
  cbn [interpolateLoop]. rewrite IH by (simpl in H; lia).
  f_equal. rewrite !weave_head. reflexivity.
Qed.

Lemma interpolate_weave (strings interpolations : list string) :
  length strings = length interpolations + 1 ->
  interpolate strings interpolations = Ok (weave strings interpolations).
Proof.
  destruct strings as [|s strings]; simpl; intros H; [lia |].
  apply interpolateLoop_weave. lia.
Qed.

Lemma interpolate_ok_weave (strings interpolations : list string) (t : string) :
  interpolate strings interpolations = Ok t -> t = weave strings interpolations.
Proof.
  intros H. pose proof (interpolate_ok _ _ _ H) as (Hlen & _).
  rewrite (interpolate_weave _ _ Hlen) in H. now injection H.
Qed.

Lemma interpolateLoop_throws (s : string) (strings interpolations : list string) :
  length strings <> length interpolations ->
  interpolateLoop s strings interpolations
  = Throw (JsError "A tagged template expects exactly one more string than interpolation value").
Proof.
  revert s interpolations.
  induction strings as [|str strings IH]; intros s [|i interpolations] H; simpl in *;
    try congruence; try reflexivity. apply IH. congruence.
Qed.

End Weave.

(** ** The wrap decision of a block *)

(** [sum] adds up its list. *)
Lemma sum_list_sum (ns : list nat) : sum ns = list_sum ns.
Proof.
  induction ns as [|n ns IH]; [reflexivity |]. rewrite sum_cons, IH. reflexivity.
Qed.

(** The length of a woven text is the lengths of its parts. *)
Lemma length_weave (strings interpolations : list string) :
  length strings = length interpolations + 1 ->
  String.length (weave strings interpolations)
  = list_sum (map String.length strings) + list_sum (map String.length interpolations).
Proof.
  intros Hlen. pose proof (interpolate_weave _ _ Hlen) as Hi.
  apply interpolate_ok in Hi as (_ & Hl & _). now rewrite Hl, !sum_list_sum.
Qed.

(** C1.  A block is multiline exactly when (a) one of its rendered
    children is multiline, or (b) the length of the indent plus the
    single-line candidate length (the lengths of the literal fragments
    plus the lengths of the children's contents) exceeds the wrap width,
    or (c) a literal fragment contains a line break; with an infinite
    wrap width (b) never holds.  The children are the results of the
    context's [render] on the interpolated values, in the child context,
    and the candidate length is the length of the text the block has on
    one line: the fragments and the children's contents in template
    order. *)
Theorem block_wrap_decision (render : Render) (strings : list string)
    (interpolations : list value) (params : RenderParams)
    (s : gset addr) (r : RenderResult) (s' : gset addr) :
  block_render render strings interpolations params s = (Ok r, s') ->
  exists children : list RenderResult,
    mapM (fun x => render x (childParams params)) interpolations s = (Ok children, s')
    /\ let candidate :=
         list_sum (map String.length strings)
         + list_sum (map (fun c => String.length (content c)) children) in
       candidate = String.length (weave strings (map content children))
       /\ (isMultiline r = true <->
           (exists c, In c children /\ isMultiline c = true)
           \/ widerThan (String.length (indent params) + candidate) (wrapWidth params)
           \/ (exists f, In f strings /\ hasLineBreak f))
       /\ (wrapWidth params = Infinity ->
           ~ widerThan (String.length (indent params) + candidate) (wrapWidth params)).
Proof.
  intros H. apply block_render_ok in H as (children & Hc & Hm & Hi).
  exists children. split; [exact Hc |]. cbv zeta.
  assert (length strings = length (map content children) + 1) as Hcount.
  { destruct (isMultiline r); apply interpolate_ok in Hi as (Hcount & _).
    - now rewrite length_imap, !length_map in *.
    - exact Hcount. }
  split; [| split].
  - now rewrite (length_weave _ _ Hcount), map_map.
  - rewrite Hm, !orb_true_iff, existsb_isMultiline, exceeds_widerThan, existsb_hasLineBreak,
      !sum_list_sum.
    tauto.
  - intros ->. simpl. tauto.
Qed.

(** [block`{ ${'ab'} }`] at width 6: the text on one line has eight
    characters, so the block breaks. *)
Lemma block_wrap_decision_witness :
  exists children : list RenderResult,
    mapM (fun x => render emptyHeap 2 x (childParams (atWidth 6)))
         [VPrim (PString "ab")] ∅ = (Ok children, ∅)
    /\ let candidate :=
         list_sum (map String.length ["{ "; " }"])
         + list_sum (map (fun c => String.length (content c)) children) in
       candidate = String.length (weave ["{ "; " }"] (map content children))
       /\ (true = true <->
           (exists c, In c children /\ isMultiline c = true)
           \/ widerThan (String.length "" + candidate) (Finite 6)
           \/ (exists f, In f ["{ "; " }"] /\ hasLineBreak f))
       /\ (Finite 6 = Infinity -> ~ widerThan (String.length "" + candidate) (Finite 6)).
Proof.
  apply (block_wrap_decision (render emptyHeap 2) ["{ "; " }"] [VPrim (PString "ab")]
           (atWidth 6) ∅
           {| isMultiline := true;
              content := "{" +:+ newline +:+ "  'ab'" +:+ newline +:+ "}" |} ∅).
  vm_compute. reflexivity.
Defined.

(** X1.  [interpolate] returns exactly when there is one more string
    than interpolated text, and then its result is the strings and the
    texts in template order; with no string at all it throws one error,
    with any other mismatch the other. *)
Theorem interpolate_weaves (strings interpolations : list string) :
  (length strings = length interpolations + 1 ->
   interpolate strings interpolations = Ok (weave strings interpolations))
  /\ (strings = [] ->
      interpolate strings interpolations
      = Throw (JsError "Expected at least one interpolated string"))
  /\ (strings <> [] -> length strings <> length interpolations + 1 ->
      interpolate strings interpolations
      = Throw (JsError "A tagged template expects exactly one more string than interpolation value")).
Proof.
  split; [apply interpolate_weave |]. split; [now intros -> |].
  destruct strings as [|s strings]; [congruence |]. intros _ H. simpl.
  apply interpolateLoop_throws. simpl in H. lia.
Qed.

Lemma interpolate_weaves_witness :
  interpolate ["{ "; ": "; " }"] ["a"; "1"] = Ok "{ a: 1 }".
Proof.
  apply (proj1 (interpolate_weaves ["{ "; ": "; " }"] ["a"; "1"])). reflexivity.
Defined.

(** ** Numeric indents *)

Lemma spaceWithLength_spaces (n : nat) : spaceWithLength n = spaces n.
Proof.
  unfold spaceWithLength, join. induction n as [|n IH]; [reflexivity |].
  change (S n + 1) with (S (n + 1)). cbn [repeat].
  destruct (repeat "" (n + 1)) as [|x l] eqn:E.
  - rewrite Nat.add_1_r in E. discriminate.
  - change (String.concat " " ("" :: x :: l)) with ("" +:+ " " +:+ String.concat " " (x :: l)).
    rewrite IH. reflexivity.
Qed.

Lemma length_spaces (n : nat) : String.length (spaces n) = n.
Proof. induction n as [|n IH]; simpl; [reflexivity | now rewrite IH]. Qed.

Lemma includes_spaces (c : ascii) (n : nat) :
  includes c (spaces n) = true -> c = SP.
Proof.
  induction n as [|n IH]; [discriminate |]. cbn [spaces includes].
  rewrite orb_true_iff. intros [H | H]; [| now apply IH].
  apply Ascii.eqb_eq in H. now subst.
Qed.

(** X2.  An indent option given as a number [n] is [n] space characters:
    [spaceWithLength n] has length [n] and holds nothing but spaces, and
    [stringify] with the number behaves as with that string, for the base
    indent and for the indent increment. *)
Theorem numeric_indent_is_spaces (n : nat) :
  String.length (spaceWithLength n) = n
  /\ (forall c, includes c (spaceWithLength n) = true -> c = SP)
  /\ (forall h fuel v w inc,
        stringify h fuel v {| opt_wrapWidth := w; opt_indentIncrement := inc;
                              opt_baseIndent := Some (IndentSize n) |}
        = stringify h fuel v {| opt_wrapWidth := w; opt_indentIncrement := inc;
                                opt_baseIndent := Some (IndentString (spaces n)) |})
  /\ (forall h fuel v w base,
        stringify h fuel v {| opt_wrapWidth := w; opt_indentIncrement := Some (IndentSize n);
                              opt_baseIndent := base |}
        = stringify h fuel v {| opt_wrapWidth := w;
                                opt_indentIncrement := Some (IndentString (spaces n));
                                opt_baseIndent := base |}).
Proof.
  rewrite spaceWithLength_spaces. split; [apply length_spaces |].
  split; [intros c; apply includes_spaces |].
  split; intros; unfold stringify, stringifyWith, paramsOf; cbn [indentOf opt_baseIndent
    opt_indentIncrement opt_wrapWidth]; now rewrite spaceWithLength_spaces.
Qed.

(** ** Text: one line or several *)

Lemma join_newline_breaks (first : string) (rest : list string) :
  rest <> [] -> includes LF (join newline (first :: rest)) = true.
Proof.
  destruct rest as [|l rest]; [congruence |]. intros _. unfold join.
  change (String.concat newline (first :: l :: rest))
    with (first +:+ newline +:+ String.concat newline (l :: rest)).
  rewrite !includes_append. cbn. now rewrite orb_true_r.
Qed.

(** X3.  Once the interpolated values are coerced and woven with the
    fragments into a text [t], a Text node always renders, whatever the
    context: it is multiline exactly when [t] holds a line break, its
    content holds a line break exactly then, and a text without a line
    break is returned as it is. *)
Theorem text_multiline_iff_line_break (toStr : value -> outcome string)
    (strings : list string) (interpolations : list value) (params : RenderParams)
    (coerced : list string) (t : string) :
  mapO toStr interpolations = Ok coerced ->
  interpolate strings coerced = Ok t ->
  exists r,
    text_render toStr strings interpolations params = Ok r
    /\ (isMultiline r = true <-> hasLineBreak t)
    /\ (hasLineBreak (content r) <-> hasLineBreak t)
    /\ (~ hasLineBreak t -> content r = t).
Proof.
  intros Hco Ht. unfold text_render. rewrite Hco. cbn [bindO]. rewrite Ht. cbn [bindO].
  destruct (Nat.eqb_spec (length (splitLines t)) 1) as [Hone | Hmany].
  - eexists. split; [reflexivity |]. cbn [isMultiline content].
    rewrite !hasLineBreak_includes, (splitLines_single t Hone).
    repeat split; intros; congruence.
  - eexists. split; [reflexivity |]. cbn [isMultiline content].
    assert (includes LF t = true) as Hlf.
    { destruct (includes LF t) eqn:E; [reflexivity |]. now apply splitLines_one in E. }
    rewrite !hasLineBreak_includes, Hlf. pose proof (splitLines_nonempty t) as Hne.
    destruct (splitLines t) as [|first rest]; [congruence |]. cbn [hd tl].
    rewrite join_newline_breaks.
    + repeat split; intros; congruence.
    + destruct rest; [now simpl in Hmany | discriminate].
Qed.

Lemma text_multiline_iff_line_break_witness :
  exists r,
    text_render (fun _ => Ok "") ["a" +:+ newline +:+ "b"] []
      {| wrapWidth := Finite 120; indent := "  "; indentIncrement := "  " |} = Ok r
    /\ (isMultiline r = true <-> hasLineBreak ("a" +:+ newline +:+ "b"))
    /\ (hasLineBreak (content r) <-> hasLineBreak ("a" +:+ newline +:+ "b"))
    /\ (~ hasLineBreak ("a" +:+ newline +:+ "b") -> content r = "a" +:+ newline +:+ "b").
Proof.
  apply (text_multiline_iff_line_break (fun _ => Ok "") ["a" +:+ newline +:+ "b"] []
           {| wrapWidth := Finite 120; indent := "  "; indentIncrement := "  " |}
           [] ("a" +:+ newline +:+ "b")).
  - reflexivity.
  - reflexivity.
Defined.

(** X4.  A Text node whose interpolated values coerce renders to a
    result exactly when it has one more fragment than interpolated
    values; otherwise its render method throws. *)
Theorem text_renders_iff_counts_match (toStr : value -> outcome string)
    (strings : list string) (interpolations : list value) (params : RenderParams)
    (coerced : list string) :
  mapO toStr interpolations = Ok coerced ->
  ((exists r, text_render toStr strings interpolations params = Ok r)
   <-> length strings = length interpolations + 1)
  /\ (length strings <> length interpolations + 1 ->
      exists msg, text_render toStr strings interpolations params = Throw (JsError msg)).
Proof.
  intros Hco. pose proof (mapO_length _ _ _ Hco) as Hlen. split; [split |].
  - intros [r Hr]. destruct (Nat.eq_dec (length strings) (length interpolations + 1)) as [|Hne];
      [assumption |]. now apply (text_count_mismatch_at_render toStr) with (params := params) (r := r) in Hne.
  - intros Heq. assert (length strings = length coerced + 1) as Hc by lia.
    unfold text_render. rewrite Hco. cbn [bindO].
    rewrite (interpolate_weave _ _ Hc). cbn [bindO].
    destruct (Nat.eqb _ 1); now eexists.
  - intros Hne. unfold text_render. rewrite Hco. cbn [bindO].
    destruct strings as [|s strings]; [now eexists |].
    cbn [interpolate]. rewrite interpolateLoop_throws; [now eexists |].
    simpl in Hne. lia.
Qed.

Lemma text_renders_iff_counts_match_witness :
  exists r, text_render (toStringWith {| objects := ∅; hostToString := fun _ => "" |}
                           (render {| objects := ∅; hostToString := fun _ => "" |} 0))
              ["x = "; ""] [VPrim (PNumber 5)]
              {| wrapWidth := Finite 120; indent := ""; indentIncrement := "  " |} = Ok r.
Proof.
  refine (proj2 (proj1 (text_renders_iff_counts_match
                          (toStringWith {| objects := ∅; hostToString := fun _ => "" |}
                             (render {| objects := ∅; hostToString := fun _ => "" |} 0))
                          ["x = "; ""] [VPrim (PNumber 5)]
                          {| wrapWidth := Finite 120; indent := ""; indentIncrement := "  " |}
                          ["5"] _)) _).
  - reflexivity.
  - reflexivity.
Defined.

(** ** Text at an empty indent *)

Section FlushLeft.

Lemma join_cons_char (sep : string) (c : ascii) (l : string) (ls : list string) :
  join sep (String c l :: ls) = String c (join sep (l :: ls)).
Proof. unfold join. destruct ls; reflexivity. Qed.

Lemma join_cons_nonempty (sep x : string) (l : list string) :
  l <> [] -> join sep (x :: l) = x +:+ sep +:+ join sep l.
Proof. unfold join. destruct l; [congruence | reflexivity]. Qed.

Lemma hasCrLf_step (c d : ascii) (r : string) :
  hasCrLf (String c (String d r))
  = (Ascii.eqb c CR && Ascii.eqb d LF) || hasCrLf (String d r).
Proof. reflexivity. Qed.

Lemma no_LF_no_CrLf (t : string) : includes LF t = false -> hasCrLf t = false.
Proof.
  induction t as [|c r IH]; [reflexivity |]. intros H.
  cbn [includes] in H. apply orb_false_iff in H as [Hc Hr].
  destruct r as [|d r']; [reflexivity |]. rewrite hasCrLf_step, (IH Hr), orb_false_r.
  cbn [includes] in Hr. apply orb_false_iff in Hr as [Hd _]. now rewrite Hd, andb_false_r.
Qed.

(** Splitting into lines and joining with LF gives the text back, unless
    a CR-LF pair was taken as one separator. *)
Lemma join_splitLines (t : string) : hasCrLf t = false -> join newline (splitLines t) = t.
Proof.
  induction t as [|c r IH]; [reflexivity |]. intros H. rewrite splitLines_step.
  destruct r as [|d r'].
  - destruct (Ascii.eqb_spec c LF) as [-> | _]; reflexivity.
  - rewrite hasCrLf_step in H. apply orb_false_iff in H as [Hpair Hr].
    specialize (IH Hr). rewrite Hpair.
    destruct (Ascii.eqb_spec c LF) as [-> | _].
    + rewrite join_cons_nonempty by apply splitLines_nonempty. now rewrite IH.
    + pose proof (splitLines_nonempty (String d r')) as Hne.
      destruct (splitLines (String d r')) as [|l ls]; [congruence |].
      now rewrite join_cons_char, IH.
Qed.

Lemma replaceLoop_nothing (str : string) (pos : nat) (lineStart : bool) (rest : string) :
  replaceLoop 0 "" str pos lineStart 0 rest = rest.
Proof.
  revert pos lineStart. induction rest as [|c r IH]; intros pos lineStart.
  - simpl. now destruct lineStart.
  - cbn [replaceLoop startsWithSpaces getSubstitution]. rewrite andb_true_r.
    destruct lineStart; cbn [String.append]; now rewrite IH.
Qed.

Lemma replaceIndent_nothing (line : string) : replaceIndent 0 "" line = line.
Proof. apply replaceLoop_nothing. Qed.

End FlushLeft.

(** X5.  At an empty indent a text whose lines after the first are
    already flush left (one of them that is not blank starts without a
    space, or all of them are blank) is rendered as its lines joined by
    LF; that is the text itself when it holds no CR-LF pair. *)
Theorem text_flush_left_is_unchanged (toStr : value -> outcome string)
    (strings : list string) (interpolations : list value) (params : RenderParams)
    (coerced : list string) (t : string) :
  mapO toStr interpolations = Ok coerced ->
  interpolate strings coerced = Ok t ->
  indent params = "" ->
  ((forall l, In l (tl (splitLines t)) -> isBlank l = true)
   \/ (exists l, In l (tl (splitLines t)) /\ isBlank l = false /\ indentOfLine l = 0)) ->
  exists r,
    text_render toStr strings interpolations params = Ok r
    /\ content r = join newline (splitLines t)
    /\ (hasCrLf t = false -> content r = t).
Proof.
  intros Hco Ht Hindent Hflush.
  assert (forall r, content r = join newline (splitLines t) ->
                    content r = join newline (splitLines t)
                    /\ (hasCrLf t = false -> content r = t)) as Hfinish.
  { intros r Hr. split; [exact Hr |]. intros H. now rewrite Hr, join_splitLines. }
  unfold text_render. rewrite Hco. cbn [bindO]. rewrite Ht. cbn [bindO].
  destruct (Nat.eqb_spec (length (splitLines t)) 1) as [Hone | Hmany].
  - eexists. split; [reflexivity |]. apply Hfinish. cbn [content].
    apply splitLines_single in Hone. symmetry. now apply join_splitLines, no_LF_no_CrLf.
  - eexists. split; [reflexivity |]. apply Hfinish. cbn [content]. rewrite Hindent.
    pose proof (splitLines_nonempty t) as Hne.
    destruct (splitLines t) as [|first rest]; [congruence |]. cbn [hd tl] in *.
    assert (match mathMin (map indentOfLine
                             (List.filter (fun l => negb (isBlank l)) rest)) with
            | Some n => n
            | None => 0
            end = 0) as Hzero.
    { destruct (mathMin _) as [n |] eqn:E; [| reflexivity].
      destruct Hflush as [Hall | (l & Hl & Hb & Hz)].
      - apply mathMin_In, in_map_iff in E as (l & _ & Hl).
        apply filter_In in Hl as [Hl Hb]. rewrite (Hall l Hl) in Hb. discriminate.
      - assert (n <= indentOfLine l) as Hle.
        { apply (mathMin_le _ _ _ E). apply in_map. apply filter_In. now rewrite Hb. }
        lia. }
    rewrite Hzero. do 2 f_equal. rewrite <- (map_id rest) at 2.
    apply map_ext. intros l. apply replaceIndent_nothing.
Qed.

(** [text`hello\nthere\nworld`] of the test suite. *)
Lemma text_flush_left_is_unchanged_witness :
  exists r,
    text_render (fun _ => Ok "") ["hello" +:+ newline +:+ "there" +:+ newline +:+ "world"] []
      {| wrapWidth := Finite 120; indent := ""; indentIncrement := "  " |} = Ok r
    /\ content r
       = join newline (splitLines ("hello" +:+ newline +:+ "there" +:+ newline +:+ "world"))
    /\ (hasCrLf ("hello" +:+ newline +:+ "there" +:+ newline +:+ "world") = false ->
        content r = "hello" +:+ newline +:+ "there" +:+ newline +:+ "world").
Proof.
  apply (text_flush_left_is_unchanged (fun _ => Ok "")
           ["hello" +:+ newline +:+ "there" +:+ newline +:+ "world"] []
           {| wrapWidth := Finite 120; indent := ""; indentIncrement := "  " |}
           [] ("hello" +:+ newline +:+ "there" +:+ newline +:+ "world")).
  - reflexivity.
  - reflexivity.
  - reflexivity.
  - right. exists "there". split; [left; reflexivity |]. split; reflexivity.
Defined.

(** ** Layout of Inline, Block and List *)

Section Layout.

Lemma existsb_content_hasLineBreak (rs : list RenderResult) :
  existsb (includes LF) (map content rs) = true
  <-> exists c, In c rs /\ hasLineBreak (content c).
Proof.
  rewrite existsb_exists. split.
  - intros (t & Ht & Hlf). apply in_map_iff in Ht as (c & <- & Hc).
    exists c. split; [exact Hc |]. now apply hasLineBreak_includes.
  - intros (c & Hc & Hlf). exists (content c). split; [now apply in_map |].
    now apply hasLineBreak_includes.
Qed.

Lemma includes_join_separator (c : ascii) (sep : string) (ss : list string) :
  2 <= length ss -> includes c sep = true -> includes c (join sep ss) = true.
Proof.
  destruct ss as [|x [|y ss]]; cbn [length]; try lia. intros _ Hsep.
  rewrite join_cons_nonempty by discriminate.
  now rewrite !includes_append, Hsep, orb_true_r.
Qed.

Variable render : Render.

(** X6.  An Inline node adds nothing of its own: whether it is flagged
    multiline or not, its content is its fragments and the contents of
    its rendered children in template order, so it holds a line break
    only where a fragment or a child's content holds one. *)
Theorem inline_adds_no_line_break (strings : list string) (interpolations : list value)
    (params : RenderParams) (s : gset addr) (r : RenderResult) (s' : gset addr) :
  inline_render render strings interpolations params s = (Ok r, s') ->
  exists children : list RenderResult,
    mapM (fun x => render x params) interpolations s = (Ok children, s')
    /\ content r = weave strings (map content children)
    /\ (hasLineBreak (content r) <->
        (exists f, In f strings /\ hasLineBreak f)
        \/ (exists c, In c children /\ hasLineBreak (content c))).
Proof.
  intros H. apply inline_render_ok in H as (children & Hc & _ & Hi).
  exists children. split; [exact Hc |]. split; [now apply interpolate_ok_weave |].
  apply interpolate_ok in Hi as (_ & _ & Hinc).
  rewrite hasLineBreak_includes, Hinc, orb_true_iff, existsb_hasLineBreak,
    existsb_content_hasLineBreak. reflexivity.
Qed.

(** The fragments the source computes with [strings.map((s, i) => ...)]
    are the fragments of the specification. *)
Lemma imap_brokenFragment (indent : string) (strings : list string) :
  imap (brokenFragment indent) strings = brokenFragments indent strings.
Proof.
  destruct strings as [|first later]; [reflexivity |].
  rewrite imap_cons. cbn [brokenFragments]. f_equal.
  rewrite (imap_ext _ (const (fun f => if String.eqb (trim f) "" then ""
                                        else newline +:+ indent +:+ trim f)) later)
    by (intros i x _; unfold compose, const, brokenFragment; cbn [Nat.eqb];
        destruct (String.eqb_spec (trim x) "") as [-> |]; reflexivity).
  now rewrite imap_const.
Qed.

(** X7.  The content of a Block.  Not multiline: the fragments and the
    children's contents in template order.  Multiline: the trimmed first
    fragment, every child's trimmed content on a line of its own behind
    the child indent, every later fragment that is not empty after
    trimming on a line of its own behind the indent, and nothing for a
    later fragment that is; so a multiline Block with a child does hold
    a line break, while a multiline Block without children is just its
    trimmed fragment. *)
Theorem block_layout (strings : list string) (interpolations : list value)
    (params : RenderParams) (s : gset addr) (r : RenderResult) (s' : gset addr) :
  block_render render strings interpolations params s = (Ok r, s') ->
  exists children : list RenderResult,
    mapM (fun x => render x (childParams params)) interpolations s = (Ok children, s')
    /\ (isMultiline r = false -> content r = weave strings (map content children))
    /\ (isMultiline r = true ->
        content r
        = weave (brokenFragments (indent params) strings)
            (map (fun x => newline +:+ indent params +:+ indentIncrement params
                           +:+ trim (content x))
                 children)
        /\ (forall opening closing c,
              strings = [opening; closing] -> children = [c] ->
              content r
              = trim opening +:+ newline +:+ indent params +:+ indentIncrement params
                +:+ trim (content c)
                +:+ (if String.eqb (trim closing) "" then ""
                     else newline +:+ indent params +:+ trim closing))
        /\ (interpolations <> [] -> hasLineBreak (content r))
        /\ (interpolations = [] -> exists f, strings = [f] /\ content r = trim f)).
Proof.
  intros H. apply block_render_ok in H as (children & Hc & _ & Hi).
  exists children. split; [exact Hc |]. split.
  - intros Hm. rewrite Hm in Hi. now apply interpolate_ok_weave.
  - intros Hm. rewrite Hm in Hi. pose proof (mapM_length _ _ _ _ _ Hc) as Hlen.
    pose proof (interpolate_ok _ _ _ Hi) as (Hcount & _ & Hinc).
    rewrite imap_brokenFragment in Hi. apply interpolate_ok_weave in Hi as Hw.
    unfold childParams in Hw. cbn [indent] in Hw.
    assert (forall x, newline +:+ (indent params +:+ indentIncrement params) +:+ trim (content x)
                      = newline +:+ indent params +:+ indentIncrement params
                        +:+ trim (content x)) as Hassoc
      by (intros x; now rewrite !append_assoc).
    rewrite (map_ext _ _ Hassoc) in Hw.
    split; [exact Hw |]. split; [| split].
    + intros opening closing c -> ->. rewrite Hw. cbn [brokenFragments map weave content].
      now rewrite !append_assoc.
    + intros Hne. apply hasLineBreak_includes. rewrite Hinc.
      destruct children as [|c children];
        [destruct interpolations; [congruence | discriminate] |].
      cbn [map existsb includes newline String.append]. cbn. now rewrite orb_true_r.
    + intros ->. destruct children; [| discriminate].
      rewrite length_imap in Hcount. cbn [map length] in Hcount.
      destruct strings as [|f [|g strings]]; try discriminate.
      exists f. split; [reflexivity |]. exact Hw.
Qed.

(** X8.  The content of a List: the contents of the items (sorted when
    asked) joined by the joiner when the result is not multiline, and by
    the joiner without its trailing white space, a line break and the
    indent when it is.  A multiline List of two or more items holds a
    line break; a List of one item is that item's content, and an empty
    List is the empty text, whatever the joiner. *)
Theorem list_layout (joiner : string) (items : list value) (sort : bool)
    (params : RenderParams) (s : gset addr) (r : RenderResult) (s' : gset addr) :
  list_render render joiner items sort params s = (Ok r, s') ->
  exists rendered : list RenderResult,
    mapM (fun x => render x params) items s = (Ok rendered, s')
    /\ let shown := if sort then sortRendered rendered else rendered in
       (isMultiline r = false -> content r = join joiner (map content shown))
       /\ (isMultiline r = true ->
           content r = join (trimEnd joiner +:+ newline +:+ indent params) (map content shown)
           /\ (2 <= length items -> hasLineBreak (content r)))
       /\ (items = [] -> content r = "")
       /\ (forall e, rendered = [e] -> content r = content e).
Proof.
  intros H. apply list_render_ok in H as (rendered & Hr & _ & Hc).
  exists rendered. split; [exact Hr |]. cbv zeta.
  pose proof (mapM_length _ _ _ _ _ Hr) as Hlen.
  split; [| split; [| split]].
  - intros Hm. now rewrite Hm in Hc.
  - intros Hm. rewrite Hm in Hc. split; [exact Hc |].
    intros Hitems. apply hasLineBreak_includes. rewrite Hc.
    apply includes_join_separator.
    + rewrite length_map. destruct sort; [| lia].
      rewrite (Permutation_length (sortRendered_perm rendered)). lia.
    + rewrite !includes_append. cbn. now rewrite orb_true_r.
  - intros ->. destruct rendered; [| discriminate]. rewrite Hc. now destruct sort.
  - intros e ->. rewrite Hc. now destruct sort.
Qed.

(** X9.  A Block or Inline node that its constructor has returned never
    fails on its own account: when the context's [render] returns for
    every child, the node's render method returns a result. *)
Theorem constructed_node_renders (toStr : value -> outcome string)
    (strings : list string) (interpolations : list value) (n : node value)
    (params : RenderParams) (s : gset addr) (rendered : list RenderResult) (s' : gset addr) :
  (block strings interpolations = Ok n ->
   mapM (fun x => render x (childParams params)) interpolations s = (Ok rendered, s') ->
   exists r, node_render render toStr n params s = (Ok r, s'))
  /\ (inline strings interpolations = Ok n ->
      mapM (fun x => render x params) interpolations s = (Ok rendered, s') ->
      exists r, node_render render toStr n params s = (Ok r, s')).
Proof.
  split; intros Hn Hmap; pose proof (mapM_length _ _ _ _ _ Hmap) as Hlen.
  - unfold block in Hn.
    destruct (Nat.eqb_spec (length strings) (length interpolations + 1)) as [Heq |];
      [| discriminate].
    injection Hn as <-. cbn [node_render]. unfold block_render, bindM.
    unfold childParams in Hmap. rewrite Hmap. unfold lift, ret.
    destruct (existsb _ _ || _ || _).
    + rewrite interpolate_weave by (rewrite length_imap, length_map; lia). now eexists.
    + rewrite interpolate_weave by (rewrite length_map; lia). now eexists.
  - unfold inline in Hn.
    destruct (Nat.eqb_spec (length strings) (length interpolations + 1)) as [Heq |];
      [| discriminate].
    injection Hn as <-. cbn [node_render]. unfold inline_render, bindM.
    rewrite Hmap. unfold lift, ret.
    rewrite interpolate_weave by (rewrite length_map; lia). now eexists.
Qed.

End Layout.

(** [inline`a ${text`foo`} c`]. *)
Lemma inline_adds_no_line_break_witness :
  exists children : list RenderResult,
    mapM (fun x => render emptyHeap 1 x defaultParams) [VNode (NText ["foo"] [])] ∅
    = (Ok children, ∅)
    /\ "a foo c" = weave ["a "; " c"] (map content children)
    /\ (hasLineBreak "a foo c" <->
        (exists f, In f ["a "; " c"] /\ hasLineBreak f)
        \/ (exists c, In c children /\ hasLineBreak (content c))).
Proof.
  apply (inline_adds_no_line_break (render emptyHeap 1) ["a "; " c"]
           [VNode (NText ["foo"] [])] defaultParams ∅
           {| isMultiline := false; content := "a foo c" |} ∅).
  vm_compute. reflexivity.
Defined.

(** [block`(${text`a`} ${text`b`})`] at wrap width 0: the fragment
    between the two children is empty after trimming and leaves no line. *)
Lemma block_layout_witness :
  exists children : list RenderResult,
    mapM (fun x => render emptyHeap 1 x (childParams (atWidth 0)))
      [VNode (NText ["a"] []); VNode (NText ["b"] [])] ∅ = (Ok children, ∅)
    /\ "(" +:+ newline +:+ "  a" +:+ newline +:+ "  b" +:+ newline +:+ ")"
       = weave (brokenFragments "" ["("; " "; ")"])
           (map (fun x => newline +:+ "" +:+ "  " +:+ trim (content x)) children).
Proof.
  destruct (block_layout (render emptyHeap 1) ["("; " "; ")"]
              [VNode (NText ["a"] []); VNode (NText ["b"] [])] (atWidth 0) ∅
              {| isMultiline := true;
                 content := "(" +:+ newline +:+ "  a" +:+ newline +:+ "  b"
                            +:+ newline +:+ ")" |} ∅)
    as (children & Hc & _ & Hm).
  - vm_compute. reflexivity.
  - exists children. split; [exact Hc |]. exact (proj1 (Hm eq_refl)).
Defined.

(** [list(', ', [1, 2, 3])] at wrap width 0. *)
Lemma list_layout_witness :
  hasLineBreak ("1," +:+ newline +:+ "2," +:+ newline +:+ "3").
Proof.
  destruct (list_layout (render emptyHeap 1) ", "
              [VPrim (PNumber 1); VPrim (PNumber 2); VPrim (PNumber 3)] false
              {| wrapWidth := Finite 0; indent := ""; indentIncrement := "  " |} ∅
              {| isMultiline := true;
                 content := "1," +:+ newline +:+ "2," +:+ newline +:+ "3" |} ∅)
    as (rendered & _ & _ & Hm & _).
  - vm_compute. reflexivity.
  - apply Hm; [reflexivity | simpl; lia].
Defined.

(** [block`[${1}]`]. *)
Lemma constructed_node_renders_witness :
  exists r,
    node_render (render emptyHeap 1) (toStringWith emptyHeap (render emptyHeap 1))
      (NBlock ["["; "]"] [VPrim (PNumber 1)]) defaultParams ∅ = (Ok r, ∅).
Proof.
  refine (proj1 (constructed_node_renders (render emptyHeap 1)
                   (toStringWith emptyHeap (render emptyHeap 1))
                   ["["; "]"] [VPrim (PNumber 1)] (NBlock ["["; "]"] [VPrim (PNumber 1)])
                   defaultParams ∅ [{| isMultiline := false; content := "1" |}] ∅) _ _).
  - reflexivity.
  - vm_compute. reflexivity.
Defined.

(** ** Primitives *)

Section Primitives.

Lemma uint_no_line_break (d : Decimal.uint) :
  includes LF (NilEmpty.string_of_uint d) = false.
Proof. induction d; simpl; auto. Qed.

Lemma decimal_no_line_break (n : Z) : includes LF (decimal n) = false.
Proof.
  unfold decimal, NilZero.string_of_int, NilZero.string_of_uint.
  destruct (Z.to_int n) as [d | d]; destruct d; cbn [includes];
    try reflexivity; apply uint_no_line_break.
Qed.

Lemma primText_no_line_break (p : prim) : includes LF (primText p) = false.
Proof.
  destruct p as [| | b | n | n | s | d]; cbn [primText]; try reflexivity.
  - now destruct b.
  - apply decimal_no_line_break.
  - apply decimal_no_line_break.
  - apply stringifyStringLiteral_no_line_break.
Qed.

End Primitives.

(** X10.  A primitive other than a symbol renders on one line, whatever
    the wrap width and the indent: [undefined], [null], [true] or
    [false], the decimal digits of a bigint or of a Number that is a safe
    integer, the quoted and escaped literal of a string.  On a symbol
    [stringify] throws a TypeError, since the text node of the formatter
    coerces the symbol to a string. *)
Theorem primitive_renders_on_one_line (h : Heap) (fuel : nat) (p : prim)
    (params : RenderParams) (s : gset addr) :
  (isSymbol (VPrim p) = false ->
   printsPlain p = true ->
   render h (S fuel) (VPrim p) params s
   = (Ok {| isMultiline := false; content := primText p |}, s))
  /\ (isSymbol (VPrim p) = true ->
      render h (S fuel) (VPrim p) params s
      = (Throw (JsTypeError "Cannot convert a Symbol value to a string"), s)).
Proof.
  cbn [render]. pose proof (primText_no_line_break p) as Hlf.
  destruct p as [| | b | n | n | str | d];
    cbn [isSymbol defaultFormatterPrim node_render primText] in *;
    unfold lift; (split; [intros Hs _ | intros Hs]; try discriminate Hs); try reflexivity.
  - destruct b; reflexivity.
  - erewrite text_render_single; [reflexivity | reflexivity | | exact Hlf].
    cbn [interpolate interpolateLoop]. now rewrite append_empty_r.
  - erewrite text_render_single; [reflexivity | reflexivity | | exact Hlf].
    cbn [interpolate interpolateLoop]. now rewrite append_empty_r.
  - erewrite text_render_single; [reflexivity | reflexivity | | exact Hlf].
    cbn [interpolate interpolateLoop]. now rewrite append_empty_r.
Qed.

(** The number -5 and the bigint 10 ^ 21 at wrap width 0. *)
Lemma primitive_renders_on_one_line_witness :
  render emptyHeap 1 (VPrim (PNumber (-5))) (atWidth 0) ∅
  = (Ok {| isMultiline := false; content := "-5" |}, ∅)
  /\ render emptyHeap 1 (VPrim (PBigInt (10 ^ 21))) (atWidth 0) ∅
     = (Ok {| isMultiline := false; content := "1000000000000000000000" |}, ∅).
Proof.
  split.
  - apply (proj1 (primitive_renders_on_one_line emptyHeap 0 (PNumber (-5)) (atWidth 0) ∅));
      reflexivity.
  - apply (proj1 (primitive_renders_on_one_line emptyHeap 0 (PBigInt (10 ^ 21)) (atWidth 0) ∅));
      reflexivity.
Defined.

(** ** String literals, further *)

Section Escaping.

Lemma lookupSubstitute_free (c x : ascii) :
  matchesEscapePattern c = true -> c <> BACKSLASH ->
  includes c (lookupSubstitute escapeSubstitutes x) = false.
Proof.
  intros Hc Hb. unfold matchesEscapePattern in Hc. rewrite !orb_true_iff in Hc.
  assert (forall k, Ascii.eqb c k = true -> c = k) as Heq by (intros k; apply Ascii.eqb_eq).
  destruct Hc as [[[[[[[[Hc | Hc] | Hc] | Hc] | Hc] | Hc] | Hc] | Hc] | Hc];
    apply Heq in Hc; subst c; try congruence;
    unfold escapeSubstitutes; cbn [lookupSubstitute];
    repeat match goal with
           | |- context [if ?b then _ else _] => destruct b; [reflexivity |]
           end; reflexivity.
Qed.

(** The escaped text holds none of the characters of the pattern other
    than the backslash. *)
Lemma escapeCharsWith_free (c : ascii) (s : string) :
  matchesEscapePattern c = true -> c <> BACKSLASH ->
  includes c (escapeCharsWith escapeSubstitutes s) = false.
Proof.
  intros Hc Hb. induction s as [|x s IH]; [reflexivity |]. cbn [escapeCharsWith].
  rewrite includes_append, IH, orb_false_r.
  destruct (matchesEscapePattern x) eqn:Ex; [now apply lookupSubstitute_free |].
  cbn [includes]. rewrite orb_false_r.
  destruct (Ascii.eqb_spec x c) as [-> |]; [congruence | reflexivity].
Qed.

Lemma isEscapedControl_matches (c : ascii) :
  isEscapedControl c = true -> matchesEscapePattern c = true /\ c <> BACKSLASH.
Proof.
  unfold isEscapedControl, matchesEscapePattern. rewrite !orb_true_iff. intros H. split.
  - tauto.
  - intros ->. repeat destruct H as [H | H]; discriminate H.
Qed.

Lemma lookupSubstitute_length (x : ascii) :
  1 <= String.length (lookupSubstitute escapeSubstitutes x).
Proof.
  unfold escapeSubstitutes. cbn [lookupSubstitute].
  repeat match goal with
         | |- context [if ?b then _ else _] => destruct b; [simpl; lia |]
         end; simpl; lia.
Qed.

Lemma escapeCharsWith_length (s : string) :
  String.length s <= String.length (escapeCharsWith escapeSubstitutes s).
Proof.
  induction s as [|x s IH]; [reflexivity |]. cbn [escapeCharsWith String.length].
  rewrite length_append. pose proof (lookupSubstitute_length x).
  destruct (matchesEscapePattern x); cbn [String.length]; lia.
Qed.

(** Reading an escaped character back. *)
Lemma unescapeChars_escaped (x : ascii) (rest : string) :
  x <> QUOTE ->
  unescapeChars ((if matchesEscapePattern x then lookupSubstitute escapeSubstitutes x
                  else String x "") +:+ rest)
  = String x (unescapeChars rest).
Proof.
  intros Hq. unfold matchesEscapePattern, escapeSubstitutes. cbn [lookupSubstitute].
  rewrite !(Ascii.eqb_sym _ x).
  destruct (Ascii.eqb_spec x NUL) as [-> |]; [reflexivity |].
  destruct (Ascii.eqb_spec x BS) as [-> |]; [reflexivity |].
  destruct (Ascii.eqb_spec x FF) as [-> |]; [reflexivity |].
  destruct (Ascii.eqb_spec x LF) as [-> |]; [reflexivity |].
  destruct (Ascii.eqb_spec x CR) as [-> |]; [reflexivity |].
  destruct (Ascii.eqb_spec x TAB) as [-> |]; [reflexivity |].
  destruct (Ascii.eqb_spec x VT) as [-> |]; [reflexivity |].
  destruct (Ascii.eqb_spec x BACKSLASH) as [-> | Hb]; [reflexivity |].
  destruct (Ascii.eqb_spec x QUOTE) as [-> |]; [congruence |].
  cbn [orb String.append unescapeChars].
  destruct (Ascii.eqb_spec x BACKSLASH); [congruence | reflexivity].
Qed.

Lemma unescapeChars_escapeChars (s : string) :
  includes QUOTE s = false ->
  unescapeChars (escapeCharsWith escapeSubstitutes s) = s.
Proof.
  induction s as [|x s IH]; [reflexivity |]. cbn [includes escapeCharsWith].
  rewrite orb_false_iff. intros [Hx Hs]. rewrite unescapeChars_escaped.
  - now rewrite (IH Hs).
  - intros ->. discriminate Hx.
Qed.

Lemma append_cancel_r (a b suffix : string) : a +:+ suffix = b +:+ suffix -> a = b.
Proof.
  revert b. induction a as [|x a IH]; intros b H.
  - destruct b as [|y b]; [reflexivity |]. exfalso.
    apply (f_equal String.length) in H. cbn [String.append String.length] in H.
    rewrite length_append in H. lia.
  - destruct b as [|y b].
    + exfalso. apply (f_equal String.length) in H. cbn [String.append String.length] in H.
      rewrite length_append in H. lia.
    + cbn [String.append] in H. injection H as -> H. f_equal. now apply IH.
Qed.

End Escaping.

(** X11.  The literal [stringifyStringLiteral] returns is a single quote,
    an escaped text and a single quote, and the escaped text holds no
    NUL, backspace, form feed, line feed, carriage return, tab or
    vertical tab and no single quote: the two quotes around it are the
    only ones.  It is never shorter than the string. *)
Theorem string_literal_is_clean (s : string) :
  exists e : string,
    stringifyStringLiteral s = "'" +:+ e +:+ "'"
    /\ (forall c, isEscapedControl c = true -> includes c e = false)
    /\ includes QUOTE e = false
    /\ String.length s <= String.length e.
Proof.
  exists (escapeCharsWith escapeSubstitutes s). split; [reflexivity |].
  split; [| split].
  - intros c Hc. apply isEscapedControl_matches in Hc as [Hm Hb].
    now apply escapeCharsWith_free.
  - apply escapeCharsWith_free; [reflexivity | discriminate].
  - apply escapeCharsWith_length.
Qed.

(** X12.  Away from the single quote escaping loses nothing: two strings
    without a single quote that have the same literal are the same
    string. *)
Theorem string_literal_is_injective (s1 s2 : string) :
  includes QUOTE s1 = false ->
  includes QUOTE s2 = false ->
  stringifyStringLiteral s1 = stringifyStringLiteral s2 ->
  s1 = s2.
Proof.
  intros H1 H2 H. unfold stringifyStringLiteral in H.
  cbn [String.append] in H. injection H as H. apply append_cancel_r in H.
  rewrite <- (unescapeChars_escapeChars s1 H1), <- (unescapeChars_escapeChars s2 H2).
  now rewrite H.
Qed.

Lemma string_literal_is_injective_witness : "a\b" = "a\b".
Proof.
  apply (string_literal_is_injective "a\b" "a\b"); reflexivity.
Defined.

(** ** Arrays, sets and maps *)

Section Collections.

Variable h : Heap.

(** The block the formatter puts around the list of an array or a set:
    the items are rendered one level in, the list breaks when an item is
    multiline or the joined items pass the wrap width behind the child
    indent, and the block breaks when the list does or the one-line form
    passes the wrap width behind the indent. *)
Lemma bracketed_list_render (fuel : nat) (toStr : value -> outcome string)
    (opening closing : string) (items : list value) (sort : bool)
    (params : RenderParams) (s : gset addr) (r : RenderResult) (s' : gset addr) :
  includes LF opening = false ->
  includes LF closing = false ->
  node_render (render h (S (S fuel))) toStr
    (NBlock [opening; closing] [VNode (NList ", " items sort)]) params s = (Ok r, s') ->
  exists rendered : list RenderResult,
    Forall2 (fun x e => render h (S fuel) x (childParams params) s = (Ok e, s)) items rendered
    /\ let shown := if sort then sortRendered rendered else rendered in
       let listBreaks :=
         existsb isMultiline shown
         || exceeds (String.length (indent params) + String.length (indentIncrement params)
                     + joinedLength ", " shown) (wrapWidth params) in
       isMultiline r
       = listBreaks
         || exceeds (String.length (indent params)
                     + (String.length opening + String.length closing)
                     + joinedLength ", " shown) (wrapWidth params)
       /\ (isMultiline r = false ->
           content r = opening +:+ join ", " (map content shown) +:+ closing)
       /\ (isMultiline r = true ->
           content r
           = trim opening +:+ newline +:+ indent (childParams params)
             +:+ trim (join (if listBreaks
                             then "," +:+ newline +:+ indent (childParams params)
                             else ", ")
                            (map content shown))
             +:+ brokenFragment (indent params) 1 closing).
Proof.
  intros Hopen Hclose H. cbn [node_render] in H.
  apply block_render_ok in H as (kids & Hk & Hflag & Hcont).
  apply mapM_cons_ok in Hk as (rl & rest & s1 & Hl & Hnil & ->).
  cbn [mapM] in Hnil. unfold ret in Hnil. injection Hnil as Hrest Hs1. subst rest s1.
  rewrite render_node in Hl. cbn [node_render] in Hl.
  apply list_render_ok in Hl as (rendered & Hr & Hlflag & Hlc). cbv zeta in Hlflag, Hlc.
  pose proof (mapM_Forall2 _ _ _ _ _ (fun x s0 => render_restores h (S fuel) x _ s0) Hr) as Hall.
  exists rendered. split; [exact Hall |]. cbv zeta.
  set (shown := if sort then sortRendered rendered else rendered) in *.
  cbn [existsb map includes] in Hflag. rewrite Hopen, Hclose in Hflag.
  rewrite !sum_cons, sum_nil, !orb_false_r, Nat.add_0_r in Hflag.
  change (includes LF ", ") with false in Hlflag. rewrite orb_false_r in Hlflag.
  unfold childParams in Hlflag. cbn [indent wrapWidth] in Hlflag.
  rewrite length_append in Hlflag. fold (joinedLength ", " shown) in Hlflag.
  rewrite <- Hlflag.
  assert (isMultiline rl = false ->
          String.length (content rl) = joinedLength ", " shown) as Hlen.
  { intros Hm. rewrite Hm in Hlc. rewrite Hlc, length_join, !length_map, map_map.
    reflexivity. }
  split; [| split].
  - rewrite Hflag. destruct (isMultiline rl) eqn:Hm; [reflexivity |].
    rewrite (Hlen eq_refl). cbn [orb]. f_equal. lia.
  - intros Hm. rewrite Hm in Hcont, Hflag. symmetry in Hflag.
    apply orb_false_iff in Hflag as [Hrl _]. rewrite Hrl in Hlc.
    cbn [map content interpolate interpolateLoop] in Hcont. injection Hcont as Hcont.
    rewrite <- Hcont, Hlc. reflexivity.
  - intros Hm. rewrite Hm in Hcont.
    cbn [imap map content interpolate interpolateLoop brokenFragment Nat.eqb] in Hcont.
    injection Hcont as Hcont. rewrite <- Hcont, Hlc.
    change (trimEnd ", ") with ",". unfold childParams. cbn [indent].
    rewrite !append_assoc. reflexivity.
Qed.

(** The key of an entry is rendered as the text [stringifyKey] returns;
    an entry on one line is that text, a colon and a space, and the
    content of the rendered value. *)
Lemma entry_render_any_key (fuel : nat) (kv : value * value)
    (params : RenderParams) (s : gset addr) (e : RenderResult) :
  render h (S (S fuel)) (entryNode h kv) params s = (Ok e, s) ->
  isMultiline e = false ->
  exists rv, render h (S fuel) (snd kv) params s = (Ok rv, s)
             /\ isMultiline rv = false
             /\ content e = stringifyKey h (fst kv) +:+ ": " +:+ content rv.
Proof.
  unfold entryNode. rewrite render_node. cbn [node_render]. intros H Hm.
  apply inline_render_ok in H as (rendered & Hr & Hflag & Hc).
  rewrite Hm in Hflag. flag_false Hflag Hkids Hwidth Hbreak.
  apply mapM_cons_ok in Hr as (rk & rest & s1 & Hk & Hrest & ->).
  apply mapM_cons_ok in Hrest as (rv & rest' & s2 & Hv & Hnil & ->).
  cbn [mapM] in Hnil. unfold ret in Hnil. injection Hnil as Hrest Hs2. subst rest' s2.
  cbn [existsb] in Hkids. rewrite orb_false_r in Hkids.
  apply orb_false_iff in Hkids as [Hmk Hmv].
  rewrite render_node in Hk. cbn [node_render] in Hk. unfold lift in Hk.
  injection Hk as Hk Hs1. subst s1.
  unfold text_render in Hk. cbn [mapO toStringWith primToString bindO interpolate
                                 interpolateLoop] in Hk.
  rewrite append_empty_r in Hk.
  destruct (Nat.eqb _ 1); injection Hk as Hk; subst rk; [| discriminate Hmk].
  exists rv. split; [exact Hv |]. split; [exact Hmv |].
  cbn [map content interpolate interpolateLoop] in Hc. injection Hc as Hc.
  rewrite <- Hc. cbn [String.append]. now rewrite append_empty_r, append_assoc.
Qed.

Lemma exceeds_mono (n m : nat) (w : width) :
  n <= m -> exceeds m w = false -> exceeds n w = false.
Proof.
  intros Hle. destruct w as [z | |]; cbn [exceeds]; [| reflexivity | reflexivity].
  rewrite !Z.ltb_ge. lia.
Qed.

Lemma Forall2_single_line {A} (P Q : A -> RenderResult -> Prop)
    (l : list A) (rs : list RenderResult) :
  (forall x e, P x e -> isMultiline e = false -> Q x e) ->
  Forall2 P l rs -> existsb isMultiline rs = false -> Forall2 Q l rs.
Proof.
  intros HPQ H. induction H as [|x e l rs Hxe _ IH]; intros Hm; [constructor |].
  cbn [existsb] in Hm. apply orb_false_iff in Hm as [He Hrs].
  constructor; [now apply HPQ | now apply IH].
Qed.

(** X13.  An array is laid out from its rendered items, in their order.
    On one line it is the items joined by a comma and a space between
    square brackets; the line is kept when no item is multiline and the
    joined items fit the wrap width both behind the child indent and,
    with the two brackets, behind the indent.  Broken, the opening
    bracket ends its line, the items follow behind the child indent, one
    a line when the list itself breaks, and the closing bracket stands
    on a line of its own behind the indent.  With an indent increment of
    two characters or more the list breaks whenever the array does. *)
Theorem array_layout (fuel : nat) (a : addr) (items : list value)
    (params : RenderParams) (s : gset addr) (r : RenderResult) (s' : gset addr) :
  objects h !! a = Some (OArray items) ->
  a ∉ s ->
  render h (S (S (S fuel))) (VRef a) params s = (Ok r, s') ->
  exists rendered : list RenderResult,
    Forall2 (fun x e => render h (S fuel) x (childParams params) ({[a]} ∪ s)
                        = (Ok e, {[a]} ∪ s)) items rendered
    /\ let listBreaks :=
         existsb isMultiline rendered
         || exceeds (String.length (indent params) + String.length (indentIncrement params)
                     + joinedLength ", " rendered) (wrapWidth params) in
       isMultiline r
       = listBreaks
         || exceeds (String.length (indent params) + 2 + joinedLength ", " rendered)
                    (wrapWidth params)
       /\ (isMultiline r = false ->
           content r = "[" +:+ join ", " (map content rendered) +:+ "]")
       /\ (isMultiline r = true ->
           content r
           = "[" +:+ newline +:+ indent (childParams params)
             +:+ trim (join (if listBreaks
                             then "," +:+ newline +:+ indent (childParams params)
                             else ", ")
                            (map content rendered))
             +:+ newline +:+ indent params +:+ "]")
       /\ (2 <= String.length (indentIncrement params) -> isMultiline r = listBreaks).
Proof.
  intros Ho Ha H. rewrite (render_fresh h _ a _ params s Ho Ha) in H.
  cbn [stringifiableOf] in H.
  destruct (node_render _ _ _ _ _) as [out s1] eqn:E. cbn [fst] in H.
  injection H as -> _.
  pose proof (f_equal snd E) as Hs.
  rewrite node_render_restores in Hs by apply render_restores.
  cbn [snd] in Hs. subst s1.
  apply bracketed_list_render in E as (rendered & Hall & Hflag & Hone & Hmany);
    [| reflexivity | reflexivity].
  exists rendered. split; [exact Hall |]. cbv zeta.
  split; [exact Hflag |]. split; [exact Hone |]. split; [exact Hmany |].
  intros Hinc. rewrite Hflag.
  destruct (existsb isMultiline rendered); [reflexivity |]. cbn [orb].
  destruct (exceeds (_ + String.length (indentIncrement params) + _) _) eqn:Hex;
    [reflexivity |].
  cbn [orb]. eapply exceeds_mono; [| exact Hex]. cbn [String.length]. lia.
Qed.

(** X14.  A set is laid out as an array is, behind [Set] and with its
    items sorted by their rendered text.  The opening [Set [] and the
    closing bracket are six characters, so with an indent increment
    below six a set can break around a list that stays on one line. *)
Theorem set_layout (fuel : nat) (a : addr) (items : list value)
    (params : RenderParams) (s : gset addr) (r : RenderResult) (s' : gset addr) :
  objects h !! a = Some (OSet items) ->
  a ∉ s ->
  render h (S (S (S fuel))) (VRef a) params s = (Ok r, s') ->
  exists rendered : list RenderResult,
    Forall2 (fun x e => render h (S fuel) x (childParams params) ({[a]} ∪ s)
                        = (Ok e, {[a]} ∪ s)) items rendered
    /\ let sorted := sortRendered rendered in
       let listBreaks :=
         existsb isMultiline rendered
         || exceeds (String.length (indent params) + String.length (indentIncrement params)
                     + joinedLength ", " sorted) (wrapWidth params) in
       Permutation sorted rendered
       /\ StronglySorted contentLe sorted
       /\ isMultiline r
          = listBreaks
            || exceeds (String.length (indent params) + 6 + joinedLength ", " sorted)
                       (wrapWidth params)
       /\ (isMultiline r = false ->
           content r = "Set [" +:+ join ", " (map content sorted) +:+ "]")
       /\ (isMultiline r = true ->
           content r
           = "Set [" +:+ newline +:+ indent (childParams params)
             +:+ trim (join (if listBreaks
                             then "," +:+ newline +:+ indent (childParams params)
                             else ", ")
                            (map content sorted))
             +:+ newline +:+ indent params +:+ "]")
       /\ (6 <= String.length (indentIncrement params) -> isMultiline r = listBreaks).
Proof.
  intros Ho Ha H. rewrite (render_fresh h _ a _ params s Ho Ha) in H.
  cbn [stringifiableOf] in H.
  destruct (node_render _ _ _ _ _) as [out s1] eqn:E. cbn [fst] in H.
  injection H as -> _.
  pose proof (f_equal snd E) as Hs.
  rewrite node_render_restores in Hs by apply render_restores.
  cbn [snd] in Hs. subst s1.
  apply bracketed_list_render in E as (rendered & Hall & Hflag & Hone & Hmany);
    [| reflexivity | reflexivity].
  exists rendered. split; [exact Hall |]. cbv zeta.
  rewrite (existsb_Permutation isMultiline _ _ (sortRendered_perm rendered)) in Hflag, Hmany.
  split; [apply sortRendered_perm |]. split; [apply sortRendered_sorted |].
  split; [exact Hflag |]. split; [exact Hone |]. split; [exact Hmany |].
  intros Hinc. rewrite Hflag.
  destruct (existsb isMultiline rendered); [reflexivity |]. cbn [orb].
  destruct (exceeds (_ + String.length (indentIncrement params) + _) _) eqn:Hex;
    [reflexivity |].
  cbn [orb]. eapply exceeds_mono; [| exact Hex]. cbn [String.length]. lia.
Qed.

(** X15.  A map is the text [Map ] in front of the braces of its
    entries, on the line of the opening brace whether the braces break
    or not.  On one line the entries stand between the braces, each the
    text [stringifyKey] gives its key, a colon and a space, and its
    rendered value, sorted by their text. *)
Theorem map_layout (fuel : nat) (a : addr) (entries : list (value * value))
    (params : RenderParams) (s : gset addr) (r : RenderResult) (s' : gset addr) :
  objects h !! a = Some (OMap entries) ->
  a ∉ s ->
  render h (S (S (S (S (S fuel))))) (VRef a) params s = (Ok r, s') ->
  exists braces : RenderResult,
    render h (S (S (S (S fuel)))) (VNode (objectLike h entries)) params ({[a]} ∪ s)
    = (Ok braces, {[a]} ∪ s)
    /\ content r = "Map " +:+ content braces
    /\ isMultiline r
       = isMultiline braces
         || exceeds (String.length (indent params) + (4 + String.length (content braces)))
                    (wrapWidth params)
    /\ (isMultiline r = false ->
        exists rendered : list RenderResult,
          Forall2 (fun kv e =>
                     exists rv,
                       render h (S fuel) (snd kv) (childParams params) ({[a]} ∪ s)
                       = (Ok rv, {[a]} ∪ s)
                       /\ isMultiline rv = false
                       /\ content e = stringifyKey h (fst kv) +:+ ": " +:+ content rv)
                  entries rendered
          /\ Permutation (sortRendered rendered) rendered
          /\ StronglySorted contentLe (sortRendered rendered)
          /\ content r = "Map " +:+ bracedForm (map content (sortRendered rendered))).
Proof.
  intros Ho Ha H. rewrite (render_fresh h _ a _ params s Ho Ha) in H.
  cbn [stringifiableOf] in H.
  destruct (node_render _ _ _ _ _) as [out s1] eqn:E. cbn [fst] in H.
  injection H as -> _.
  pose proof (f_equal snd E) as Hs.
  rewrite node_render_restores in Hs by apply render_restores.
  cbn [snd] in Hs. subst s1.
  cbn [node_render] in E. apply inline_render_ok in E as (kids & Hk & Hflag & Hcont).
  apply mapM_cons_ok in Hk as (braces & rest & s1 & Hb & Hnil & ->).
  cbn [mapM] in Hnil. unfold ret in Hnil. injection Hnil as Hrest Hs1. subst rest s1.
  cbn [existsb map includes content] in Hflag.
  rewrite !sum_cons, sum_nil, !orb_false_r, !Nat.add_0_r in Hflag.
  cbn [map content interpolate interpolateLoop] in Hcont. injection Hcont as Hcont.
  rewrite append_empty_r in Hcont.
  exists braces. split; [exact Hb |]. split; [now rewrite <- Hcont |].
  split; [exact Hflag |].
  intros Hm. rewrite Hm in Hflag. symmetry in Hflag.
  apply orb_false_iff in Hflag as [Hbm _].
  rewrite render_node in Hb. unfold objectLike in Hb. fold (entryNode h) in Hb.
  apply bracketed_list_render in Hb as (rendered & Hall & Hbflag & Hone & _);
    [| reflexivity | reflexivity].
  cbv zeta in Hbflag, Hone. rewrite Hbm in Hbflag. symmetry in Hbflag.
  apply orb_false_iff in Hbflag as [Hlist _].
  apply orb_false_iff in Hlist as [Hitems _].
  rewrite (existsb_Permutation isMultiline _ _ (sortRendered_perm rendered)) in Hitems.
  exists rendered. split; [| split; [apply sortRendered_perm |
                                     split; [apply sortRendered_sorted |]]].
  - apply Forall2_map_left in Hall.
    eapply Forall2_single_line; [| exact Hall | exact Hitems].
    intros kv e He Hem. now apply entry_render_any_key.
  - rewrite <- Hcont, (Hone Hbm). reflexivity.
Qed.

End Collections.

(** The array [[3, 1, 2]] at wrap width 5: one item a line. *)
Lemma array_layout_witness :
  exists rendered : list RenderResult,
    Forall2 (fun x e => render collections 1 x (childParams (atWidth 5)) ({[1%positive]} ∪ ∅)
                        = (Ok e, {[1%positive]} ∪ ∅))
      [VPrim (PNumber 3); VPrim (PNumber 1); VPrim (PNumber 2)] rendered
    /\ "[" +:+ newline +:+ "  3," +:+ newline +:+ "  1," +:+ newline +:+ "  2" +:+ newline +:+ "]"
       = "[" +:+ newline +:+ "  "
         +:+ trim (join ("," +:+ newline +:+ "  ") (map content rendered))
         +:+ newline +:+ "]".
Proof.
  destruct (array_layout collections 0 1%positive
              [VPrim (PNumber 3); VPrim (PNumber 1); VPrim (PNumber 2)] (atWidth 5) ∅
              {| isMultiline := true;
                 content := "[" +:+ newline +:+ "  3," +:+ newline +:+ "  1," +:+ newline
                            +:+ "  2" +:+ newline +:+ "]" |} ∅)
    as (rendered & Hall & Hflag & _ & Hmany & Hinc).
  - reflexivity.
  - apply not_elem_of_empty.
  - vm_compute. reflexivity.
  - exists rendered. split; [exact Hall |].
    cbn [isMultiline content] in *. rewrite <- (Hinc ltac:(cbn; lia)) in Hmany.
    exact (Hmany eq_refl).
Defined.

(** The set of 3, 1 and 2 at wrap width 10: the block breaks, the list
    of the sorted items stays on one line. *)
Lemma set_layout_witness :
  exists rendered : list RenderResult,
    Permutation (sortRendered rendered) rendered
    /\ "Set [" +:+ newline +:+ "  1, 2, 3" +:+ newline +:+ "]"
       = "Set [" +:+ newline +:+ "  "
         +:+ trim (join (if existsb isMultiline rendered
                            || exceeds (0 + 2 + joinedLength ", " (sortRendered rendered))
                                 (Finite 10)
                         then "," +:+ newline +:+ "  " else ", ")
                     (map content (sortRendered rendered)))
         +:+ newline +:+ "]".
Proof.
  destruct (set_layout collections 0 2%positive
              [VPrim (PNumber 3); VPrim (PNumber 1); VPrim (PNumber 2)] (atWidth 10) ∅
              {| isMultiline := true;
                 content := "Set [" +:+ newline +:+ "  1, 2, 3" +:+ newline +:+ "]" |} ∅)
    as (rendered & _ & Hperm & _ & _ & _ & Hmany & _).
  - reflexivity.
  - apply not_elem_of_empty.
  - vm_compute. reflexivity.
  - exists rendered. split; [exact Hperm |]. exact (Hmany eq_refl).
Defined.

(** The map of ['b'] to 1 and 7 to 2 without options. *)
Lemma map_layout_witness :
  exists rendered : list RenderResult,
    StronglySorted contentLe (sortRendered rendered)
    /\ "Map { [7]: 2, b: 1 }" = "Map " +:+ bracedForm (map content (sortRendered rendered)).
Proof.
  destruct (map_layout collections 0 3%positive
              [(VPrim (PString "b"), VPrim (PNumber 1)); (VPrim (PNumber 7), VPrim (PNumber 2))]
              defaultParams ∅
              {| isMultiline := false; content := "Map { [7]: 2, b: 1 }" |} ∅)
    as (braces & _ & _ & _ & Hone).
  - reflexivity.
  - apply not_elem_of_empty.
  - vm_compute. reflexivity.
  - destruct (Hone eq_refl) as (rendered & _ & _ & Hsorted & Hc).
    exists rendered. split; [exact Hsorted | exact Hc].
Defined.

(** ** More room *)

Section MoreRoom.

Lemma exceeds_roomier (p p' : RenderParams) (n : nat) :
  roomier p p' ->
  exceeds (String.length (indent p) + n) (wrapWidth p) = false ->
  exceeds (String.length (indent p') + n) (wrapWidth p') = false.
Proof.
  intros (Hw & Hi & _). unfold widthLe in Hw.
  destruct (wrapWidth p') as [z' | |]; cbn [exceeds]; [| reflexivity | reflexivity].
  destruct (wrapWidth p) as [z | |]; [| contradiction | contradiction].
  cbn [exceeds]. rewrite !Z.ltb_ge. lia.
Qed.

Lemma roomier_childParams (p p' : RenderParams) :
  roomier p p' -> roomier (childParams p) (childParams p').
Proof.
  intros (Hw & Hi & Hinc). unfold roomier, childParams. cbn [wrapWidth indent indentIncrement].
  rewrite !length_append. repeat split; [exact Hw | lia | lia].
Qed.

(** A Text that renders on one line does so in every context. *)
Lemma text_render_keeps (toStr : value -> outcome string)
    (strings : list string) (interpolations : list value)
    (p p' : RenderParams) (r : RenderResult) :
  text_render toStr strings interpolations p = Ok r ->
  isMultiline r = false ->
  text_render toStr strings interpolations p' = Ok r.
Proof.
  unfold text_render. destruct (mapO toStr interpolations) as [coerced | |];
    cbn [bindO]; try discriminate.
  destruct (interpolate strings coerced) as [t | |]; cbn [bindO]; try discriminate.
  destruct (Nat.eqb _ 1); intros H Hm; [exact H |].
  injection H as <-. discriminate Hm.
Qed.

Section Callback.

Variable render : Render.
Hypothesis render_keeps : keepsSingleLine render.

Lemma mapM_keeps (q q' : RenderParams) (l : list value) (s : gset addr)
    (rs : list RenderResult) (s' : gset addr) :
  roomier q q' ->
  mapM (fun x => render x q) l s = (Ok rs, s') ->
  existsb isMultiline rs = false ->
  mapM (fun x => render x q') l s = (Ok rs, s').
Proof.
  intros Hq. revert s rs. induction l as [|x l IH]; intros s rs H Hm; [exact H |].
  apply mapM_cons_ok in H as (y & ys & s1 & Hx & Hl & ->).
  cbn [existsb] in Hm. apply orb_false_iff in Hm as [Hy Hys].
  cbn [mapM]. unfold bindM.
  rewrite (render_keeps _ _ _ _ _ _ Hq Hx Hy), (IH _ _ Hl Hys). reflexivity.
Qed.

Lemma node_render_keeps (toStr : value -> outcome string) (n : node value)
    (p p' : RenderParams) (s : gset addr) (r : RenderResult) (s' : gset addr) :
  roomier p p' ->
  node_render render toStr n p s = (Ok r, s') ->
  isMultiline r = false ->
  node_render render toStr n p' s = (Ok r, s').
Proof.
  intros Hp H Hm. destruct n as [strings vs | strings vs | strings vs | joiner items sort];
    cbn [node_render] in *.
  - unfold lift in *. injection H as H <-.
    now rewrite (text_render_keeps _ _ _ _ p' _ H Hm).
  - apply block_render_ok in H as (kids & Hk & Hflag & Hcont).
    rewrite Hm in Hflag, Hcont. flag_false Hflag Hkids Hwidth Hbreak.
    pose proof (mapM_keeps _ _ _ _ _ _ (roomier_childParams _ _ Hp) Hk Hkids) as Hk'.
    unfold block_render, bindM. unfold childParams in Hk'. rewrite Hk'.
    rewrite Hkids, Hbreak, (exceeds_roomier _ _ _ Hp Hwidth). cbn [orb].
    unfold lift, ret. rewrite Hcont. destruct r as [m c]. cbn [isMultiline content] in *.
    now subst m.
  - apply inline_render_ok in H as (kids & Hk & Hflag & Hcont).
    rewrite Hm in Hflag. flag_false Hflag Hkids Hwidth Hbreak.
    pose proof (mapM_keeps _ _ _ _ _ _ Hp Hk Hkids) as Hk'.
    unfold inline_render, bindM. rewrite Hk'.
    rewrite Hkids, Hbreak, (exceeds_roomier _ _ _ Hp Hwidth). cbn [orb].
    unfold lift, ret. rewrite Hcont. destruct r as [m c]. cbn [isMultiline content] in *.
    now subst m.
  - apply list_render_ok in H as (rendered & Hr & Hflag & Hcont). cbv zeta in Hflag, Hcont.
    rewrite Hm in Hflag, Hcont. flag_false Hflag Hkids Hwidth Hbreak.
    assert (existsb isMultiline rendered = false) as Hkids'.
    { destruct sort; [| exact Hkids].
      now rewrite <- (existsb_Permutation isMultiline _ _ (sortRendered_perm rendered)). }
    pose proof (mapM_keeps _ _ _ _ _ _ Hp Hr Hkids') as Hr'.
    unfold list_render, bindM. rewrite Hr'.
    rewrite Hkids, Hbreak, (exceeds_roomier _ _ _ Hp Hwidth). cbn [orb].
    unfold ret. rewrite <- Hcont. destruct r as [m c]. cbn [isMultiline content] in *.
    now subst m.
Qed.

End Callback.

Lemma render_keepsSingleLine (h : Heap) (fuel : nat) : keepsSingleLine (render h fuel).
Proof.
  induction fuel as [|fuel IH]; intros v p p' s r s' Hp H Hm; [discriminate H |].
  rewrite render_step in H. rewrite render_step. cbv zeta in *.
  destruct v as [q | a | n].
  - now apply (node_render_keeps _ IH _ _ p).
  - destruct (decide (a ∈ s)); [now apply (node_render_keeps _ IH _ _ p) |].
    destruct (objects h !! a) as [o |]; [| discriminate H].
    destruct (node_render _ _ _ p _) as [out s1] eqn:E. injection H as -> <-.
    now rewrite (node_render_keeps _ IH _ _ p p' _ _ _ Hp E Hm).
  - now apply (node_render_keeps _ IH _ _ p).
Qed.

End MoreRoom.

(** X16.  More room never changes a single-line result: when a value
    renders on one line, it renders to the same result under every wrap
    width that is not smaller (an infinite or NaN width included) with
    an indent and an indent increment that are not longer. *)
Theorem more_room_keeps_single_line (h : Heap) (fuel : nat) (v : value)
    (p p' : RenderParams) (s : gset addr) (r : RenderResult) (s' : gset addr) :
  roomier p p' ->
  render h fuel v p s = (Ok r, s') ->
  isMultiline r = false ->
  render h fuel v p' s = (Ok r, s').
Proof. apply render_keepsSingleLine. Qed.

(** The array [[3, 1, 2]] fits wrap width 9, and so wrap width 100. *)
Lemma more_room_keeps_single_line_witness :
  render collections 3 (VRef 1%positive) (atWidth 100) ∅
  = (Ok {| isMultiline := false; content := "[3, 1, 2]" |}, ∅).
Proof.
  apply (more_room_keeps_single_line collections 3 (VRef 1%positive) (atWidth 9) (atWidth 100)).
  - repeat split; cbn; lia.
  - vm_compute. reflexivity.
  - reflexivity.
Defined.

(** ** Well-formed values *)

Section WellFormed.

Variable h : Heap.

Lemma plainPrim_isPrim (l : list value) :
  forallb plainPrim l = true -> forallb isPrim l = true.
Proof.
  induction l as [|x l IH]; [reflexivity |]. cbn [forallb]. rewrite !andb_true_iff.
  intros [Hx Hl]. split; [| now apply IH]. now destruct x.
Qed.

Lemma wellFormed_textPlain : forall v, wellFormed h v = true -> textPlain v = true.
Proof.
  fix IH 1. intros [p | a | n]; [reflexivity | reflexivity |].
  destruct n as [strings vs | strings vs | strings vs | joiner items sort];
    cbn [wellFormed textPlain]; rewrite ?andb_true_iff.
  - intros [_ H]. now apply plainPrim_isPrim.
  - intros [_ H]. induction vs as [|x l IHl]; [reflexivity |].
    cbn [forallb] in *. apply andb_true_iff in H as [Hx Hl].
    rewrite (IH x Hx). now apply IHl.
  - intros [_ H]. induction vs as [|x l IHl]; [reflexivity |].
    cbn [forallb] in *. apply andb_true_iff in H as [Hx Hl].
    rewrite (IH x Hx). now apply IHl.
  - intros H. induction items as [|x l IHl]; [reflexivity |].
    cbn [forallb] in *. apply andb_true_iff in H as [Hx Hl].
    rewrite (IH x Hx). now apply IHl.
Qed.

Lemma heapWellFormed_textPlain : heapWellFormed h = true -> heapTextPlain h = true.
Proof.
  unfold heapWellFormed, heapTextPlain. rewrite !forallb_forall.
  intros H n Hn. apply wellFormed_textPlain. now apply H.
Qed.

Lemma mapO_plainPrim (render : Render) (l : list value) :
  forallb plainPrim l = true ->
  exists coerced, mapO (toStringWith h render) l = Ok coerced.
Proof.
  induction l as [|x l IH]; [now exists [] |]. cbn [forallb]. rewrite andb_true_iff.
  intros [Hx Hl]. destruct (IH Hl) as (coerced & Hc). cbn [mapO]. rewrite Hc.
  destruct x as [p | a | n]; [| discriminate | discriminate].
  destruct p; try discriminate; cbn [toStringWith primToString bindO]; now eexists.
Qed.

Lemma mapM_noThrow {A B} (f : A -> M B) (l : list A) (s : gset addr) :
  (forall x s0, In x l -> noThrow (fst (f x s0))) ->
  noThrow (fst (mapM f l s)).
Proof.
  revert s. induction l as [|x l IH]; intros s Hf; [exact I |].
  cbn [mapM]. unfold bindM.
  pose proof (Hf x s (or_introl eq_refl)) as Hx.
  destruct (f x s) as [[y | e |] s1]; [| exact Hx | exact I].
  pose proof (IH s1 (fun z s0 Hz => Hf z s0 (or_intror Hz))) as Hl.
  destruct (mapM f l s1) as [[ys | e |] s2]; [exact I | exact Hl | exact I].
Qed.

Lemma forallb_In {A} (p : A -> bool) (l : list A) (x : A) :
  forallb p l = true -> In x l -> p x = true.
Proof. intros H Hx. rewrite forallb_forall in H. now apply H. Qed.

(** A well-formed node throws only where a child does. *)
Lemma node_render_noThrow (render inner : Render) (n : node value)
    (params : RenderParams) (s : gset addr) :
  wellFormed h (VNode n) = true ->
  (forall c p s0, wellFormed h c = true -> noThrow (fst (render c p s0))) ->
  noThrow (fst (node_render render (toStringWith h inner) n params s)).
Proof.
  intros Hn Hr. destruct n as [strings vs | strings vs | strings vs | joiner items sort];
    cbn [wellFormed node_render] in *.
  - apply andb_true_iff in Hn as [Hcount Hvs]. apply Nat.eqb_eq in Hcount.
    destruct (mapO_plainPrim inner vs Hvs) as (coerced & Hc).
    pose proof (mapO_length _ _ _ Hc) as Hlen.
    unfold lift, text_render. cbn [fst]. rewrite Hc. cbn [bindO].
    rewrite interpolate_weave by lia. cbn [bindO]. now destruct (Nat.eqb _ 1).
  - apply andb_true_iff in Hn as [Hcount Hvs]. apply Nat.eqb_eq in Hcount.
    unfold block_render, bindM.
    pose proof (mapM_noThrow
                  (fun x => render x {| wrapWidth := wrapWidth params;
                                        indent := indent params +:+ indentIncrement params;
                                        indentIncrement := indentIncrement params |})
                  vs s
                  (fun x s0 Hx => Hr x _ s0 (forallb_In _ _ _ Hvs Hx))) as Hm.
    destruct (mapM _ vs s) as [[rs | e |] s1] eqn:E; [| exact Hm | exact I].
    pose proof (mapM_length _ _ _ _ _ E) as Hlen. unfold lift, ret.
    destruct (existsb _ _ || _ || _).
    + rewrite interpolate_weave by (rewrite length_imap, length_map; lia). exact I.
    + rewrite interpolate_weave by (rewrite length_map; lia). exact I.
  - apply andb_true_iff in Hn as [Hcount Hvs]. apply Nat.eqb_eq in Hcount.
    unfold inline_render, bindM.
    pose proof (mapM_noThrow (fun x => render x params) vs s
                  (fun x s0 Hx => Hr x _ s0 (forallb_In _ _ _ Hvs Hx))) as Hm.
    destruct (mapM _ vs s) as [[rs | e |] s1] eqn:E; [| exact Hm | exact I].
    pose proof (mapM_length _ _ _ _ _ E) as Hlen. unfold lift, ret.
    rewrite interpolate_weave by (rewrite length_map; lia). exact I.
  - unfold list_render, bindM.
    pose proof (mapM_noThrow (fun x => render x params) items s
                  (fun x s0 Hx => Hr x _ s0 (forallb_In _ _ _ Hn Hx))) as Hm.
    destruct (mapM _ items s) as [[rs | e |] s1] eqn:E; [exact I | exact Hm | exact I].
Qed.

Lemma defaultFormatterPrim_wellFormed (p : prim) :
  plainPrim (VPrim p) = true -> wellFormed h (VNode (defaultFormatterPrim p)) = true.
Proof. destruct p; intros H; try discriminate H; reflexivity. Qed.

Hypothesis heap_wellFormed : heapWellFormed h = true.

Lemma render_noThrow (fuel : nat) (v : value) (params : RenderParams) (s : gset addr) :
  wellFormed h v = true -> noThrow (fst (render h fuel v params s)).
Proof.
  revert v params s. induction fuel as [|fuel IH]; intros v params s Hv; [exact I |].
  rewrite render_step. cbv zeta. destruct v as [p | a | n].
  - apply node_render_noThrow; [| exact IH]. now apply defaultFormatterPrim_wellFormed.
  - destruct (decide (a ∈ s)); [apply node_render_noThrow; [reflexivity | exact IH] |].
    cbn [wellFormed] in Hv. destruct (objects h !! a) as [o |] eqn:Ho; [| discriminate Hv].
    pose proof (node_render_noThrow (render h fuel) (render h fuel) (stringifiableOf h o)
                  params ({[a]} ∪ s)
                  (forallb_In _ _ _ heap_wellFormed (heapNodes_lookup h a o Ho)) IH) as Hn.
    now destruct (node_render _ _ _ _ _) as [out s1].
  - apply node_render_noThrow; [exact Hv | exact IH].
Qed.

End WellFormed.

(** X17.  On a well-formed value graph, cyclic or not, [stringify]
    returns a string: when every object of the heap and the value itself
    are free of symbols and of addresses without an object, every
    template has one more fragment than interpolations and every Text
    interpolates primitives only, the call neither throws nor runs on,
    and the fuel of [fuelBound] or more gives that string. *)
Theorem well_formed_value_stringifies (h : Heap) (v : value) (opts : StringifyOpts) :
  heapWellFormed h = true ->
  wellFormed h v = true ->
  exists out : string,
    forall fuel, fuelBound h v <= fuel -> stringify h fuel v opts = Ok out.
Proof.
  intros Hheap Hv.
  pose proof (heapWellFormed_textPlain h Hheap) as Hplain.
  pose proof (wellFormed_textPlain h v Hv) as Hvplain.
  pose proof (render_ended h Hplain (fuelBound h v) v (paramsOf opts) ∅ Hvplain) as Hend.
  rewrite difference_empty_L in Hend. specialize (Hend ltac:(unfold fuelBound; lia)).
  pose proof (render_noThrow h Hheap (fuelBound h v) v (paramsOf opts) ∅ Hv) as Hno.
  destruct (render h (fuelBound h v) v (paramsOf opts) ∅) as [[r | e |] s1] eqn:E;
    [| contradiction | now destruct Hend].
  exists (content r). intros fuel Hfuel.
  assert (stringify h (fuelBound h v) v opts = Ok (content r)) as Hs.
  { unfold stringify, stringifyWith. now rewrite E. }
  rewrite <- Hs. apply stringify_fuel_le; [exact Hfuel |]. now rewrite Hs.
Qed.

(** The array that holds itself, [arr] of [circularArray]. *)
Lemma well_formed_value_stringifies_witness :
  exists out : string,
    forall fuel, fuelBound circularArray (VRef 1%positive) <= fuel ->
      stringify circularArray fuel (VRef 1%positive) noOpts = Ok out.
Proof.
  apply (well_formed_value_stringifies circularArray (VRef 1%positive) noOpts).
  - vm_compute. reflexivity.
  - reflexivity.
Defined.

(** ** Keys *)

(** X18.  The text of a key holds a line break only for a symbol whose
    description holds one: a string key is a name or an escaped literal,
    and every other key is a fixed or numeric text between brackets. *)
Theorem key_text_line_break (h : Heap) (k : value) :
  includes LF (stringifyKey h k) = true
  <-> exists d, k = VPrim (PSymbol d) /\ includes LF d = true.
Proof.
  destruct k as [p | a | n]; cbn [stringifyKey].
  - destruct p as [| | b | z | z | str | d].
    + split; [discriminate | intros (d & H & _); discriminate H].
    + split; [discriminate | intros (d & H & _); discriminate H].
    + split; [now destruct b | intros (d & H & _); discriminate H].
    + rewrite !includes_append, decimal_no_line_break.
      split; [discriminate | intros (d & H & _); discriminate H].
    + rewrite !includes_append, decimal_no_line_break.
      split; [discriminate | intros (d & H & _); discriminate H].
    + fold (keyText str). rewrite keyText_no_line_break.
      split; [discriminate | intros (d & H & _); discriminate H].
    + rewrite !includes_append.
      change (includes LF "[") with false. change (includes LF "Symbol(") with false.
      change (includes LF ")") with false. change (includes LF "]") with false.
      cbn [orb]. rewrite !orb_false_r. split.
      * intros H. now exists d.
      * intros (d' & H & Hd). now injection H as <-.
  - split; [| intros (d & H & _); discriminate H].
    destruct (objects h !! a) as [[] |]; discriminate.
  - split; [discriminate | intros (d & H & _); discriminate H].
Qed.

(** ** An unbounded wrap width *)

Section Unbounded.

Variable h : Heap.

Lemma primLineFree_plainPrim (l : list value) :
  forallb primLineFree l = true -> forallb plainPrim l = true.
Proof.
  induction l as [|x l IH]; [reflexivity |]. cbn [forallb]. rewrite !andb_true_iff.
  intros [Hx Hl]. split; [| now apply IH]. destruct x as [[] | |]; auto.
Qed.

Lemma breakFree_wellFormed : forall v, breakFree h v = true -> wellFormed h v = true.
Proof.
  fix IH 1. intros [p | a | n]; [auto | auto |].
  destruct n as [strings vs | strings vs | strings vs | joiner items sort];
    cbn [breakFree wellFormed]; rewrite ?andb_true_iff.
  - intros [[Hc _] H]. split; [exact Hc |]. now apply primLineFree_plainPrim.
  - intros [[Hc _] H]. split; [exact Hc |]. clear Hc.
    induction vs as [|x l IHl]; [reflexivity |].
    cbn [forallb] in *. apply andb_true_iff in H as [Hx Hl].
    rewrite (IH x Hx). now apply IHl.
  - intros [[Hc _] H]. split; [exact Hc |]. clear Hc.
    induction vs as [|x l IHl]; [reflexivity |].
    cbn [forallb] in *. apply andb_true_iff in H as [Hx Hl].
    rewrite (IH x Hx). now apply IHl.
  - intros [_ H]. induction items as [|x l IHl]; [reflexivity |].
    cbn [forallb] in *. apply andb_true_iff in H as [Hx Hl].
    rewrite (IH x Hx). now apply IHl.
Qed.

Lemma heapBreakFree_wellFormed : heapBreakFree h = true -> heapWellFormed h = true.
Proof.
  unfold heapBreakFree, heapWellFormed. rewrite !forallb_forall.
  intros H n Hn. apply breakFree_wellFormed. now apply H.
Qed.

Lemma lineFree_existsb (ss : list string) :
  forallb lineFree ss = true -> existsb (includes LF) ss = false.
Proof.
  induction ss as [|x l IH]; [reflexivity |]. cbn [forallb existsb].
  rewrite andb_true_iff, orb_false_iff. unfold lineFree at 1. rewrite negb_true_iff.
  intros [Hx Hl]. split; [exact Hx | now apply IH].
Qed.

Lemma mapO_primLineFree (render : Render) (l : list value) :
  forallb primLineFree l = true ->
  exists coerced, mapO (toStringWith h render) l = Ok coerced
                  /\ existsb (includes LF) coerced = false.
Proof.
  induction l as [|x l IH]; [now exists [] |]. cbn [forallb]. rewrite andb_true_iff.
  intros [Hx Hl]. destruct (IH Hl) as (coerced & Hc & Hfree). cbn [mapO]. rewrite Hc.
  destruct x as [p | a | n]; [| discriminate | discriminate].
  destruct p as [| | b | z | z | str | d]; try discriminate;
    cbn [toStringWith primToString bindO]; eexists; (split; [reflexivity |]);
    cbn [existsb]; rewrite Hfree, orb_false_r; try reflexivity.
  - now destruct b.
  - apply decimal_no_line_break.
  - apply decimal_no_line_break.
  - cbn [primLineFree] in Hx. unfold lineFree in Hx. now apply negb_true_iff in Hx.
Qed.

Lemma oneLine_existsb (rs : list RenderResult) :
  Forall oneLine rs ->
  existsb isMultiline rs = false /\ existsb (includes LF) (map content rs) = false.
Proof.
  induction 1 as [|r rs [Hm Hc] _ [IHm IHc]]; [now split |].
  cbn [existsb map]. now rewrite Hm, Hc, IHm, IHc.
Qed.

Lemma mapM_Forall_In {A B} (P : B -> Prop) (f : A -> M B) (l : list A) (s : gset addr)
    (rs : list B) (s' : gset addr) :
  (forall x s0 r s1, In x l -> f x s0 = (Ok r, s1) -> P r) ->
  mapM f l s = (Ok rs, s') -> Forall P rs.
Proof.
  revert s rs. induction l as [|x l IH]; intros s rs Hf H.
  - cbn [mapM] in H. unfold ret in H. injection H as <- _. constructor.
  - apply mapM_cons_ok in H as (y & ys & s1 & Hx & Hl & ->). constructor.
    + exact (Hf x s y s1 (or_introl eq_refl) Hx).
    + apply (IH s1 ys); [| exact Hl]. intros z s0 r s2 Hz. apply Hf. now right.
Qed.

Lemma unbounded_exceeds (n : nat) (w : width) : unbounded w = true -> exceeds n w = false.
Proof. destruct w; [discriminate | reflexivity | reflexivity]. Qed.

(** A break-free node under an unbounded width breaks only where a child
    does. *)
Lemma node_render_unbounded (render inner : Render) (n : node value)
    (params : RenderParams) (s : gset addr) (r : RenderResult) (s' : gset addr) :
  breakFree h (VNode n) = true ->
  unbounded (wrapWidth params) = true ->
  (forall c q s0 r0 s1,
      breakFree h c = true -> wrapWidth q = wrapWidth params ->
      render c q s0 = (Ok r0, s1) -> oneLine r0) ->
  node_render render (toStringWith h inner) n params s = (Ok r, s') ->
  oneLine r.
Proof.
  intros Hn Hw Hr H.
  destruct n as [strings vs | strings vs | strings vs | joiner items sort];
    cbn [breakFree node_render] in *.
  - apply andb_true_iff in Hn as [Hn Hvs]. apply andb_true_iff in Hn as [Hcount Hss].
    apply Nat.eqb_eq in Hcount. apply lineFree_existsb in Hss.
    destruct (mapO_primLineFree inner vs Hvs) as (coerced & Hc & Hfree).
    pose proof (mapO_length _ _ _ Hc) as Hlen.
    pose proof (interpolate_weave strings coerced ltac:(lia)) as Hi.
    pose proof (interpolate_ok _ _ _ Hi) as (_ & _ & Hinc).
    unfold lift in H.
    rewrite (text_render_single _ _ _ params coerced _ Hc Hi) in H
      by (now rewrite Hinc, Hss, Hfree).
    injection H as <- _. split; [reflexivity |]. cbn [content].
    now rewrite Hinc, Hss, Hfree.
  - apply andb_true_iff in Hn as [Hn Hvs]. apply andb_true_iff in Hn as [Hcount Hss].
    apply lineFree_existsb in Hss.
    apply block_render_ok in H as (kids & Hk & Hflag & Hcont).
    apply (mapM_Forall_In oneLine) in Hk;
      [| intros x s0 r0 s1 Hx Hx0; eapply Hr; [| | exact Hx0];
         [exact (forallb_In _ _ _ Hvs Hx) | reflexivity]].
    apply oneLine_existsb in Hk as [Hkm Hkc].
    rewrite Hkm, Hss, (unbounded_exceeds _ _ Hw) in Hflag. cbn [orb] in Hflag.
    rewrite Hflag in Hcont. split; [exact Hflag |].
    apply interpolate_ok in Hcont as (_ & _ & Hinc). now rewrite Hinc, Hss, Hkc.
  - apply andb_true_iff in Hn as [Hn Hvs]. apply andb_true_iff in Hn as [Hcount Hss].
    apply lineFree_existsb in Hss.
    apply inline_render_ok in H as (kids & Hk & Hflag & Hcont).
    apply (mapM_Forall_In oneLine) in Hk;
      [| intros x s0 r0 s1 Hx Hx0; eapply Hr; [| | exact Hx0];
         [exact (forallb_In _ _ _ Hvs Hx) | reflexivity]].
    apply oneLine_existsb in Hk as [Hkm Hkc].
    rewrite Hkm, Hss, (unbounded_exceeds _ _ Hw) in Hflag. cbn [orb] in Hflag.
    split; [exact Hflag |].
    apply interpolate_ok in Hcont as (_ & _ & Hinc). now rewrite Hinc, Hss, Hkc.
  - apply andb_true_iff in Hn as [Hj Hvs]. unfold lineFree in Hj.
    apply negb_true_iff in Hj.
    apply list_render_ok in H as (rendered & Hk & Hflag & Hcont). cbv zeta in Hflag, Hcont.
    apply (mapM_Forall_In oneLine) in Hk;
      [| intros x s0 r0 s1 Hx Hx0; eapply Hr; [| | exact Hx0];
         [exact (forallb_In _ _ _ Hvs Hx) | reflexivity]].
    assert (Forall oneLine (if sort then sortRendered rendered else rendered)) as Hshown.
    { destruct sort; [| exact Hk].
      rewrite List.Forall_forall in *. intros x Hx. apply Hk.
      eapply Permutation_in; [apply sortRendered_perm | exact Hx]. }
    apply oneLine_existsb in Hshown as [Hkm Hkc].
    rewrite Hkm, Hj, (unbounded_exceeds _ _ Hw) in Hflag. cbn [orb] in Hflag.
    rewrite Hflag in Hcont. split; [exact Hflag |].
    rewrite Hcont. now apply includes_join.
Qed.

Lemma defaultFormatterPrim_breakFree (p : prim) :
  plainPrim (VPrim p) = true -> breakFree h (VNode (defaultFormatterPrim p)) = true.
Proof.
  destruct p as [| | b | z | z | str | d]; intros H; try discriminate H; try reflexivity.
  - now destruct b.
  - cbn [defaultFormatterPrim breakFree length Nat.eqb Nat.add forallb primLineFree andb].
    unfold lineFree. cbn [includes]. now rewrite stringifyStringLiteral_no_line_break.
Qed.

Hypothesis heap_breakFree : heapBreakFree h = true.

Lemma render_unbounded (fuel : nat) (v : value) (params : RenderParams)
    (s : gset addr) (r : RenderResult) (s' : gset addr) :
  breakFree h v = true ->
  unbounded (wrapWidth params) = true ->
  render h fuel v params s = (Ok r, s') ->
  oneLine r.
Proof.
  revert v params s r s'. induction fuel as [|fuel IH]; intros v params s r s' Hv Hw H;
    [discriminate H |].
  assert (forall c q s0 r0 s1,
             breakFree h c = true -> wrapWidth q = wrapWidth params ->
             render h fuel c q s0 = (Ok r0, s1) -> oneLine r0) as Hkids.
  { intros c q s0 r0 s1 Hc Hq. apply IH; [exact Hc | now rewrite Hq]. }
  rewrite render_step in H. cbv zeta in H. destruct v as [p | a | n].
  - eapply node_render_unbounded; [| exact Hw | exact Hkids | exact H].
    now apply defaultFormatterPrim_breakFree.
  - destruct (decide (a ∈ s)).
    { eapply node_render_unbounded; [| exact Hw | exact Hkids | exact H]. reflexivity. }
    cbn [breakFree] in Hv. destruct (objects h !! a) as [o |] eqn:Ho; [| discriminate Hv].
    destruct (node_render _ _ _ _ _) as [out s1] eqn:E. injection H as -> _.
    eapply node_render_unbounded; [| exact Hw | exact Hkids | exact E].
    exact (forallb_In _ _ _ heap_breakFree (heapNodes_lookup h a o Ho)).
  - eapply node_render_unbounded; [exact Hv | exact Hw | exact Hkids | exact H].
Qed.

End Unbounded.

(** A well-formed value renders, with the fuel of [fuelBound], in every
    context. *)
Lemma wellFormed_render_returns (h : Heap) (v : value) (params : RenderParams) :
  heapWellFormed h = true ->
  wellFormed h v = true ->
  exists r, render h (fuelBound h v) v params ∅ = (Ok r, ∅).
Proof.
  intros Hheap Hv.
  pose proof (render_ended h (heapWellFormed_textPlain h Hheap) (fuelBound h v) v params ∅
                (wellFormed_textPlain h v Hv)) as Hend.
  rewrite difference_empty_L in Hend. specialize (Hend ltac:(unfold fuelBound; lia)).
  pose proof (render_noThrow h Hheap (fuelBound h v) v params ∅ Hv) as Hno.
  pose proof (render_restores h (fuelBound h v) v params ∅) as Hs.
  destruct (render h (fuelBound h v) v params ∅) as [[r | e |] s1];
    [| contradiction | now destruct Hend].
  cbn [snd] in Hs. subst s1. now exists r.
Qed.

(** X19.  Under an unbounded wrap width ([Infinity], or NaN) a value
    graph without a line break in its fragments, joiners and
    interpolated texts comes out on one line: [stringify] returns a
    string that holds no line break, however deep or cyclic the graph
    and whatever the indents are.  Line breaks inside string values do
    not count, since they are escaped. *)
Theorem unbounded_width_gives_one_line (h : Heap) (v : value) (opts : StringifyOpts) :
  heapBreakFree h = true ->
  breakFree h v = true ->
  unbounded (wrapWidth (paramsOf opts)) = true ->
  exists out : string,
    (forall fuel, fuelBound h v <= fuel -> stringify h fuel v opts = Ok out)
    /\ includes LF out = false.
Proof.
  intros Hheap Hv Hw.
  destruct (wellFormed_render_returns h v (paramsOf opts)
              (heapBreakFree_wellFormed h Hheap) (breakFree_wellFormed h v Hv)) as (r & Hr).
  destruct (render_unbounded h Hheap _ _ _ _ _ _ Hv Hw Hr) as [_ Hfree].
  exists (content r). split; [| exact Hfree]. intros fuel Hfuel.
  assert (stringify h (fuelBound h v) v opts = Ok (content r)) as Hs.
  { unfold stringify, stringifyWith. now rewrite Hr. }
  rewrite <- Hs. apply stringify_fuel_le; [exact Hfuel |]. now rewrite Hs.
Qed.

(** The map of [collections], whose array and set are objects of the
    same heap, at wrap width [Infinity]. *)
Lemma unbounded_width_gives_one_line_witness :
  exists out : string,
    (forall fuel, fuelBound collections (VRef 3%positive) <= fuel ->
       stringify collections fuel (VRef 3%positive)
         {| opt_wrapWidth := Some Infinity; opt_indentIncrement := None;
            opt_baseIndent := None |} = Ok out)
    /\ includes LF out = false.
Proof.
  apply (unbounded_width_gives_one_line collections (VRef 3%positive)
           {| opt_wrapWidth := Some Infinity; opt_indentIncrement := None;
              opt_baseIndent := None |}).
  - vm_compute. reflexivity.
  - reflexivity.
  - reflexivity.
Defined.

(** ** Plain objects and functions *)

Section ObjectLayout.

Variable h : Heap.

Lemma mapM_Forall2_ok {A B} (f : A -> M B) (l : list A) (rs : list B) (s : gset addr) :
  Forall2 (fun x r => f x s = (Ok r, s)) l rs -> mapM f l s = (Ok rs, s).
Proof.
  induction 1 as [|x r l rs Hx _ IH]; [reflexivity |].
  cbn [mapM]. unfold bindM. rewrite Hx, IH. reflexivity.
Qed.

Lemma Forall2_render_unique (f : value -> M RenderResult) (l : list value)
    (rs rs' : list RenderResult) (s : gset addr) :
  Forall2 (fun x r => f x s = (Ok r, s)) l rs ->
  Forall2 (fun x r => f x s = (Ok r, s)) l rs' ->
  rs = rs'.
Proof.
  intros H. revert rs'. induction H as [|x r l rs Hx _ IH]; intros rs' H'.
  - now inversion H'.
  - inversion H' as [|? r' ? rs'' Hx' Hl']; subst. rewrite Hx in Hx'.
    injection Hx' as <-. f_equal. now apply IH.
Qed.

(** An entry renders when its value does. *)
Lemma entry_render_returns (fuel : nat) (kv : string * value) (rv : RenderResult)
    (p : RenderParams) (s : gset addr) :
  render h (S fuel) (snd kv) p s = (Ok rv, s) ->
  render h (S (S fuel)) (entryNode h (VPrim (PString (fst kv)), snd kv)) p s
  = (Ok (entryResult p kv rv), s).
Proof.
  intros Hv. unfold entryNode. rewrite render_node.
  cbn [node_render fst snd stringifyKey]. fold (keyText (fst kv)).
  unfold inline_render, bindM. cbn [mapM]. unfold bindM.
  rewrite render_node. cbn [node_render]. unfold lift.
  rewrite (text_render_single _ [""; ""] [VPrim (PString (keyText (fst kv)))] p
             [keyText (fst kv)] (keyText (fst kv)));
    [| reflexivity | cbn [interpolate interpolateLoop]; now rewrite append_empty_r
     | apply keyText_no_line_break].
  rewrite Hv. unfold ret.
  cbn [map content isMultiline existsb includes interpolate interpolateLoop String.append].
  rewrite !sum_cons, sum_nil, !orb_false_r, append_empty_r, append_assoc.
  unfold entryResult, entryText. do 3 f_equal.
  cbn [orb]. do 2 f_equal. rewrite !length_append. cbn [String.length]. lia.
Qed.

Lemma entries_render_return (fuel : nat) (entries : list (string * value))
    (values : list RenderResult) (p : RenderParams) (s : gset addr) :
  Forall2 (fun kv rv => render h (S fuel) (snd kv) p s = (Ok rv, s)) entries values ->
  Forall2 (fun x e => render h (S (S fuel)) x p s = (Ok e, s))
    (map (entryNode h) (objectEntries entries))
    (zip_with (entryResult p) entries values).
Proof.
  induction 1 as [|kv rv entries values Hv _ IH]; [constructor |].
  cbn [objectEntries map zip_with]. constructor; [| exact IH].
  now apply entry_render_returns.
Qed.

Lemma length_join_ge (sep x : string) (ss : list string) :
  In x ss -> String.length x <= String.length (join sep ss).
Proof.
  intros Hx. rewrite length_join, sum_list_sum.
  assert (String.length x <= list_sum (map String.length ss)) as Hle.
  { induction ss as [|y ss IH]; [contradiction |].
    change (list_sum (map String.length (y :: ss)))
      with (String.length y + list_sum (map String.length ss)).
    destruct Hx as [-> | Hx]; [lia | specialize (IH Hx); lia]. }
  lia.
Qed.

Lemma content_entryResult (p : RenderParams) (entries : list (string * value))
    (values : list RenderResult) :
  map content (zip_with (entryResult p) entries values) = zip_with entryText entries values.
Proof.
  revert values. induction entries as [|kv entries IH]; intros [|rv values];
    cbn [zip_with map]; try reflexivity. now rewrite IH.
Qed.

(** Where no entry text passes the wrap width, an entry is multiline
    exactly when its value is. *)
Lemma existsb_entryResult (p : RenderParams) (entries : list (string * value))
    (values : list RenderResult) :
  length entries = length values ->
  Forall (fun t => exceeds (String.length (indent p) + String.length t) (wrapWidth p) = false)
    (zip_with entryText entries values) ->
  existsb isMultiline (zip_with (entryResult p) entries values) = existsb isMultiline values.
Proof.
  revert values. induction entries as [|kv entries IH]; intros [|rv values] Hlen Hall;
    try discriminate Hlen; [reflexivity |].
  cbn [zip_with] in *. inversion Hall as [|? ? Ht Hts]; subst.
  cbn [existsb entryResult isMultiline]. rewrite Ht, orb_false_r.
  rewrite IH; [reflexivity | now injection Hlen | exact Hts].
Qed.

(** An object the formatter hands to [objectLike]: when every value
    renders, the object renders, and the result is laid out from the
    sorted entry texts. *)
Lemma objectLike_layout (fuel : nat) (a : addr) (o : obj) (entries : list (string * value))
    (values : list RenderResult) (params : RenderParams) (s : gset addr) :
  objects h !! a = Some o ->
  stringifiableOf h o = objectLike h (objectEntries entries) ->
  a ∉ s ->
  Forall2 (fun kv rv => render h (S fuel) (snd kv) (childParams params) ({[a]} ∪ s)
                        = (Ok rv, {[a]} ∪ s)) entries values ->
  exists (r : RenderResult) (texts : list string),
    render h (S (S (S (S fuel)))) (VRef a) params s = (Ok r, s)
    /\ Permutation texts (zip_with entryText entries values)
    /\ StronglySorted strLe texts
    /\ let listBreaks :=
         existsb isMultiline values
         || exceeds (String.length (indent params) + String.length (indentIncrement params)
                     + String.length (join ", " texts)) (wrapWidth params) in
       isMultiline r
       = listBreaks
         || exceeds (String.length (indent params)
                     + String.length ("{ " +:+ join ", " texts +:+ " }")) (wrapWidth params)
       /\ (isMultiline r = false -> content r = "{ " +:+ join ", " texts +:+ " }")
       /\ (isMultiline r = true ->
           content r
           = "{" +:+ newline +:+ indent params +:+ indentIncrement params
             +:+ trim (join (if listBreaks
                             then "," +:+ newline +:+ indent params
                                  +:+ indentIncrement params
                             else ", ")
                            texts)
             +:+ newline +:+ indent params +:+ "}").
Proof.
  intros Ho Hnode Ha Hvalues.
  set (cp := childParams params). set (s1 := {[a]} ∪ s) in *.
  set (es := zip_with (entryResult cp) entries values).
  pose proof (entries_render_return fuel entries values cp s1 Hvalues) as Hentries.
  fold es in Hentries.
  (* the list and the block return *)
  assert (exists r, node_render (render h (S (S (S fuel))))
                      (toStringWith h (render h (S (S (S fuel)))))
                      (objectLike h (objectEntries entries)) params s1 = (Ok r, s1))
    as [r Hr].
  { unfold objectLike. fold (entryNode h). cbn [node_render].
    unfold block_render, bindM. cbn [mapM]. unfold bindM.
    rewrite render_node. cbn [node_render]. rewrite list_render_unfold. unfold bindM.
    pose proof (mapM_Forall2_ok (fun x => render h (S (S fuel)) x cp) _ _ _ Hentries) as Hmap.
    unfold cp, childParams in Hmap. rewrite Hmap. unfold ret, lift.
    destruct (existsb _ _ || _ || _); cbn [imap map interpolate interpolateLoop];
      now eexists. }
  exists r, (map content (sortRendered es)).
  split; [rewrite (render_fresh h _ a _ params s Ho Ha), Hnode; fold s1; now rewrite Hr |].
  unfold objectLike in Hr. fold (entryNode h) in Hr.
  apply bracketed_list_render in Hr as (rendered & Hall & Hflag & Hone & Hmany);
    [| reflexivity | reflexivity].
  fold cp in Hall. rewrite (Forall2_render_unique (fun x => render h (S (S fuel)) x cp) _ _ _ _ Hall Hentries) in *.
  clear Hall rendered. cbv zeta in *.
  pose proof (Forall2_length _ _ _ Hvalues) as Hlen.
  assert (Permutation (map content (sortRendered es)) (zip_with entryText entries values))
    as Hperm.
  { unfold es at 1. rewrite <- (content_entryResult cp).
    apply Permutation_map, sortRendered_perm. }
  split; [exact Hperm |].
  split; [apply sorted_contents, sortRendered_sorted |].
  assert (joinedLength ", " (sortRendered es)
          = String.length (join ", " (map content (sortRendered es)))) as Hjoined.
  { unfold joinedLength. now rewrite length_join, length_map, map_map. }
  rewrite Hjoined in Hflag, Hmany.
  assert (existsb isMultiline (sortRendered es)
          || exceeds (String.length (indent params) + String.length (indentIncrement params)
                      + String.length (join ", " (map content (sortRendered es))))
               (wrapWidth params)
          = existsb isMultiline values
            || exceeds (String.length (indent params) + String.length (indentIncrement params)
                        + String.length (join ", " (map content (sortRendered es))))
                 (wrapWidth params)) as Hlist.
  { destruct (exceeds _ _) eqn:Hex; [now rewrite !orb_true_r |]. rewrite !orb_false_r.
    rewrite (existsb_Permutation isMultiline _ _ (sortRendered_perm es)).
    apply existsb_entryResult; [exact Hlen |].
    apply List.Forall_forall. intros t Ht.
    eapply exceeds_mono; [| exact Hex]. unfold cp, childParams. cbn [indent].
    rewrite length_append.
    pose proof (length_join_ge ", " t (map content (sortRendered es))
                  (Permutation_in _ (Permutation_sym Hperm) Ht)).
    lia. }
  rewrite Hlist in Hflag, Hmany.
  split; [| split].
  - rewrite Hflag. do 2 f_equal. rewrite !length_append. cbn [String.length]. lia.
  - exact Hone.
  - intros Hm. rewrite (Hmany Hm). unfold childParams. cbn [indent].
    change (trim "{ ") with "{".
    change (brokenFragment (indent params) 1 " }") with (newline +:+ indent params +:+ "}").
    destruct (existsb isMultiline values || _); now rewrite !append_assoc.
Qed.

End ObjectLayout.

(** C10.  A function object is rendered as a plain object is: when the
    values of its enumerable own properties render, the function
    renders, as the texts [key: value] of its properties, sorted,
    between braces: on one line joined by a comma and a space, and,
    where a value is multiline or the line would pass the wrap width,
    broken as a block around a list.  It takes part in cycle detection
    like every other object: while its properties render it is on the
    render path, where it renders as the sentinel, and it is off the
    path again afterwards.  An ordinary function, which has no such
    property, renders as a pair of braces. *)
Theorem function_renders_as_object (h : Heap) (fuel : nat) (a : addr)
    (entries : list (string * value)) (values : list RenderResult)
    (params : RenderParams) (s : gset addr) :
  objects h !! a = Some (OFunction entries) ->
  a ∉ s ->
  Forall2 (fun kv rv => render h (S fuel) (snd kv) (childParams params) ({[a]} ∪ s)
                        = (Ok rv, {[a]} ∪ s)) entries values ->
  (exists (r : RenderResult) (texts : list string),
      render h (S (S (S (S fuel)))) (VRef a) params s = (Ok r, s)
      /\ Permutation texts (zip_with entryText entries values)
      /\ StronglySorted strLe texts
      /\ let listBreaks :=
           existsb isMultiline values
           || exceeds (String.length (indent params) + String.length (indentIncrement params)
                       + String.length (join ", " texts)) (wrapWidth params) in
         isMultiline r
         = listBreaks
           || exceeds (String.length (indent params)
                       + String.length ("{ " +:+ join ", " texts +:+ " }")) (wrapWidth params)
         /\ (isMultiline r = false -> content r = "{ " +:+ join ", " texts +:+ " }")
         /\ (isMultiline r = true ->
             content r
             = "{" +:+ newline +:+ indent params +:+ indentIncrement params
               +:+ trim (join (if listBreaks
                               then "," +:+ newline +:+ indent params
                                    +:+ indentIncrement params
                               else ", ")
                              texts)
               +:+ newline +:+ indent params +:+ "}"))
  /\ (forall fuel' params' (s' : gset addr),
        a ∈ s' -> render h (S fuel') (VRef a) params' s' = (Ok circularResult, s'))
  /\ (entries = [] ->
      forall fuel', stringify h (3 + fuel') (VRef a) noOpts = Ok "{  }").
Proof.
  intros Ho Ha Hvalues. split; [| split].
  - exact (objectLike_layout h fuel a _ entries values params s Ho eq_refl Ha Hvalues).
  - intros fuel' params' s'. apply render_visited.
  - intros -> fuel'.
    assert (stringify h 3 (VRef a) noOpts = Ok "{  }") as H3.
    { unfold stringify, stringifyWith.
      rewrite (render_fresh h _ a _ _ ∅ Ho) by apply not_elem_of_empty. reflexivity. }
    rewrite <- H3. apply stringify_fuel_le; [lia |]. now rewrite H3.
Qed.

(** [function f() {}; f.b = 1; f.self = f]: the two properties, the
    second one the sentinel. *)
Lemma function_renders_as_object_witness :
  exists (r : RenderResult) (texts : list string),
    render functionWithProperties 4 (VRef 1%positive) defaultParams ∅ = (Ok r, ∅)
    /\ Permutation texts ["b: 1"; "self: <circular>"]
    /\ StronglySorted strLe texts
    /\ r = {| isMultiline := false; content := "{ b: 1, self: <circular> }" |}.
Proof.
  destruct (function_renders_as_object functionWithProperties 0 1%positive
              [("b", VPrim (PNumber 1)); ("self", VRef 1%positive)]
              [{| isMultiline := false; content := "1" |}; circularResult]
              defaultParams ∅)
    as ((r & texts & Hr & Hperm & Hsorted & _) & _).
  - reflexivity.
  - apply not_elem_of_empty.
  - repeat constructor.
  - exists r, texts. split; [exact Hr |]. split; [exact Hperm |]. split; [exact Hsorted |].
    assert (render functionWithProperties 4 (VRef 1%positive) defaultParams ∅
            = (Ok {| isMultiline := false; content := "{ b: 1, self: <circular> }" |}, ∅))
      as Hrun by (vm_compute; reflexivity).
    rewrite Hr in Hrun. now injection Hrun.
Defined.

(** C7.  The entries of a plain object do not come out in insertion
    order.  [{ a: 1, '#b': 2, c: 3 }], the object of the repository's
    test ['object'], renders with the quoted key first, on one line and
    broken alike, where the test and the specification expect the order
    [a], ['#b'], [c]: [objectLike] makes its list with [sort: true]. *)
Theorem plain_object_not_in_insertion_order :
  (forall fuel,
      stringify testObject (5 + fuel) (VRef 1%positive) noOpts
      = Ok "{ '#b': 2, a: 1, c: 3 }")
  /\ "{ '#b': 2, a: 1, c: 3 }" <> "{ a: 1, '#b': 2, c: 3 }"
  /\ (forall fuel,
        stringify testObject (5 + fuel) (VRef 1%positive)
          {| opt_wrapWidth := Some (Finite 0); opt_indentIncrement := None;
             opt_baseIndent := Some (IndentString "      ") |}
        = Ok ("{" +:+ newline +:+ "        '#b': 2," +:+ newline +:+ "        a: 1,"
              +:+ newline +:+ "        c: 3" +:+ newline +:+ "      }"))
  /\ "{" +:+ newline +:+ "        '#b': 2," +:+ newline +:+ "        a: 1,"
     +:+ newline +:+ "        c: 3" +:+ newline +:+ "      }"
     <> "{" +:+ newline +:+ "        a: 1," +:+ newline +:+ "        '#b': 2,"
        +:+ newline +:+ "        c: 3" +:+ newline +:+ "      }".
Proof.
  split; [| split; [discriminate | split; [| discriminate]]].
  - intros fuel.
    assert (stringify testObject 5 (VRef 1%positive) noOpts = Ok "{ '#b': 2, a: 1, c: 3 }")
      as H5 by (vm_compute; reflexivity).
    rewrite <- H5. apply stringify_fuel_le; [lia |]. now rewrite H5.
  - intros fuel.
    match goal with
    | |- stringify _ _ _ ?opts = Ok ?out =>
        assert (stringify testObject 5 (VRef 1%positive) opts = Ok out) as H5
          by (vm_compute; reflexivity)
    end.
    rewrite <- H5. apply stringify_fuel_le; [lia |]. now rewrite H5.
Qed.

(** ** The text node over all of UTF-16 *)

Section Utf16Reindent.

Import Utf16.

Lemma getSubstitution_plain16 (matched str : ustring) (position : nat) (template : ustring) :
  Utf16.includes DOLLAR template = false ->
  Utf16.getSubstitution matched str position template = template.
Proof.
  induction template as [|c t IH]; [reflexivity |].
  cbn [Utf16.includes Utf16.getSubstitution].
  rewrite orb_false_iff. intros [Hc Ht]. rewrite Hc. now rewrite (IH Ht).
Qed.

(** A unit of a line that holds no LF, CR, U+2028 or U+2029 is no line
    terminator. *)
Lemma plainLine_cons16 (c : N) (l : ustring) :
  Utf16.includes LF (c :: l) = false -> Utf16.plainLine (c :: l) ->
  Utf16.isLineTerminator c = false
  /\ Utf16.includes LF l = false /\ Utf16.plainLine l.
Proof.
  unfold Utf16.plainLine, Utf16.isLineTerminator. cbn [Utf16.includes].
  rewrite !orb_false_iff. intros [H0 H0'] [[H1 H2] [[H3 H4] [H5 H6]]]. auto 10.
Qed.

Lemma replaceLoop_inside16 (k : nat) (template str : ustring) (pos skip : nat)
    (rest : ustring) :
  Utf16.includes LF rest = false -> Utf16.plainLine rest ->
  Utf16.replaceLoop k template str pos false skip rest = skipn skip rest.
Proof.
  revert pos skip. induction rest as [|c r IH]; intros pos skip Hlf Hp.
  - now destruct skip.
  - apply plainLine_cons16 in Hp as (Hc & Hlf' & Hr); [| exact Hlf].
    cbn [Utf16.replaceLoop]. destruct skip as [|skip'].
    + cbn [andb skipn]. rewrite Hc. now rewrite (IH (S pos) 0 Hlf' Hr).
    + cbn [skipn]. now apply IH.
Qed.

Lemma startsWithSpaces_indentOfLine16 (k : nat) (l : ustring) :
  Utf16.startsWithSpaces k l = Nat.leb k (Utf16.indentOfLine l).
Proof.
  revert l. induction k as [|k IH]; intros l; [reflexivity |].
  destruct l as [|c r]; [reflexivity |].
  cbn [Utf16.startsWithSpaces Utf16.indentOfLine].
  destruct (N.eqb c SP); [apply IH | reflexivity].
Qed.

(** On a line without line terminators, and with an indent that holds no
    dollar sign, the replacement acts at the start of the line only. *)
Lemma replaceIndent_plain16 (k : nat) (indent line : ustring) :
  Utf16.includes DOLLAR indent = false ->
  Utf16.includes LF line = false -> Utf16.plainLine line ->
  Utf16.replaceIndent k indent line = Utf16.reindent k indent line.
Proof.
  intros Hd Hlf Hp. unfold Utf16.replaceIndent, Utf16.reindent.
  rewrite <- startsWithSpaces_indentOfLine16.
  destruct line as [|c r].
  - cbn [Utf16.replaceLoop andb]. destruct k as [|k]; cbn [Nat.eqb Utf16.startsWithSpaces].
    + rewrite getSubstitution_plain16 by exact Hd. now rewrite app_nil_r.
    + reflexivity.
  - apply plainLine_cons16 in Hp as (Hc & Hlf' & Hr); [| exact Hlf].
    cbn [Utf16.replaceLoop andb].
    destruct (Utf16.startsWithSpaces k (c :: r)) eqn:E.
    + rewrite getSubstitution_plain16 by exact Hd. destruct k as [|k].
      * now rewrite Hc, replaceLoop_inside16.
      * now rewrite replaceLoop_inside16.
    + now rewrite Hc, replaceLoop_inside16.
Qed.

Lemma splitLines_step16 (c : N) (r : ustring) :
  Utf16.splitLines (c :: r)
  = if N.eqb c LF then [] :: Utf16.splitLines r
    else
      match r with
      | d :: r' =>
          if N.eqb c CR && N.eqb d LF then [] :: Utf16.splitLines r'
          else
            match Utf16.splitLines r with
            | l :: ls => (c :: l) :: ls
            | [] => [[c]]
            end
      | [] => [[c]]
      end.
Proof. reflexivity. Qed.

Lemma splitLines_no_LF16 (s : ustring) :
  Forall (fun l => Utf16.includes LF l = false) (Utf16.splitLines s).
Proof.
  induction s as [|c r IH]; [repeat constructor |].
  rewrite splitLines_step16. destruct (N.eqb c LF) eqn:Ec; [now constructor |].
  destruct r as [|d r'].
  - constructor; [| constructor]. cbn [Utf16.includes]. now rewrite Ec.
  - destruct (N.eqb c CR && N.eqb d LF) eqn:E.
    + apply andb_true_iff in E as [_ Ed]. rewrite splitLines_step16, Ed in IH.
      constructor; [reflexivity |]. now inversion IH.
    + destruct (Utf16.splitLines (d :: r')) as [|l ls].
      * constructor; [| constructor]. cbn [Utf16.includes]. now rewrite Ec.
      * inversion IH as [| ? ? Hl Hls]; subst.
        constructor; [| exact Hls]. cbn [Utf16.includes]. now rewrite Ec.
Qed.

Lemma splitLines_nonempty16 (s : ustring) : Utf16.splitLines s <> [].
Proof.
  destruct s as [|c r]; [discriminate |]. rewrite splitLines_step16.
  destruct (N.eqb c LF); [discriminate |]. destruct r as [|d r']; [discriminate |].
  destruct (N.eqb c CR && N.eqb d LF); [discriminate |].
  destruct (Utf16.splitLines (d :: r')); discriminate.
Qed.

(** A text that splits into one line holds no line feed. *)
Lemma splitLines_single16 (s : ustring) :
  length (Utf16.splitLines s) = 1 -> Utf16.includes LF s = false.
Proof.
  induction s as [|c r IH]; [reflexivity |].
  rewrite splitLines_step16. cbn [Utf16.includes].
  destruct (N.eqb c LF) eqn:Ec.
  - cbn [length]. intros H. exfalso. apply (splitLines_nonempty16 r).
    destruct (Utf16.splitLines r); [reflexivity | discriminate H].
  - cbn [orb]. destruct r as [|d r']; [reflexivity |].
    destruct (N.eqb c CR && N.eqb d LF) eqn:E.
    + cbn [length]. intros H. exfalso. apply (splitLines_nonempty16 r').
      destruct (Utf16.splitLines r'); [reflexivity | discriminate H].
    + intros H. apply IH. pose proof (splitLines_nonempty16 (d :: r')) as Hne.
      destruct (Utf16.splitLines (d :: r')) as [|l ls]; [congruence | exact H].
Qed.

End Utf16Reindent.

(** C5, as the code has it.  When the assembled text of a Text node has a
    line break, the result is multiline; the first line is left as it is;
    [m] is the least number of leading spaces among the remaining lines
    that are not blank, and zero when all of them are blank; a remaining
    line with at least [m] leading spaces loses exactly [m] of them and
    gets the indent of the context in front, and a remaining line with
    fewer, which is always a blank one, is left as it is, without the
    indent.  This is for an indent without a dollar sign and remaining
    lines without a carriage return, U+2028 and U+2029; the text may
    hold any other code unit. *)
Theorem text_reindents_remaining_lines (strings coerced : list Utf16.ustring)
    (indent t first : Utf16.ustring) (rest : list Utf16.ustring) :
  Utf16.interpolate strings coerced = Ok t ->
  Utf16.includes Utf16.LF t = true ->
  Utf16.splitLines t = first :: rest ->
  Utf16.includes Utf16.DOLLAR indent = false ->
  Forall Utf16.plainLine rest ->
  exists m : nat,
    ((forall l, In l rest -> Utf16.isBlank l = true) -> m = 0)
    /\ (forall l, In l rest -> Utf16.isBlank l = false -> m <= Utf16.indentOfLine l)
    /\ ((exists l, In l rest /\ Utf16.isBlank l = false) ->
        exists l, In l rest /\ Utf16.isBlank l = false /\ Utf16.indentOfLine l = m)
    /\ (forall l, In l rest -> Utf16.indentOfLine l < m -> Utf16.isBlank l = true)
    /\ Utf16.text_render strings coerced indent
       = Ok {| Utf16.isMultiline := true;
               Utf16.content :=
                 Utf16.join [Utf16.LF] (first :: map (Utf16.reindent m indent) rest) |}.
Proof.
  intros Ht Hbreak Hsplit Hdollar Hplain.
  set (nonBlank := List.filter (fun l => negb (Utf16.isBlank l)) rest).
  set (m := match mathMin (map Utf16.indentOfLine nonBlank) with Some n => n | None => 0 end).
  assert (forall l, In l rest -> Utf16.isBlank l = false -> m <= Utf16.indentOfLine l) as Hle.
  { intros l Hl Hb. unfold m.
    destruct (mathMin (map Utf16.indentOfLine nonBlank)) as [n |] eqn:E; [| lia].
    apply (mathMin_le _ _ _ E). apply in_map. apply filter_In. now rewrite Hb. }
  exists m. split; [| split; [exact Hle | split; [| split]]].
  - intros Hall. unfold m.
    destruct (mathMin (map Utf16.indentOfLine nonBlank)) as [n |] eqn:E; [| reflexivity].
    apply mathMin_In, in_map_iff in E as (l & _ & Hl).
    apply filter_In in Hl as [Hl Hb]. rewrite (Hall l Hl) in Hb. discriminate.
  - intros (l & Hl & Hb). unfold m.
    destruct (mathMin (map Utf16.indentOfLine nonBlank)) as [n |] eqn:E.
    + apply mathMin_In, in_map_iff in E as (l' & <- & Hl').
      apply filter_In in Hl' as [Hl' Hb']. exists l'.
      split; [exact Hl' |]. split; [| reflexivity]. now destruct (Utf16.isBlank l').
    + apply mathMin_None, map_eq_nil in E.
      assert (In l nonBlank) as Hin by (apply filter_In; now rewrite Hb).
      rewrite E in Hin. contradiction.
  - intros l Hl Hlt. destruct (Utf16.isBlank l) eqn:Hb; [reflexivity |].
    specialize (Hle l Hl Hb). lia.
  - unfold Utf16.text_render. rewrite Ht. cbn [bindO].
    rewrite Hsplit. cbn [hd tl].
    destruct (Nat.eqb_spec (length (first :: rest)) 1) as [Hone | _].
    + exfalso. rewrite splitLines_single16 in Hbreak; [discriminate | now rewrite Hsplit].
    + fold nonBlank. fold m. do 4 f_equal.
      apply map_ext_in. intros l Hl.
      pose proof (splitLines_no_LF16 t) as Hlf. rewrite Hsplit in Hlf.
      inversion Hlf as [| ? ? _ Hrest]; subst.
      rewrite List.Forall_forall in Hrest, Hplain.
      apply replaceIndent_plain16; [exact Hdollar | now apply Hrest | now apply Hplain].
Qed.

(** The text [a], an empty line, and [b] behind two spaces and an
    ideographic space (U+3000), rendered at an indent of four spaces:
    the minimum indent is two, and the empty line stays empty. *)
Lemma text_reindents_remaining_lines_witness :
  Utf16.text_render
    [Utf16.widen "a" ++ [Utf16.LF; Utf16.LF] ++ Utf16.widen "  " ++ [12288%N]
     ++ Utf16.widen "b"] []
    (Utf16.widen "    ")
  = Ok {| Utf16.isMultiline := true;
          Utf16.content :=
            Utf16.widen "a" ++ [Utf16.LF; Utf16.LF] ++ Utf16.widen "    " ++ [12288%N]
            ++ Utf16.widen "b" |}.
Proof.
  destruct (text_reindents_remaining_lines
              [Utf16.widen "a" ++ [Utf16.LF; Utf16.LF] ++ Utf16.widen "  " ++ [12288%N]
               ++ Utf16.widen "b"] []
              (Utf16.widen "    ")
              (Utf16.widen "a" ++ [Utf16.LF; Utf16.LF] ++ Utf16.widen "  " ++ [12288%N]
               ++ Utf16.widen "b")
              (Utf16.widen "a")
              [[]; Utf16.widen "  " ++ [12288%N] ++ Utf16.widen "b"])
    as (m & _ & Hle & Hmin & _ & Hrender).
  - reflexivity.
  - reflexivity.
  - reflexivity.
  - reflexivity.
  - repeat constructor.
  - destruct Hmin as (l & Hl & Hb & Hm).
    { eexists. split; [right; left; reflexivity | reflexivity]. }
    destruct Hl as [<- | [<- | []]]; [discriminate Hb |].
    rewrite Hrender, <- Hm. reflexivity.
Defined.

(** Why the remaining lines must hold no U+2028: under the [m] flag [^]
    also holds after it, so that [text`a\n x\u2028 y`] at the indent
    [--] has the indent twice in its second line. *)
Example text_indents_after_line_separator :
  Utf16.text_render
    [Utf16.widen "a" ++ [Utf16.LF] ++ Utf16.widen " x" ++ [Utf16.LS] ++ Utf16.widen " y"] []
    (Utf16.widen "--")
  = Ok {| Utf16.isMultiline := true;
          Utf16.content :=
            Utf16.widen "a" ++ [Utf16.LF] ++ Utf16.widen "--x" ++ [Utf16.LS]
            ++ Utf16.widen "--y" |}.
Proof. reflexivity. Qed.

(** ** The two embeddings of the text node agree

    On strings of code units below 256 the render method over UTF-16 is
    the render method of the embedding the driver is written over. *)

Section Widen.

Lemma N_of_ascii_eqb (c d : ascii) : N.eqb (N_of_ascii c) (N_of_ascii d) = Ascii.eqb c d.
Proof.
  destruct (Ascii.eqb_spec c d) as [-> | Hne]; [apply N.eqb_refl |].
  apply N.eqb_neq. intros H. apply Hne.
  now rewrite <- (ascii_N_embedding c), <- (ascii_N_embedding d), H.
Qed.

Lemma isWhiteSpace_widen (c : ascii) :
  Utf16.isWhiteSpace (N_of_ascii c) = JsString.isWhiteSpace c.
Proof. destruct c as [[] [] [] [] [] [] [] []]; reflexivity. Qed.

Lemma isLineTerminator_widen (c : ascii) :
  Utf16.isLineTerminator (N_of_ascii c) = JsString.isLineTerminator c.
Proof. destruct c as [[] [] [] [] [] [] [] []]; reflexivity. Qed.

Lemma widen_app (a b : string) : Utf16.widen (a +:+ b) = Utf16.widen a ++ Utf16.widen b.
Proof. induction a as [|c a IH]; cbn [String.append Utf16.widen app]; [reflexivity | now rewrite IH]. Qed.

Lemma length_widen (s : string) : length (Utf16.widen s) = String.length s.
Proof. induction s as [|c s IH]; cbn [Utf16.widen length String.length]; [reflexivity | now rewrite IH]. Qed.

Lemma widen_inj (a b : string) : Utf16.widen a = Utf16.widen b -> a = b.
Proof.
  revert b. induction a as [|c a IH]; intros [|d b] H; try discriminate H; [reflexivity |].
  cbn [Utf16.widen] in H. injection H as Hc Hab. f_equal; [| now apply IH].
  now rewrite <- (ascii_N_embedding c), <- (ascii_N_embedding d), Hc.
Qed.

Lemma includes_widen (c : ascii) (s : string) :
  Utf16.includes (N_of_ascii c) (Utf16.widen s) = JsString.includes c s.
Proof.
  induction s as [|d s IH]; [reflexivity |].
  cbn [Utf16.widen Utf16.includes JsString.includes]. now rewrite N_of_ascii_eqb, IH.
Qed.

Lemma splitLines_widen (s : string) :
  Utf16.splitLines (Utf16.widen s) = map Utf16.widen (JsString.splitLines s).
Proof.
  induction s as [|c r IH]; [reflexivity |].
  cbn [Utf16.widen]. rewrite splitLines_step16, splitLines_step.
  change Utf16.LF with (N_of_ascii JsString.LF).
  change Utf16.CR with (N_of_ascii JsString.CR).
  rewrite N_of_ascii_eqb.
  destruct (Ascii.eqb c JsString.LF); [cbn [map]; now rewrite IH |].
  destruct r as [|d r']; [reflexivity |].
  cbn [Utf16.widen] in *. rewrite !N_of_ascii_eqb.
  destruct (Ascii.eqb c JsString.CR && Ascii.eqb d JsString.LF) eqn:E.
  - apply andb_true_iff in E as [_ Ed].
    rewrite splitLines_step16, splitLines_step in IH.
    change Utf16.LF with (N_of_ascii JsString.LF) in IH.
    rewrite N_of_ascii_eqb, Ed in IH. cbn [map] in *. now injection IH as ->.
  - rewrite IH. now destruct (JsString.splitLines (String d r')).
Qed.

Lemma isBlank_widen (l : string) : Utf16.isBlank (Utf16.widen l) = JsString.isBlank l.
Proof.
  induction l as [|c l IH]; [reflexivity |].
  cbn [Utf16.widen Utf16.isBlank JsString.isBlank]. now rewrite isWhiteSpace_widen, IH.
Qed.

Lemma indentOfLine_widen (l : string) :
  Utf16.indentOfLine (Utf16.widen l) = JsString.indentOfLine l.
Proof.
  induction l as [|c l IH]; [reflexivity |].
  cbn [Utf16.widen Utf16.indentOfLine JsString.indentOfLine].
  change Utf16.SP with (N_of_ascii JsString.SP). now rewrite N_of_ascii_eqb, IH.
Qed.

Lemma startsWithSpaces_widen (k : nat) (l : string) :
  Utf16.startsWithSpaces k (Utf16.widen l) = JsString.startsWithSpaces k l.
Proof.
  revert l. induction k as [|k IH]; intros [|c l]; try reflexivity.
  cbn [Utf16.widen Utf16.startsWithSpaces JsString.startsWithSpaces].
  change Utf16.SP with (N_of_ascii JsString.SP). now rewrite N_of_ascii_eqb, IH.
Qed.

Lemma spaces_widen (k : nat) : Utf16.widen (JsString.spaces k) = Utf16.spaces k.
Proof.
  induction k as [|k IH]; [reflexivity |].
  cbn [JsString.spaces Utf16.widen]. unfold Utf16.spaces in *. cbn [repeat]. now rewrite IH.
Qed.

Lemma takeChars_widen (n : nat) (s : string) : Utf16.widen (takeChars n s) = firstn n (Utf16.widen s).
Proof.
  revert s. induction n as [|n IH]; intros [|c s]; try reflexivity.
  cbn [takeChars Utf16.widen firstn]. now rewrite IH.
Qed.

Lemma dropChars_widen (n : nat) (s : string) : Utf16.widen (dropChars n s) = skipn n (Utf16.widen s).
Proof.
  revert s. induction n as [|n IH]; intros [|c s]; try reflexivity.
  cbn [dropChars Utf16.widen skipn]. now rewrite IH.
Qed.

Lemma getSubstitution_widen (matched str : string) (position : nat) (template : string) :
  Utf16.getSubstitution (Utf16.widen matched) (Utf16.widen str) position (Utf16.widen template)
  = Utf16.widen (JsString.getSubstitution matched str position template).
Proof.
  assert (forall n template, String.length template <= n ->
            Utf16.getSubstitution (Utf16.widen matched) (Utf16.widen str) position (Utf16.widen template)
            = Utf16.widen (JsString.getSubstitution matched str position template)) as H.
  { induction n as [|n IH]; intros [|c t] Hlen; try reflexivity;
      cbn [String.length] in Hlen; [lia |].
    cbn [Utf16.widen Utf16.getSubstitution JsString.getSubstitution].
    change Utf16.DOLLAR with (N_of_ascii JsString.DOLLAR).
    change Utf16.AMPERSAND with (N_of_ascii JsString.AMPERSAND).
    change Utf16.BACKTICK with (N_of_ascii JsString.BACKTICK).
    change Utf16.QUOTE with (N_of_ascii JsString.QUOTE).
    rewrite N_of_ascii_eqb.
    destruct (Ascii.eqb c JsString.DOLLAR).
    - destruct t as [|d t']; [reflexivity |]. cbn [Utf16.widen String.length] in *.
      rewrite !N_of_ascii_eqb.
      destruct (Ascii.eqb d JsString.DOLLAR); [cbn [Utf16.widen]; now rewrite IH by lia |].
      destruct (Ascii.eqb d JsString.AMPERSAND); [now rewrite widen_app, IH by lia |].
      destruct (Ascii.eqb d JsString.BACKTICK);
        [now rewrite widen_app, takeChars_widen, IH by lia |].
      destruct (Ascii.eqb d JsString.QUOTE);
        [now rewrite widen_app, dropChars_widen, length_widen, IH by lia |].
      cbn [Utf16.widen]. f_equal. now rewrite <- IH by (cbn [String.length]; lia).
    - cbn [Utf16.widen]. now rewrite IH by lia. }
  now apply (H (String.length template)).
Qed.

Lemma replaceLoop_widen (k : nat) (template str : string) (pos : nat)
    (lineStart : bool) (skip : nat) (rest : string) :
  Utf16.replaceLoop k (Utf16.widen template) (Utf16.widen str) pos lineStart skip (Utf16.widen rest)
  = Utf16.widen (JsString.replaceLoop k template str pos lineStart skip rest).
Proof.
  revert pos lineStart skip. induction rest as [|c r IH]; intros pos lineStart skip.
  - cbn [Utf16.widen Utf16.replaceLoop JsString.replaceLoop].
    destruct (lineStart && Nat.eqb k 0); [| reflexivity].
    exact (getSubstitution_widen "" str pos template).
  - cbn [Utf16.replaceLoop JsString.replaceLoop].
    change (Utf16.widen (String c r)) with (N_of_ascii c :: Utf16.widen r) at 1.
    cbn [Utf16.replaceLoop]. destruct skip as [|skip']; [| apply IH].
    change (N_of_ascii c :: Utf16.widen r) with (Utf16.widen (String c r)).
    rewrite startsWithSpaces_widen, isLineTerminator_widen.
    destruct (lineStart && JsString.startsWithSpaces k (String c r)).
    + rewrite widen_app, <- spaces_widen, getSubstitution_widen. f_equal.
      destruct k as [|k']; [cbn [Utf16.widen]; now rewrite IH | apply IH].
    + cbn [Utf16.widen]. now rewrite IH.
Qed.

Lemma replaceIndent_widen (k : nat) (template line : string) :
  Utf16.replaceIndent k (Utf16.widen template) (Utf16.widen line)
  = Utf16.widen (JsString.replaceIndent k template line).
Proof. apply replaceLoop_widen. Qed.

Lemma join_widen (sep : string) (ss : list string) :
  Utf16.join (Utf16.widen sep) (map Utf16.widen ss) = Utf16.widen (JsString.join sep ss).
Proof.
  unfold JsString.join. induction ss as [|x [|y ss] IH]; [reflexivity | reflexivity |].
  change (String.concat sep (x :: y :: ss)) with (x +:+ sep +:+ String.concat sep (y :: ss)).
  rewrite !widen_app, <- IH. reflexivity.
Qed.

Lemma interpolateLoop_widen (s : string) (strings interpolations : list string) :
  Utf16.interpolateLoop (Utf16.widen s) (map Utf16.widen strings) (map Utf16.widen interpolations)
  = match interpolateLoop s strings interpolations with
    | Ok t => Ok (Utf16.widen t)
    | Throw e => Throw e
    | OutOfFuel => OutOfFuel
    end.
Proof.
  revert s interpolations.
  induction strings as [|str strings IH]; intros s [|i interpolations]; try reflexivity.
  cbn [map Utf16.interpolateLoop interpolateLoop]. rewrite <- !widen_app. apply IH.
Qed.

Lemma interpolate_widen (strings interpolations : list string) :
  Utf16.interpolate (map Utf16.widen strings) (map Utf16.widen interpolations)
  = match interpolate strings interpolations with
    | Ok t => Ok (Utf16.widen t)
    | Throw e => Throw e
    | OutOfFuel => OutOfFuel
    end.
Proof.
  destruct strings as [|s strings]; [reflexivity |]. apply interpolateLoop_widen.
Qed.

Lemma filter_nonBlank_widen (ls : list string) :
  List.filter (fun l => negb (Utf16.isBlank l)) (map Utf16.widen ls)
  = map Utf16.widen (List.filter (fun l => negb (JsString.isBlank l)) ls).
Proof.
  induction ls as [|l ls IH]; [reflexivity |]. cbn [map List.filter].
  rewrite isBlank_widen, IH. now destruct (JsString.isBlank l).
Qed.

(** The render method over UTF-16, run on the widened fragments, coerced
    texts and indent of a Text node, gives the widened result of the
    render method of the node. *)
Lemma text_render_widen (toStr : value -> outcome string)
    (strings : list string) (interpolations : list value) (params : RenderParams)
    (coerced : list string) :
  mapO toStr interpolations = Ok coerced ->
  Utf16.text_render (map Utf16.widen strings) (map Utf16.widen coerced) (Utf16.widen (indent params))
  = match text_render toStr strings interpolations params with
    | Ok r => Ok (widenResult r)
    | Throw e => Throw e
    | OutOfFuel => OutOfFuel
    end.
Proof.
  intros Hco. unfold Utf16.text_render, text_render. rewrite Hco. cbn [bindO].
  rewrite interpolate_widen.
  destruct (interpolate strings coerced) as [t | e |]; cbn [bindO]; try reflexivity.
  rewrite splitLines_widen, length_map.
  destruct (Nat.eqb (length (JsString.splitLines t)) 1); [reflexivity |].
  unfold widenResult. cbn [isMultiline content]. do 2 f_equal.
  change [Utf16.LF] with (Utf16.widen newline).
  destruct (JsString.splitLines t) as [|first rest]; [reflexivity |].
  cbn [map hd tl]. rewrite filter_nonBlank_widen.
  assert (forall ls, map Utf16.indentOfLine (map Utf16.widen ls) = map indentOfLine ls)
    as Hmin by (intros ls; rewrite map_map; apply map_ext, indentOfLine_widen).
  rewrite Hmin, <- join_widen. cbn [map]. do 2 f_equal. rewrite !map_map.
  apply map_ext. intros l. apply replaceIndent_widen.
Qed.

End Widen.
